(** * The rendezvous mediator of p2psc: connection handler, identifier store
      and disconnect barrier

    A shallow embedding of [FakeMediator] (integration/src/util/fake_mediator.cpp).
    Every accepted connection is served by its own thread running
    [_handle_connection]; the threads share the key-to-identifier store, the
    set of completed disconnects with its mutex and condition variable, and
    the two message logs.  The embedding is an interleaving semantics: a
    handler is a program counter plus its local variables, and one step of
    the mediator runs one handler up to its next action on the socket or on
    the shared state.  Sections that the code runs under [_mutex] are single
    steps.

    A step also takes in what the handler does next without touching the
    store or the barrier: the entry in the log after a send or a receive,
    and the notification of [_shutdown_cv] with the return that follows it.
    No handler reads the logs or waits on [_shutdown_cv], so that this
    leaves what the handlers do to each other as it is.  The code holds no
    lock at these places, however: the order in which different handlers
    write their entries into the logs, and what other threads do between a
    message, the notification and the return of a handler, are not
    modelled, and the record of a run says nothing about them. *)

From stdpp Require Import base strings gmap sets list.
From Stdlib Require Import ZArith DecimalString.

Local Open Scope Z_scope.

(** ** Messages *)

(** Modelled from the spec: the message headers are not among the sources;
    section 3 lists the six message types, and the handler names each of
    them through [format().type]. *)
Inductive MessageType :=
  | TypeAdvertise
  | TypeAdvertiseAbort
  | TypeAdvertiseChallenge
  | TypeAdvertiseResponse
  | TypePeerIdentification
  | TypePeerDisconnect.

#[global] Instance MessageType_eq_dec : EqDecision MessageType.
Proof. solve_decision. Defined.

(** Modelled from the spec: socket_address.h is not among the sources; the
    handler and [LocalListeningSocket::get_socket_address] use an address
    as a pair of a host and a port, read with [ip()] and [port()], and
    [_completed_disconnects] compares addresses as such pairs. *)
Record SocketAddress := { ip : string; port : Z }.

#[global] Instance SocketAddress_eq_dec : EqDecision SocketAddress.
Proof. solve_decision. Defined.

#[global] Instance SocketAddress_countable : Countable SocketAddress :=
  inj_countable' (λ a, (ip a, port a)) (λ p, {| ip := p.1; port := p.2 |})
    (λ a, match a with Build_SocketAddress _ _ => eq_refl end).

(** Modelled from the spec: the payloads are declared in the message
    headers, which are not among the sources.  The fields of [Advertise]
    are the ones the handler reads; [AdvertiseAbort], [AdvertiseChallenge],
    [PeerIdentification] and [PeerDisconnect] have the fields the handler
    fills in, in the order of its initialisers; the one field of
    [AdvertiseResponse], which the handler never reads, is the proof of
    section 3. *)
Record Advertise := { version : Z; our_key : string; their_key : string }.
Record AdvertiseAbort := { reason : string }.
Record AdvertiseChallenge := { encrypted_nonce : string }.
Record AdvertiseResponse := { decrypted_nonce : Z }.
Record PeerIdentification :=
  { peer_version : Z; peer_ip : string; peer_port : Z }.
Record PeerDisconnect := { disconnect_port : Z }.

(** Modelled from the spec: what travels on a socket.  The JSON codec
    (message_decoder.h) is not among the sources: a wire message is the
    value [encode] was given, and [decode<T>] succeeds exactly on the
    messages of variant [T]; on any other it throws, which ends the
    handler's thread. *)
Inductive WireMessage :=
  | WAdvertise (p : Advertise)
  | WAdvertiseAbort (p : AdvertiseAbort)
  | WAdvertiseChallenge (p : AdvertiseChallenge)
  | WAdvertiseResponse (p : AdvertiseResponse)
  | WPeerIdentification (p : PeerIdentification)
  | WPeerDisconnect (p : PeerDisconnect).

Definition message_type (w : WireMessage) : MessageType :=
  match w with
  | WAdvertise _ => TypeAdvertise
  | WAdvertiseAbort _ => TypeAdvertiseAbort
  | WAdvertiseChallenge _ => TypeAdvertiseChallenge
  | WAdvertiseResponse _ => TypeAdvertiseResponse
  | WPeerIdentification _ => TypePeerIdentification
  | WPeerDisconnect _ => TypePeerDisconnect
  end.

Definition decode_Advertise (w : WireMessage) : option Advertise :=
  match w with WAdvertise p => Some p | _ => None end.

Definition decode_AdvertiseResponse (w : WireMessage) : option AdvertiseResponse :=
  match w with WAdvertiseResponse p => Some p | _ => None end.

(** [std::to_string] on an integer. *)
Definition to_string (z : Z) : string := NilZero.string_of_int (Z.to_int z).

(** ** The key-to-identifier store *)

(** Modelled from the spec: the record of the store, built by the handler
    from the address of the session's socket and the advertised version,
    and read through [socket_address] and [version]. *)
Record PeerIdentifier := { socket_address : SocketAddress; identifier_version : Z }.

Module KeyToIdentifierStore.

(** Modelled from the spec: the class of [_key_to_identifier_store] is not
    among the sources; section 4.1 gives its contract.  [put] inserts or
    overwrites, [get] is a non-blocking lookup, and [await] hands back the
    record found when the caller wakes up, or nothing when the timeout
    elapsed with the key still absent. *)
Definition put (key : string) (record : PeerIdentifier)
    (store : gmap string PeerIdentifier) : gmap string PeerIdentifier :=
  <[key := record]> store.

Definition get (key : string) (store : gmap string PeerIdentifier)
    : option PeerIdentifier :=
  store !! key.

Definition await (key : string) (timeout_ms : Z)
    (store : gmap string PeerIdentifier) : option PeerIdentifier :=
  store !! key.

End KeyToIdentifierStore.

(** ** The disconnect barrier

    [_completed_disconnects] guarded by [_mutex], and [_disconnect_cv].  A
    condition variable is the set of threads asleep on it. *)

Record Barrier := {
  _completed_disconnects : gset SocketAddress;
  _disconnect_cv : gset nat
}.

(** The block of [_add_to_disconnects] that holds the lock. *)
Definition insert_completed (address : SocketAddress) (b : Barrier) : Barrier :=
  {| _completed_disconnects := {[address]} ∪ _completed_disconnects b;
     _disconnect_cv := _disconnect_cv b |}.

(** [_disconnect_cv.notify_all()]: nobody is left asleep. *)
Definition notify_all (b : Barrier) : Barrier :=
  {| _completed_disconnects := _completed_disconnects b;
     _disconnect_cv := ∅ |}.

Definition _add_to_disconnects (address : SocketAddress) (b : Barrier) : Barrier :=
  notify_all (insert_completed address b).

(** One pass of thread [tid] through [_wait_for_disconnect] with the lock
    held: when the predicate holds the address is erased and the call
    returns ([true]); otherwise the thread goes to sleep on the condition
    variable, releasing the lock ([false]). *)
Definition _wait_for_disconnect (tid : nat) (address : SocketAddress) (b : Barrier)
    : bool * Barrier :=
  if bool_decide (address ∈ _completed_disconnects b)
  then (true, {| _completed_disconnects := _completed_disconnects b ∖ {[address]};
                 _disconnect_cv := _disconnect_cv b |})
  else (false, {| _completed_disconnects := _completed_disconnects b;
                  _disconnect_cv := {[tid]} ∪ _disconnect_cv b |}).

(** ** Handlers *)

(** Where a handler stands: the next action of [_handle_connection] it will
    perform. *)
Inductive Location :=
  | AtReceiveAdvertise
  | AtSendAdvertiseAbort
  | AtSendAdvertiseChallenge
  | AtReceiveAdvertiseResponse
  | AtGet
  | AtPutClient
  | AtAwait
  | AtWaitForDisconnect
  | AtSendPeerIdentification
  | AtPutPeer
  | AtSendPeerDisconnect
  | AtInsertDisconnect
  | AtNotifyDisconnect
  | Returned
  | Terminated.

#[global] Instance Location_eq_dec : EqDecision Location.
Proof. solve_decision. Defined.

(** A session: its socket (the peer's address, what the peer still has to
    send, what was sent to the peer, whether the handler still holds it) and
    the handler's frame.  A local is [None] until its declaration is
    executed. *)
Record Session := {
  session_address : SocketAddress;
  inbox : list WireMessage;
  outbox : list WireMessage;
  socket_held : bool;
  location : Location;
  advertise : option Advertise;
  advertise_response : option AdvertiseResponse;
  maybe_peer : option (option PeerIdentifier);
  awaited_peer : option (option PeerIdentifier)
}.

Record FakeMediator := {
  _handler_pool : list Session;
  _key_to_identifier_store : gmap string PeerIdentifier;
  barrier : Barrier;
  _shutdown_cv_notified : nat;
  _sent_messages : list WireMessage;
  _received_messages : list WireMessage
}.

(** What a step does, for the record of a run.  Going to sleep on the
    condition variable leaves no event: it shows in [_disconnect_cv]. *)
Inductive Event :=
  | EvReceive (tid : nat) (w : WireMessage)
  | EvEncrypt (tid : nat) (key plaintext : string)
  | EvSend (tid : nat) (w : WireMessage)
  | EvGet (tid : nat) (key : string) (found : option PeerIdentifier)
  | EvPut (tid : nat) (key : string) (record : PeerIdentifier)
  | EvAwait (tid : nat) (key : string) (timeout_ms : Z) (found : option PeerIdentifier)
  | EvWaitReturned (tid : nat) (address : SocketAddress)
  | EvMarkComplete (tid : nat) (address : SocketAddress)
  | EvNotifyDisconnect (tid : nat)
  | EvNotifyShutdown (tid : nat)
  | EvReturn (tid : nat)
  | EvThrow (tid : nat).

#[global] Instance PeerIdentifier_eq_dec : EqDecision PeerIdentifier.
Proof. solve_decision. Defined.
#[global] Instance Advertise_eq_dec : EqDecision Advertise.
Proof. solve_decision. Defined.
#[global] Instance AdvertiseAbort_eq_dec : EqDecision AdvertiseAbort.
Proof. solve_decision. Defined.
#[global] Instance AdvertiseChallenge_eq_dec : EqDecision AdvertiseChallenge.
Proof. solve_decision. Defined.
#[global] Instance AdvertiseResponse_eq_dec : EqDecision AdvertiseResponse.
Proof. solve_decision. Defined.
#[global] Instance PeerIdentification_eq_dec : EqDecision PeerIdentification.
Proof. solve_decision. Defined.
#[global] Instance PeerDisconnect_eq_dec : EqDecision PeerDisconnect.
Proof. solve_decision. Defined.
#[global] Instance WireMessage_eq_dec : EqDecision WireMessage.
Proof. solve_decision. Defined.
#[global] Instance Event_eq_dec : EqDecision Event.
Proof. solve_decision. Defined.

(** Field updates. *)
Definition at_location (l : Location) (s : Session) : Session :=
  {| session_address := session_address s; inbox := inbox s; outbox := outbox s;
     socket_held := socket_held s; location := l; advertise := advertise s;
     advertise_response := advertise_response s; maybe_peer := maybe_peer s;
     awaited_peer := awaited_peer s |}.

Definition with_inbox (l : list WireMessage) (s : Session) : Session :=
  {| session_address := session_address s; inbox := l; outbox := outbox s;
     socket_held := socket_held s; location := location s; advertise := advertise s;
     advertise_response := advertise_response s; maybe_peer := maybe_peer s;
     awaited_peer := awaited_peer s |}.

Definition with_outbox (l : list WireMessage) (s : Session) : Session :=
  {| session_address := session_address s; inbox := inbox s; outbox := l;
     socket_held := socket_held s; location := location s; advertise := advertise s;
     advertise_response := advertise_response s; maybe_peer := maybe_peer s;
     awaited_peer := awaited_peer s |}.

Definition with_advertise (a : Advertise) (s : Session) : Session :=
  {| session_address := session_address s; inbox := inbox s; outbox := outbox s;
     socket_held := socket_held s; location := location s; advertise := Some a;
     advertise_response := advertise_response s; maybe_peer := maybe_peer s;
     awaited_peer := awaited_peer s |}.

Definition with_advertise_response (r : AdvertiseResponse) (s : Session) : Session :=
  {| session_address := session_address s; inbox := inbox s; outbox := outbox s;
     socket_held := socket_held s; location := location s; advertise := advertise s;
     advertise_response := Some r; maybe_peer := maybe_peer s;
     awaited_peer := awaited_peer s |}.

Definition with_maybe_peer (p : option PeerIdentifier) (s : Session) : Session :=
  {| session_address := session_address s; inbox := inbox s; outbox := outbox s;
     socket_held := socket_held s; location := location s; advertise := advertise s;
     advertise_response := advertise_response s; maybe_peer := Some p;
     awaited_peer := awaited_peer s |}.

Definition with_awaited_peer (p : option PeerIdentifier) (s : Session) : Session :=
  {| session_address := session_address s; inbox := inbox s; outbox := outbox s;
     socket_held := socket_held s; location := location s; advertise := advertise s;
     advertise_response := advertise_response s; maybe_peer := maybe_peer s;
     awaited_peer := Some p |}.

(** The handler's [shared_ptr] is the last owner of the session socket: when
    the thread function ends the socket goes with it. *)
Definition release_socket (l : Location) (s : Session) : Session :=
  {| session_address := session_address s; inbox := inbox s; outbox := outbox s;
     socket_held := false; location := l; advertise := advertise s;
     advertise_response := advertise_response s; maybe_peer := maybe_peer s;
     awaited_peer := awaited_peer s |}.

Definition with_store (st : gmap string PeerIdentifier) (m : FakeMediator) : FakeMediator :=
  {| _handler_pool := _handler_pool m; _key_to_identifier_store := st;
     barrier := barrier m; _shutdown_cv_notified := _shutdown_cv_notified m;
     _sent_messages := _sent_messages m; _received_messages := _received_messages m |}.

Definition with_barrier (b : Barrier) (m : FakeMediator) : FakeMediator :=
  {| _handler_pool := _handler_pool m;
     _key_to_identifier_store := _key_to_identifier_store m;
     barrier := b; _shutdown_cv_notified := _shutdown_cv_notified m;
     _sent_messages := _sent_messages m; _received_messages := _received_messages m |}.

Definition with_handler (tid : nat) (s : Session) (m : FakeMediator) : FakeMediator :=
  {| _handler_pool := <[tid := s]> (_handler_pool m);
     _key_to_identifier_store := _key_to_identifier_store m;
     barrier := barrier m; _shutdown_cv_notified := _shutdown_cv_notified m;
     _sent_messages := _sent_messages m; _received_messages := _received_messages m |}.

Definition notify_shutdown (m : FakeMediator) : FakeMediator :=
  {| _handler_pool := _handler_pool m;
     _key_to_identifier_store := _key_to_identifier_store m;
     barrier := barrier m; _shutdown_cv_notified := S (_shutdown_cv_notified m);
     _sent_messages := _sent_messages m; _received_messages := _received_messages m |}.

Definition log_sent (w : WireMessage) (m : FakeMediator) : FakeMediator :=
  {| _handler_pool := _handler_pool m;
     _key_to_identifier_store := _key_to_identifier_store m;
     barrier := barrier m; _shutdown_cv_notified := _shutdown_cv_notified m;
     _sent_messages := _sent_messages m ++ [w];
     _received_messages := _received_messages m |}.

Definition log_received (w : WireMessage) (m : FakeMediator) : FakeMediator :=
  {| _handler_pool := _handler_pool m;
     _key_to_identifier_store := _key_to_identifier_store m;
     barrier := barrier m; _shutdown_cv_notified := _shutdown_cv_notified m;
     _sent_messages := _sent_messages m;
     _received_messages := _received_messages m ++ [w] |}.

(** ** [_handle_connection] *)

Section Mediator.

(** [crypto::RSA::from_public_key(key)->public_encrypt(plaintext)]: no
    result when the key does not parse. *)
Variable public_encrypt : string → string → option string.
(** [_protocol_version(kVersion)]; the constant is declared outside the
    sources. *)
Variable kVersion : Z.
(** The member set by [quit_after]; [None] when no message type is set. *)
Variable _quit_after : option MessageType.

Definition _protocol_version : Z := kVersion.

Definition nonce : Z := 1337.

Definition Outcome : Type := Session * FakeMediator * list Event.

Definition quit_requested (message_type : MessageType) : bool :=
  bool_decide (_quit_after = Some message_type).

(** [_shutdown_cv.notify_all(); return;], within the step of the statement
    before them (see the head of the file). *)
Definition notify_and_return (tid : nat) (s : Session) (m : FakeMediator)
    (events : list Event) : Outcome :=
  (release_socket Returned s, notify_shutdown m,
   events ++ [EvNotifyShutdown tid; EvReturn tid]).

(** A bare [return;]. *)
Definition just_return (tid : nat) (s : Session) (m : FakeMediator)
    (events : list Event) : Outcome :=
  (release_socket Returned s, m, events ++ [EvReturn tid]).

(** An exception leaves the thread function. *)
Definition throw (tid : nat) (s : Session) (m : FakeMediator)
    (events : list Event) : Outcome :=
  (release_socket Terminated s, m, events ++ [EvThrow tid]).

(** The macro, followed by the code that runs when it does not return:
    the handler goes on at [next]. *)
Definition QUIT_IF_REQUESTED (tid : nat) (message_type : MessageType)
    (next : Location) (s : Session) (m : FakeMediator) (events : list Event)
    : Outcome :=
  if quit_requested message_type
  then notify_and_return tid s m events
  else (at_location next s, m, events).

(** [socket->send(json)] and [_sent_messages.push_back(json)], in one step
    (see the head of the file): the entries of one handler are in the log
    in the order of its sends, the place of the entries of other handlers
    between them is not modelled. *)
Definition _send_and_log (tid : nat) (w : WireMessage) (s : Session)
    (m : FakeMediator) : Session * FakeMediator * list Event :=
  (with_outbox (outbox s ++ [w]) s, log_sent w m, [EvSend tid w]).

Definition abort_reason : string :=
  "Required protocol version: " +:+ to_string _protocol_version.

Definition peer_identifier_of (s : Session) (a : Advertise) : PeerIdentifier :=
  {| socket_address := session_address s; identifier_version := version a |}.

(** One action of the handler thread [tid] whose session is [s].  No
    result: the thread cannot move (nothing to receive yet, or it has
    ended). *)
Definition _handle_connection (tid : nat) (s : Session) (m : FakeMediator)
    : option Outcome :=
  match location s with
  | AtReceiveAdvertise =>
      match inbox s with
      | [] => None
      | raw :: rest =>
          match decode_Advertise raw with
          | None => Some (throw tid (with_inbox rest s) m [])
          | Some a =>
              Some (QUIT_IF_REQUESTED tid TypeAdvertise
                      (if version a <? _protocol_version
                       then AtSendAdvertiseAbort else AtSendAdvertiseChallenge)
                      (with_advertise a (with_inbox rest s))
                      (log_received raw m) [EvReceive tid raw])
          end
      end
  | AtSendAdvertiseAbort =>
      let advertise_abort := WAdvertiseAbort {| reason := abort_reason |} in
      let '(s, m, events) := _send_and_log tid advertise_abort s m in
      if quit_requested TypeAdvertiseAbort
      then Some (notify_and_return tid s m events)
      else Some (just_return tid s m events)
  | AtSendAdvertiseChallenge =>
      a ← advertise s;
      match public_encrypt (our_key a) (to_string nonce) with
      | None => Some (throw tid s m [EvEncrypt tid (our_key a) (to_string nonce)])
      | Some ciphertext =>
          let advertise_challenge :=
            WAdvertiseChallenge {| encrypted_nonce := ciphertext |} in
          let '(s, m, events) := _send_and_log tid advertise_challenge s m in
          Some (QUIT_IF_REQUESTED tid TypeAdvertiseChallenge
                  AtReceiveAdvertiseResponse s m
                  (EvEncrypt tid (our_key a) (to_string nonce) :: events))
      end
  | AtReceiveAdvertiseResponse =>
      match inbox s with
      | [] => None
      | raw :: rest =>
          match decode_AdvertiseResponse raw with
          | None => Some (throw tid (with_inbox rest s) m [])
          | Some r =>
              Some (QUIT_IF_REQUESTED tid TypeAdvertiseResponse AtGet
                      (with_advertise_response r (with_inbox rest s))
                      (log_received raw m) [EvReceive tid raw])
          end
      end
  | AtGet =>
      a ← advertise s;
      let found := KeyToIdentifierStore.get (their_key a) (_key_to_identifier_store m) in
      Some (at_location (if found is Some _ then AtPutPeer else AtPutClient)
              (with_maybe_peer found s),
            m, [EvGet tid (their_key a) found])
  | AtPutClient =>
      a ← advertise s;
      Some (at_location AtAwait s,
            with_store (KeyToIdentifierStore.put (our_key a) (peer_identifier_of s a)
                          (_key_to_identifier_store m)) m,
            [EvPut tid (our_key a) (peer_identifier_of s a)])
  | AtAwait =>
      a ← advertise s;
      let found :=
        KeyToIdentifierStore.await (their_key a) 2000 (_key_to_identifier_store m) in
      let s := with_awaited_peer found s in
      let events := [EvAwait tid (their_key a) 2000 found] in
      match found with
      | None => Some (just_return tid s m events)
      | Some _ => Some (at_location AtWaitForDisconnect s, m, events)
      end
  | AtWaitForDisconnect =>
      p ← mjoin (awaited_peer s);
      let '(satisfied, b) := _wait_for_disconnect tid (socket_address p) (barrier m) in
      if satisfied
      then Some (at_location AtSendPeerIdentification s, with_barrier b m,
                 [EvWaitReturned tid (socket_address p)])
      else Some (s, with_barrier b m, [])
  | AtSendPeerIdentification =>
      p ← mjoin (awaited_peer s);
      let peer_identification :=
        WPeerIdentification
          {| peer_version := identifier_version p;
             peer_ip := ip (socket_address p);
             peer_port := port (socket_address p) |} in
      let '(s, m, events) := _send_and_log tid peer_identification s m in
      Some (notify_and_return tid s m events)
  | AtPutPeer =>
      a ← advertise s;
      Some (at_location AtSendPeerDisconnect s,
            with_store (KeyToIdentifierStore.put (our_key a) (peer_identifier_of s a)
                          (_key_to_identifier_store m)) m,
            [EvPut tid (our_key a) (peer_identifier_of s a)])
  | AtSendPeerDisconnect =>
      let peer_disconnect :=
        WPeerDisconnect {| disconnect_port := port (session_address s) |} in
      let '(s, m, events) := _send_and_log tid peer_disconnect s m in
      Some (at_location AtInsertDisconnect s, m, events)
  | AtInsertDisconnect =>
      Some (at_location AtNotifyDisconnect s,
            with_barrier (insert_completed (session_address s) (barrier m)) m,
            [EvMarkComplete tid (session_address s)])
  | AtNotifyDisconnect =>
      Some (notify_and_return tid s (with_barrier (notify_all (barrier m)) m)
              [EvNotifyDisconnect tid])
  | Returned | Terminated => None
  end.

(** One step of the mediator: the scheduler picks a thread; a thread
    asleep on [_disconnect_cv] cannot be picked. *)
Definition step (m : FakeMediator) (tid : nat) : option (FakeMediator * list Event) :=
  s ← _handler_pool m !! tid;
  if bool_decide (tid ∈ _disconnect_cv (barrier m)) then None
  else
    '(s', m', events) ← _handle_connection tid s m;
    Some (with_handler tid s' m', events).

Fixpoint run (m : FakeMediator) (schedule : list nat)
    : option (FakeMediator * list Event) :=
  match schedule with
  | [] => Some (m, [])
  | tid :: rest =>
      '(m1, events1) ← step m tid;
      '(m2, events2) ← run m1 rest;
      Some (m2, events1 ++ events2)
  end.

(** ** The paths through [_handle_connection]

    What one handler does from the connection it was given: the session it
    has reached and the events it produced on the way, for each statement
    of the function that can be its next. *)

Section Paths.

Variable tid : nat.
Variable address : SocketAddress.
Variable incoming : list WireMessage.

(** The advertisement [a] was received and accepted, and [c] is the
    challenge for it; [rest] is what the peer sends after [a]. *)
Definition challenged (a : Advertise) (c : string) (rest : list WireMessage) : Prop :=
  incoming = WAdvertise a :: rest
  ∧ quit_requested TypeAdvertise = false
  ∧ (version a <? _protocol_version) = false
  ∧ public_encrypt (our_key a) "1337" = Some c.

(** The whole handshake went through, with [r] the peer's response. *)
Definition responded (a : Advertise) (c : string) (r : AdvertiseResponse)
    (rest : list WireMessage) : Prop :=
  challenged a c (WAdvertiseResponse r :: rest)
  ∧ quit_requested TypeAdvertiseChallenge = false
  ∧ quit_requested TypeAdvertiseResponse = false.

Definition challenge (c : string) : WireMessage :=
  WAdvertiseChallenge {| encrypted_nonce := c |}.

Definition abort : WireMessage :=
  WAdvertiseAbort {| reason := abort_reason |}.

Definition identification (p : PeerIdentifier) : WireMessage :=
  WPeerIdentification
    {| peer_version := identifier_version p;
       peer_ip := ip (socket_address p);
       peer_port := port (socket_address p) |}.

Definition disconnect : WireMessage :=
  WPeerDisconnect {| disconnect_port := port address |}.

Definition registration (a : Advertise) : PeerIdentifier :=
  {| socket_address := address; identifier_version := version a |}.

Definition challenge_events (a : Advertise) (c : string) : list Event :=
  [EvReceive tid (WAdvertise a);
   EvEncrypt tid (our_key a) "1337";
   EvSend tid (challenge c)].

Definition handshake_events (a : Advertise) (c : string) (r : AdvertiseResponse)
    : list Event :=
  challenge_events a c ++ [EvReceive tid (WAdvertiseResponse r)].

Definition client_events (a : Advertise) (c : string) (r : AdvertiseResponse)
    : list Event :=
  handshake_events a c r ++
  [EvGet tid (their_key a) None; EvPut tid (our_key a) (registration a)].

Definition peer_events (a : Advertise) (c : string) (r : AdvertiseResponse)
    (found : PeerIdentifier) : list Event :=
  handshake_events a c r ++
  [EvGet tid (their_key a) (Some found); EvPut tid (our_key a) (registration a)].

Definition quit_events : list Event := [EvNotifyShutdown tid; EvReturn tid].

Inductive path : Session → list Event → Prop :=
  | path_start :
      path (Build_Session address incoming [] true AtReceiveAdvertise
              None None None None) []
  | path_advertise_undecodable raw rest :
      incoming = raw :: rest → decode_Advertise raw = None →
      path (Build_Session address rest [] false Terminated None None None None)
        [EvThrow tid]
  | path_quit_after_advertise a rest :
      incoming = WAdvertise a :: rest → quit_requested TypeAdvertise = true →
      path (Build_Session address rest [] false Returned (Some a) None None None)
        (EvReceive tid (WAdvertise a) :: quit_events)
  | path_old_version a rest :
      incoming = WAdvertise a :: rest → quit_requested TypeAdvertise = false →
      (version a <? _protocol_version) = true →
      path (Build_Session address rest [] true AtSendAdvertiseAbort
              (Some a) None None None)
        [EvReceive tid (WAdvertise a)]
  | path_aborted a rest :
      incoming = WAdvertise a :: rest → quit_requested TypeAdvertise = false →
      (version a <? _protocol_version) = true →
      quit_requested TypeAdvertiseAbort = false →
      path (Build_Session address rest [abort] false Returned
              (Some a) None None None)
        [EvReceive tid (WAdvertise a); EvSend tid abort; EvReturn tid]
  | path_aborted_quit a rest :
      incoming = WAdvertise a :: rest → quit_requested TypeAdvertise = false →
      (version a <? _protocol_version) = true →
      quit_requested TypeAdvertiseAbort = true →
      path (Build_Session address rest [abort] false Returned
              (Some a) None None None)
        (EvReceive tid (WAdvertise a) :: EvSend tid abort :: quit_events)
  | path_advertised a rest :
      incoming = WAdvertise a :: rest → quit_requested TypeAdvertise = false →
      (version a <? _protocol_version) = false →
      path (Build_Session address rest [] true AtSendAdvertiseChallenge
              (Some a) None None None)
        [EvReceive tid (WAdvertise a)]
  | path_key_unusable a rest :
      incoming = WAdvertise a :: rest → quit_requested TypeAdvertise = false →
      (version a <? _protocol_version) = false →
      public_encrypt (our_key a) "1337" = None →
      path (Build_Session address rest [] false Terminated
              (Some a) None None None)
        [EvReceive tid (WAdvertise a); EvEncrypt tid (our_key a) "1337";
         EvThrow tid]
  | path_quit_after_challenge a c rest :
      challenged a c rest → quit_requested TypeAdvertiseChallenge = true →
      path (Build_Session address rest [challenge c] false Returned
              (Some a) None None None)
        (challenge_events a c ++ quit_events)
  | path_challenged a c rest :
      challenged a c rest → quit_requested TypeAdvertiseChallenge = false →
      path (Build_Session address rest [challenge c] true
              AtReceiveAdvertiseResponse (Some a) None None None)
        (challenge_events a c)
  | path_response_undecodable a c raw rest :
      challenged a c (raw :: rest) →
      quit_requested TypeAdvertiseChallenge = false →
      decode_AdvertiseResponse raw = None →
      path (Build_Session address rest [challenge c] false Terminated
              (Some a) None None None)
        (challenge_events a c ++ [EvThrow tid])
  | path_quit_after_response a c r rest :
      challenged a c (WAdvertiseResponse r :: rest) →
      quit_requested TypeAdvertiseChallenge = false →
      quit_requested TypeAdvertiseResponse = true →
      path (Build_Session address rest [challenge c] false Returned
              (Some a) (Some r) None None)
        (handshake_events a c r ++ quit_events)
  | path_responded a c r rest :
      responded a c r rest →
      path (Build_Session address rest [challenge c] true AtGet
              (Some a) (Some r) None None)
        (handshake_events a c r)
  | path_client a c r rest :
      responded a c r rest →
      path (Build_Session address rest [challenge c] true AtPutClient
              (Some a) (Some r) (Some None) None)
        (handshake_events a c r ++ [EvGet tid (their_key a) None])
  | path_client_registered a c r rest :
      responded a c r rest →
      path (Build_Session address rest [challenge c] true AtAwait
              (Some a) (Some r) (Some None) None)
        (client_events a c r)
  | path_timed_out a c r rest :
      responded a c r rest →
      path (Build_Session address rest [challenge c] false Returned
              (Some a) (Some r) (Some None) (Some None))
        (client_events a c r ++
         [EvAwait tid (their_key a) 2000 None; EvReturn tid])
  | path_awaited a c r rest p :
      responded a c r rest →
      path (Build_Session address rest [challenge c] true AtWaitForDisconnect
              (Some a) (Some r) (Some None) (Some (Some p)))
        (client_events a c r ++ [EvAwait tid (their_key a) 2000 (Some p)])
  | path_wait_returned a c r rest p :
      responded a c r rest →
      path (Build_Session address rest [challenge c] true
              AtSendPeerIdentification
              (Some a) (Some r) (Some None) (Some (Some p)))
        (client_events a c r ++
         [EvAwait tid (their_key a) 2000 (Some p);
          EvWaitReturned tid (socket_address p)])
  | path_identified a c r rest p :
      responded a c r rest →
      path (Build_Session address rest [challenge c; identification p] false
              Returned (Some a) (Some r) (Some None) (Some (Some p)))
        (client_events a c r ++
         EvAwait tid (their_key a) 2000 (Some p) ::
         EvWaitReturned tid (socket_address p) ::
         EvSend tid (identification p) :: quit_events)
  | path_peer a c r rest found :
      responded a c r rest →
      path (Build_Session address rest [challenge c] true AtPutPeer
              (Some a) (Some r) (Some (Some found)) None)
        (handshake_events a c r ++ [EvGet tid (their_key a) (Some found)])
  | path_peer_registered a c r rest found :
      responded a c r rest →
      path (Build_Session address rest [challenge c] true AtSendPeerDisconnect
              (Some a) (Some r) (Some (Some found)) None)
        (peer_events a c r found)
  | path_disconnect_sent a c r rest found :
      responded a c r rest →
      path (Build_Session address rest [challenge c; disconnect] true
              AtInsertDisconnect (Some a) (Some r) (Some (Some found)) None)
        (peer_events a c r found ++ [EvSend tid disconnect])
  | path_marked_complete a c r rest found :
      responded a c r rest →
      path (Build_Session address rest [challenge c; disconnect] true
              AtNotifyDisconnect (Some a) (Some r) (Some (Some found)) None)
        (peer_events a c r found ++
         [EvSend tid disconnect; EvMarkComplete tid address])
  | path_disconnected a c r rest found :
      responded a c r rest →
      path (Build_Session address rest [challenge c; disconnect] false
              Returned (Some a) (Some r) (Some (Some found)) None)
        (peer_events a c r found ++
         EvSend tid disconnect :: EvMarkComplete tid address ::
         EvNotifyDisconnect tid :: quit_events).

End Paths.

End Mediator.

(** A connection as [accept] hands it to a fresh handler thread: the
    address of the socket and what the peer is going to send on it. *)
Definition accepted (address : SocketAddress) (incoming : list WireMessage) : Session :=
  {| session_address := address; inbox := incoming; outbox := [];
     socket_held := true; location := AtReceiveAdvertise; advertise := None;
     advertise_response := None; maybe_peer := None; awaited_peer := None |}.

Definition empty_barrier : Barrier :=
  {| _completed_disconnects := ∅; _disconnect_cv := ∅ |}.

(** A mediator that has accepted [connections] and run none of their
    handlers yet. *)
Definition started (connections : list (SocketAddress * list WireMessage))
    : FakeMediator :=
  {| _handler_pool := (λ c, accepted c.1 c.2) <$> connections;
     _key_to_identifier_store := ∅;
     barrier := empty_barrier; _shutdown_cv_notified := 0;
     _sent_messages := []; _received_messages := [] |}.

(** ** Runs and their records *)

Definition event_thread (e : Event) : nat :=
  match e with
  | EvReceive tid _ | EvEncrypt tid _ _ | EvSend tid _ | EvGet tid _ _
  | EvPut tid _ _ | EvAwait tid _ _ _
  | EvWaitReturned tid _ | EvMarkComplete tid _ | EvNotifyDisconnect tid
  | EvNotifyShutdown tid | EvReturn tid | EvThrow tid => tid
  end.

(** The events of one thread, in order, and the number of them among the
    first [n] events of a record. *)
Definition mine (tid : nat) (tr : list Event) : list Event :=
  filter (λ e, event_thread e = tid) tr.

Definition rank (tid : nat) (tr : list Event) (n : nat) : nat :=
  length (mine tid (take n tr)).

(** What the recorded barrier operations make of a set of completed
    disconnects. *)
Definition barrier_effect (c : gset SocketAddress) (e : Event) : gset SocketAddress :=
  match e with
  | EvMarkComplete _ a => {[a]} ∪ c
  | EvWaitReturned _ a => c ∖ {[a]}
  | _ => c
  end.

Definition replay (tr : list Event) : gset SocketAddress :=
  foldl barrier_effect ∅ tr.

(** A string that occurs inside another. *)
Definition contains (needle hay : string) : Prop :=
  ∃ before after, hay = before +:+ needle +:+ after.

(** ** Sessions that differ in the proof of the peer only

    [blank_mediator] forgets the payload of every AdvertiseResponse that
    was or will be received: in the inboxes, in the handlers' frames and in
    the log of received messages.  Two mediators with the same image differ
    in those payloads at most. *)

Definition blank_response (w : WireMessage) : WireMessage :=
  match w with
  | WAdvertiseResponse _ => WAdvertiseResponse {| decrypted_nonce := 0 |}
  | _ => w
  end.

Definition blank_session (s : Session) : Session :=
  {| session_address := session_address s;
     inbox := blank_response <$> inbox s;
     outbox := outbox s;
     socket_held := socket_held s;
     location := location s;
     advertise := advertise s;
     advertise_response := (λ _, {| decrypted_nonce := 0 |}) <$> advertise_response s;
     maybe_peer := maybe_peer s;
     awaited_peer := awaited_peer s |}.

Definition blank_mediator (m : FakeMediator) : FakeMediator :=
  {| _handler_pool := blank_session <$> _handler_pool m;
     _key_to_identifier_store := _key_to_identifier_store m;
     barrier := barrier m;
     _shutdown_cv_notified := _shutdown_cv_notified m;
     _sent_messages := _sent_messages m;
     _received_messages := blank_response <$> _received_messages m |}.

Definition blank_event (e : Event) : Event :=
  match e with
  | EvReceive tid w => EvReceive tid (blank_response w)
  | _ => e
  end.

Definition same_but_for_the_proofs (m1 m2 : FakeMediator) : Prop :=
  blank_mediator m1 = blank_mediator m2.

Definition blank_outcome (o : Session * FakeMediator * list Event)
    : Session * FakeMediator * list Event :=
  (blank_session o.1.1, blank_mediator o.1.2, blank_event <$> o.2).

Definition blank_result (r : FakeMediator * list Event) : FakeMediator * list Event :=
  (blank_mediator r.1, blank_event <$> r.2).


(** ** A rendezvous

    Two peers that name each other, with keys the mediator can use and
    versions it accepts; and a [quit_after] that leaves the handshake
    alone. *)

Definition rendezvous (addressA : SocketAddress) (advA : Advertise)
    (rA : AdvertiseResponse) (restA : list WireMessage)
    (addressB : SocketAddress) (advB : Advertise)
    (rB : AdvertiseResponse) (restB : list WireMessage)
    : list (SocketAddress * list WireMessage) :=
  [(addressA, WAdvertise advA :: WAdvertiseResponse rA :: restA);
   (addressB, WAdvertise advB :: WAdvertiseResponse rB :: restB)].

Definition valid_pair (public_encrypt : string → string → option string)
    (kVersion : Z) (advA advB : Advertise) (cA cB : string) : Prop :=
  their_key advA = our_key advB
  ∧ their_key advB = our_key advA
  ∧ our_key advA ≠ our_key advB
  ∧ kVersion ≤ version advA
  ∧ kVersion ≤ version advB
  ∧ public_encrypt (our_key advA) "1337" = Some cA
  ∧ public_encrypt (our_key advB) "1337" = Some cB.

Definition handshake_not_cut (_quit_after : option MessageType) : Prop :=
  _quit_after ≠ Some TypeAdvertise
  ∧ _quit_after ≠ Some TypeAdvertiseChallenge
  ∧ _quit_after ≠ Some TypeAdvertiseResponse.

(** ** A concrete rendezvous

    Two peers on the loopback interface, version 1 on both sides and on the
    mediator, and an encryption that keeps the plaintext readable. *)

Module Scenario.

Definition encrypt (key plaintext : string) : option string :=
  Some (key +:+ "/" +:+ plaintext).

Definition addressA : SocketAddress := {| ip := "127.0.0.1"; port := 5001 |}.
Definition addressB : SocketAddress := {| ip := "127.0.0.1"; port := 5002 |}.

Definition advA : Advertise := {| version := 1; our_key := "ka"; their_key := "kb" |}.
Definition advB : Advertise := {| version := 1; our_key := "kb"; their_key := "ka" |}.

Definition proof : AdvertiseResponse := {| decrypted_nonce := 1337 |}.
Definition no_proof : AdvertiseResponse := {| decrypted_nonce := 0 |}.

Definition connections : list (SocketAddress * list WireMessage) :=
  rendezvous addressA advA proof [] addressB advB proof [].

Definition connections_without_proof : list (SocketAddress * list WireMessage) :=
  rendezvous addressA advA no_proof [] addressB advB proof [].

(** The first peer registers, the second comes and is told to disconnect
    while the first sleeps on the barrier, the first is woken up and told
    who the second is. *)
Definition in_time : list nat :=
  [0; 0; 0; 0; 0; 1; 1; 1; 1; 1; 0; 0; 1; 1; 1; 0; 0]%nat.


(** Both handlers look the other up before either has registered. *)
Definition crossed : list nat :=
  [0; 0; 0; 1; 1; 1; 0; 1; 0; 1; 0; 1; 0; 1]%nat.

Definition old : Advertise := {| version := 0; our_key := "ka"; their_key := "kb" |}.

Definition old_connection : list (SocketAddress * list WireMessage) :=
  [(addressA, [WAdvertise old])].

End Scenario.

(** ** The two branches of the handler *)

Inductive Role := Initiator | Responder.

#[global] Instance Role_eq_dec : EqDecision Role.
Proof. solve_decision. Defined.

(** [if (!maybe_peer)]: the handler whose lookup found nothing goes on as
    the Client (the Initiator), the handler whose lookup found a record as
    the Peer (the Responder). *)
Definition role_of_lookup (maybe_peer : option PeerIdentifier) : Role :=
  if maybe_peer is Some _ then Responder else Initiator.

(** The branch that the statement a handler stands at belongs to. *)
Definition branch (l : Location) : option Role :=
  match l with
  | AtPutClient | AtAwait | AtWaitForDisconnect | AtSendPeerIdentification =>
      Some Initiator
  | AtPutPeer | AtSendPeerDisconnect | AtInsertDisconnect | AtNotifyDisconnect =>
      Some Responder
  | _ => None
  end.

(** What the statements of a branch leave in the record: the registration
    and the end of the function are in both branches, [await],
    [_wait_for_disconnect] and PeerIdentification in the first,
    PeerDisconnect and [_add_to_disconnects] in the second. *)
Definition on_branch (r : Role) (e : Event) : Prop :=
  match e with
  | EvPut _ _ _ | EvNotifyShutdown _ | EvReturn _ => True
  | EvAwait _ _ _ _ | EvWaitReturned _ _ | EvSend _ (WPeerIdentification _) =>
      r = Initiator
  | EvSend _ (WPeerDisconnect _) | EvMarkComplete _ _ | EvNotifyDisconnect _ =>
      r = Responder
  | _ => False
  end.

(** ** An address that is used again

    The first peer registers and its [await] times out; the second finds
    it, is told to disconnect and completes its address, which nobody
    waits for.  A second pair follows, whose second peer comes from the
    address of the second peer of the first pair. *)

Module Reuse.

Import Scenario.







End Reuse.

(** ** The messages read, the hook and the call that waits for the shutdown *)

(** The message of a receive in the record of a run. *)
Definition received_message (e : Event) : option WireMessage :=
  match e with EvReceive _ w => Some w | _ => None end.

(** [quit_after(message_type)]: the member is overwritten. *)
Definition quit_after (message_type : MessageType) (_quit_after : option MessageType)
    : option MessageType :=
  Some message_type.

(** The settings of the hook that stand for a message of the handshake. *)
Definition cuts_the_handshake (_quit_after : option MessageType) : Prop :=
  _quit_after = Some TypeAdvertise ∨ _quit_after = Some TypeAdvertiseAbort
  ∨ _quit_after = Some TypeAdvertiseChallenge
  ∨ _quit_after = Some TypeAdvertiseResponse.

(** [await_shutdown] called by thread [tid]: under [_mutex] the caller goes
    to sleep on [_disconnect_cv]; the wait has no predicate, so that the
    call returns when the thread is next woken up.  As for the handlers,
    wake-ups without a notification are left out. *)
Definition await_shutdown (tid : nat) (m : FakeMediator) : FakeMediator :=
  with_barrier
    {| _completed_disconnects := _completed_disconnects (barrier m);
       _disconnect_cv := {[tid]} ∪ _disconnect_cv (barrier m) |} m.

(** What the recorded registrations make of a store. *)
Definition store_effect (store : gmap string PeerIdentifier) (e : Event)
    : gmap string PeerIdentifier :=
  match e with
  | EvPut _ key record => KeyToIdentifierStore.put key record store
  | _ => store
  end.

Definition registrations (tr : list Event) : gmap string PeerIdentifier :=
  foldl store_effect ∅ tr.

(** ** The loop that accepts connections *)

(** [LocalListeningSocket::accept]: no socket when [::accept] gave a
    negative descriptor, the socket of the descriptor otherwise. *)
Definition accept (session_fd : Z) : option Z :=
  if session_fd <? 0 then None else Some session_fd.

(** [_handler_pool.emplace_back(std::thread(...))]. *)
Definition emplace_back (s : Session) (m : FakeMediator) : FakeMediator :=
  {| _handler_pool := _handler_pool m ++ [s];
     _key_to_identifier_store := _key_to_identifier_store m;
     barrier := barrier m; _shutdown_cv_notified := _shutdown_cv_notified m;
     _sent_messages := _sent_messages m; _received_messages := _received_messages m |}.

Section Loop.

Variable public_encrypt : string → string → option string.
Variable kVersion : Z.
Variable _quit_after : option MessageType.
(** The connection behind the descriptor of a session socket: the address
    of the peer and what it is going to send. *)
Variable peer : Z → SocketAddress * list WireMessage.

(** One turn of the loop of [_run], taken with [_is_running] set, where
    [::accept] gave [session_fd]. *)
Definition _run_turn (session_fd : Z) (m : FakeMediator) : FakeMediator :=
  match accept session_fd with
  | None => m
  | Some fd => emplace_back (accepted (peer fd).1 (peer fd).2) m
  end.

(** The turns of the loop for the descriptors [::accept] gives one after
    the other. *)
Definition _run (session_fds : list Z) (m : FakeMediator) : FakeMediator :=
  foldl (λ m session_fd, _run_turn session_fd m) m session_fds.

(** The worker thread and the handler threads together: a turn of the loop
    or a step of a handler. *)
Inductive Turn :=
  | TurnOfRun (session_fd : Z)
  | TurnOfHandler (tid : nat).

Fixpoint run_with_accepts (m : FakeMediator) (turns : list Turn)
    : option (FakeMediator * list Event) :=
  match turns with
  | [] => Some (m, [])
  | TurnOfRun session_fd :: rest => run_with_accepts (_run_turn session_fd m) rest
  | TurnOfHandler tid :: rest =>
      '(m1, events1) ← step public_encrypt kVersion _quit_after m tid;
      '(m2, events2) ← run_with_accepts m1 rest;
      Some (m2, events1 ++ events2)
  end.

(** The descriptors that [::accept] gave to the turns of the loop, and the
    threads of the turns of the handlers. *)
Definition loop_turns (turns : list Turn) : list Z :=
  omap (λ t, match t with TurnOfRun session_fd => Some session_fd | TurnOfHandler _ => None end)
    turns.

Definition handler_schedule (turns : list Turn) : list nat :=
  omap (λ t, match t with TurnOfHandler tid => Some tid | TurnOfRun _ => None end)
    turns.

End Loop.

(** ** The listening socket

    [LocalListeningSocket] (socket/local_listening_socket.cpp).  The class
    talks to the system: the embedding keeps the list of the calls made so
    far, each with the value it returned, and the system is a function
    that gives the value of a call after the calls made before it. *)

Module LocalListeningSocket.

Inductive Syscall :=
  | sys_socket
  | sys_bind (sockfd : Z) (s_addr : Z) (sin_port : Z)
  | sys_getsockname (sockfd : Z)
  | sys_listen (sockfd : Z) (backlog : Z)
  | sys_accept (sockfd : Z)
  | sys_close (sockfd : Z).

(** What a function that can throw gives: a value, or the message of the
    [std::runtime_error]. *)
Inductive Result (A : Type) :=
  | Value (a : A)
  | Exception (what : string).

Arguments Value {A} a.
Arguments Exception {A} what.

Record Members := { _sockfd : Z; _port : Z }.

Definition INADDR_ANY : Z := 0.

(** The descriptors that are open after a list of calls: those that
    [socket] and [accept] gave and [close] has not been called on. *)
Definition descriptor_effect (fds : gset Z) (c : Syscall * Z) : gset Z :=
  match c with
  | (sys_socket, fd) | (sys_accept _, fd) => if fd <? 0 then fds else {[fd]} ∪ fds
  | (sys_close fd, _) => fds ∖ {[fd]}
  | _ => fds
  end.

Definition open_descriptors (calls : list (Syscall * Z)) : gset Z :=
  foldl descriptor_effect ∅ calls.

Section System.

(** [local_ip] is declared in the header of the class, [inet_addr], [htons]
    and [ntohs] in the system's. *)
Variable local_ip : string.
Variable inet_addr : string → Z.
Variable htons : Z → Z.
Variable ntohs : Z → Z.
(** The value a call returns after the calls made so far. *)
Variable kernel : list (Syscall * Z) → Syscall → Z.
(** The port field of the address that [getsockname] leaves for a
    descriptor after the calls made so far (the zero of [bzero] where the
    call writes nothing). *)
Variable sockname : list (Syscall * Z) → Z → Z.

Definition call (c : Syscall) (calls : list (Syscall * Z))
    : Z * list (Syscall * Z) :=
  (kernel calls c, calls ++ [(c, kernel calls c)]).

(** [port] is a [u_int32_t] and [htons] takes sixteen bits. *)
Definition create_socket_fd (requested : Z) (calls : list (Syscall * Z))
    : Result Z * list (Syscall * Z) :=
  let '(sockfd, calls) := call sys_socket calls in
  if sockfd <? 0 then (Exception "Failed to open socket", calls)
  else
    let '(bound, calls) :=
      call (sys_bind sockfd (inet_addr local_ip) (htons (requested mod 65536)))
        calls in
    if bound <? 0 then (Exception "ERROR on binding", calls)
    else (Value sockfd, calls).

Definition port_from_socket (sockfd : Z) (calls : list (Syscall * Z))
    : Z * list (Syscall * Z) :=
  let sin_port := sockname calls sockfd in
  let '(_, calls) := call (sys_getsockname sockfd) calls in
  (ntohs sin_port, calls).

(** The two constructors: [LocalListeningSocket()] for [None] and
    [LocalListeningSocket(uint16_t port)] for [Some port]. *)
Definition LocalListeningSocket (requested : option Z) (calls : list (Syscall * Z))
    : Result Members * list (Syscall * Z) :=
  match requested with
  | None =>
      match create_socket_fd INADDR_ANY calls with
      | (Exception what, calls) => (Exception what, calls)
      | (Value sockfd, calls) =>
          let '(named, calls) := port_from_socket sockfd calls in
          let '(_, calls) := call (sys_listen sockfd 5) calls in
          (Value {| _sockfd := sockfd; _port := named |}, calls)
      end
  | Some requested =>
      match create_socket_fd requested calls with
      | (Exception what, calls) => (Exception what, calls)
      | (Value sockfd, calls) =>
          let '(_, calls) := call (sys_listen sockfd 5) calls in
          (Value {| _sockfd := sockfd; _port := requested |}, calls)
      end
  end.

Definition close (this : Members) (calls : list (Syscall * Z))
    : list (Syscall * Z) :=
  (call (sys_close (_sockfd this)) calls).2.

(** [~LocalListeningSocket()]. *)
Definition destructor (this : Members) (calls : list (Syscall * Z))
    : list (Syscall * Z) :=
  close this calls.

Definition accept (this : Members) (calls : list (Syscall * Z))
    : option Z * list (Syscall * Z) :=
  let '(session_fd, calls) := call (sys_accept (_sockfd this)) calls in
  (accept session_fd, calls).

Definition get_socket_address (this : Members) : SocketAddress :=
  {| ip := local_ip; port := _port this |}.

End System.

End LocalListeningSocket.

(** ** More concrete cases *)

Module Cases.

Import Scenario.

(** A peer whose first message is not an Advertise. *)
Definition out_of_turn : list (SocketAddress * list WireMessage) :=
  [(addressA, [WAdvertiseResponse proof; WAdvertise advA])].

(** A peer that names its own key as the key of its peer. *)
Definition own : Advertise := {| version := 1; our_key := "ka"; their_key := "ka" |}.

Definition alone : list (SocketAddress * list WireMessage) :=
  [(addressA, [WAdvertise own; WAdvertiseResponse proof])].

(** The connections behind the descriptors that [accept] gives: the first
    peer behind 4, the second behind any other. *)
Definition behind (session_fd : Z) : SocketAddress * list WireMessage :=
  if session_fd =? 4
  then (addressA, [WAdvertise advA; WAdvertiseResponse proof])
  else (addressB, [WAdvertise advB; WAdvertiseResponse proof]).

(** The first peer is accepted and served up to its registration, an
    accept fails, the second peer is accepted and served up to its
    PeerDisconnect. *)
Definition accepts_in_between : list Turn :=
  [TurnOfRun 4; TurnOfHandler 0; TurnOfHandler 0; TurnOfHandler 0;
   TurnOfHandler 0; TurnOfHandler 0; TurnOfRun (-1); TurnOfRun 5;
   TurnOfHandler 1; TurnOfHandler 1; TurnOfHandler 1; TurnOfHandler 1;
   TurnOfHandler 1; TurnOfHandler 1]%nat.

(** The first peer registers, the second registers, the first awaits and
    goes to sleep on the barrier. *)
Definition first_asleep : list nat :=
  [0; 0; 0; 0; 0; 1; 1; 1; 1; 1; 0; 0]%nat.

(** A system that gives the descriptor 3 to every call. *)
Definition always_3 (calls : list (LocalListeningSocket.Syscall * Z))
    (c : LocalListeningSocket.Syscall) : Z := 3.

End Cases.
(** ** Positions in a record and among a thread's own events *)

Lemma mine_app tid t1 t2 : mine tid (t1 ++ t2) = mine tid t1 ++ mine tid t2.
Proof. apply filter_app. Qed.

Lemma rank_mono tid tr i j : (i ≤ j)%nat → (rank tid tr i ≤ rank tid tr j)%nat.
Proof.
  unfold rank, mine. revert i j.
  induction tr as [|x tr IH]; intros [|i] [|j] Hij; simpl; try lia.
  rewrite !filter_cons. specialize (IH i j). case_decide; simpl; lia.
Qed.

Lemma rank_lt tid tr i j : (rank tid tr i < rank tid tr j)%nat → (i < j)%nat.
Proof.
  intros Hlt. destruct (decide (i < j)%nat) as [|Hge]; [done|].
  pose proof (rank_mono tid tr j i). lia.
Qed.

Lemma mine_lookup tid tr n e :
  tr !! n = Some e → event_thread e = tid → mine tid tr !! rank tid tr n = Some e.
Proof.
  intros Hn He. unfold rank.
  assert (mine tid tr = mine tid (take n tr) ++ e :: mine tid (drop (S n) tr)) as ->.
  { transitivity (mine tid (take n tr ++ e :: drop (S n) tr)).
    - by rewrite take_drop_middle.
    - rewrite mine_app. unfold mine. by rewrite filter_cons_True. }
  by apply list_lookup_middle.
Qed.

Lemma mine_lookup_inv tid tr k e :
  mine tid tr !! k = Some e →
  ∃ n, tr !! n = Some e ∧ rank tid tr n = k ∧ event_thread e = tid.
Proof.
  unfold rank, mine. revert k.
  induction tr as [|x tr IH]; intros k Hk; [done|].
  rewrite filter_cons in Hk. case_decide as Hx.
  - destruct k as [|k]; simpl in Hk.
    + simplify_eq. by exists 0%nat.
    + destruct (IH _ Hk) as (n & Hn & Hr & He). exists (S n). simpl.
      rewrite filter_cons_True by done. simpl. auto.
  - destruct (IH _ Hk) as (n & Hn & Hr & He). exists (S n). simpl.
    rewrite filter_cons_False by done. auto.
Qed.

Lemma rank_lt_strict tid tr i j e :
  tr !! i = Some e → event_thread e = tid → (i < j)%nat →
  (rank tid tr i < rank tid tr j)%nat.
Proof.
  intros Hi He Hij. pose proof (rank_mono tid tr (S i) j Hij) as Hm.
  enough (rank tid tr (S i) = S (rank tid tr i)) by lia.
  unfold rank. rewrite (take_S_r _ _ _ Hi), mine_app, length_app.
  unfold mine at 2. rewrite filter_cons_True by done. simpl. lia.
Qed.

Lemma rank_inj tid tr i j e e' :
  tr !! i = Some e → tr !! j = Some e' →
  event_thread e = tid → event_thread e' = tid →
  rank tid tr i = rank tid tr j → i = j.
Proof.
  intros Hi Hj He He' Hr.
  destruct (Nat.lt_trichotomy i j) as [Hlt|[->|Hlt]]; [|done|].
  - pose proof (rank_lt_strict _ _ _ _ _ Hi He Hlt). lia.
  - pose proof (rank_lt_strict _ _ _ _ _ Hj He' Hlt). lia.
Qed.

(** An event that comes earlier (later) among a thread's own events comes
    earlier (later) in the record. *)
Lemma mine_before tid tr k e n :
  mine tid tr !! k = Some e → (k < rank tid tr n)%nat →
  ∃ i, (i < n)%nat ∧ tr !! i = Some e ∧ rank tid tr i = k.
Proof.
  intros Hk Hlt. destruct (mine_lookup_inv _ _ _ _ Hk) as (i & Hi & Hr & _).
  exists i. split_and!; [|done..]. apply (rank_lt tid tr). lia.
Qed.

Lemma mine_after tid tr k e n :
  mine tid tr !! k = Some e → (rank tid tr n < k)%nat →
  ∃ i, (n < i)%nat ∧ tr !! i = Some e ∧ rank tid tr i = k.
Proof.
  intros Hk Hlt. destruct (mine_lookup_inv _ _ _ _ Hk) as (i & Hi & Hr & _).
  exists i. split_and!; [|done..]. apply (rank_lt tid tr). lia.
Qed.

(** ** Steps and runs *)

Ltac handler_cases H :=
  unfold _handle_connection, QUIT_IF_REQUESTED, notify_and_return, just_return,
    throw, _send_and_log, _wait_for_disconnect in H;
  repeat (case_match; simplify_option_eq); simplify_eq.

Ltac decoded :=
  repeat match goal with
  | H : decode_Advertise ?w = _ |- _ => destruct w; simpl in H; simplify_eq
  | H : decode_AdvertiseResponse ?w = _ |- _ => destruct w; simpl in H; simplify_eq
  end.

(** An event of [tr ++ events] is one of [tr] or one of [events]. *)
Ltac split_lookup H :=
  apply lookup_app_Some in H as [H|[? H]].

(** The events at the positions of a list that is written out. *)
Ltac concrete_lookup H :=
  repeat match type of H with
  | (_ :: _) !! ?k = Some _ => destruct k as [|?]; simpl in H
  | [] !! _ = Some _ => by inversion H
  | Some _ = Some _ => simplify_eq
  | (_ ++ _) !! _ = Some _ => simpl in H
  end.

(** The handler whose events are [t]: inversion of its path, with the
    events written out. *)
Ltac on_path Hp t :=
  destruct Hp;
  unfold quit_events, peer_events, client_events, handshake_events,
    challenge_events, identification, disconnect, challenge, abort in *;
  simpl in *.

Section Properties.

Variable public_encrypt : string → string → option string.
Variable kVersion : Z.
Variable _quit_after : option MessageType.

Local Abbreviation handle := (_handle_connection public_encrypt kVersion _quit_after).
Local Abbreviation step1 := (step public_encrypt kVersion _quit_after).
Local Abbreviation run1 := (run public_encrypt kVersion _quit_after).
Local Abbreviation path1 := (path public_encrypt kVersion _quit_after).

Lemma step_inv m tid m' events :
  step1 m tid = Some (m', events) →
  ∃ s s' mm, (_handler_pool m !! tid = Some s)
    ∧ (tid ∉ _disconnect_cv (barrier m))
    ∧ handle tid s m = Some (s', mm, events)
    ∧ m' = with_handler tid s' mm.
Proof.
  unfold step. intros H.
  destruct (_handler_pool m !! tid) as [s|] eqn:Hs; simpl in H; [|done].
  case_bool_decide; [done|].
  destruct (handle tid s m) as [[[s' mm] ev]|] eqn:Hh; simpl in H; [|done].
  simplify_eq. eauto 10.
Qed.

Lemma step_intro m tid s s' mm events :
  _handler_pool m !! tid = Some s →
  tid ∉ _disconnect_cv (barrier m) →
  handle tid s m = Some (s', mm, events) →
  step1 m tid = Some (with_handler tid s' mm, events).
Proof.
  intros Hs Hcv Hh. unfold step. rewrite Hs. simpl.
  rewrite bool_decide_eq_false_2 by done. by rewrite Hh.
Qed.

(** There is no step for a thread the pool does not have. *)
Lemma step_outside m tid :
  (length (_handler_pool m) ≤ tid)%nat → step1 m tid = None.
Proof. intros H. unfold step. by rewrite lookup_ge_None_2. Qed.

Lemma handle_pool tid s m s' m' events :
  handle tid s m = Some (s', m', events) → _handler_pool m' = _handler_pool m.
Proof. intros H. handler_cases H; done. Qed.

Lemma handle_events tid s m s' m' events :
  handle tid s m = Some (s', m', events) → mine tid events = events.
Proof.
  intros H. handler_cases H; unfold mine;
    by repeat rewrite filter_cons_True by done.
Qed.

Lemma handle_events_other tid tid' s m s' m' events :
  tid ≠ tid' → handle tid s m = Some (s', m', events) → mine tid' events = [].
Proof.
  intros Hne H. handler_cases H; unfold mine;
    by repeat rewrite filter_cons_False by (simpl; congruence).
Qed.

Lemma run_snoc m schedule tid :
  run1 m (schedule ++ [tid]) =
    '(m1, events1) ← run1 m schedule;
    '(m2, events2) ← step1 m1 tid;
    Some (m2, events1 ++ events2).
Proof.
  revert m. induction schedule as [|t schedule IH]; intros m; simpl.
  - destruct (step1 m tid) as [[m2 e2]|]; simpl; [|done]. by rewrite app_nil_r.
  - destruct (step1 m t) as [[m1 e1]|]; simpl; [|done].
    rewrite IH. destruct (run1 m1 schedule) as [[m2 e2]|]; simpl; [|done].
    destruct (step1 m2 tid) as [[m3 e3]|]; simpl; [|done].
    by rewrite app_assoc.
Qed.

Lemma run_app m schedule1 schedule2 :
  run1 m (schedule1 ++ schedule2) =
    '(m1, events1) ← run1 m schedule1;
    '(m2, events2) ← run1 m1 schedule2;
    Some (m2, events1 ++ events2).
Proof.
  revert m. induction schedule1 as [|t schedule1 IH]; intros m; simpl.
  - by destruct (run1 m schedule2) as [[m2 e2]|].
  - destruct (step1 m t) as [[m1 e1]|]; simpl; [|done].
    rewrite IH. destruct (run1 m1 schedule1) as [[m2 e2]|]; simpl; [|done].
    destruct (run1 m2 schedule2) as [[m3 e3]|]; simpl; [|done].
    by rewrite app_assoc.
Qed.

(** Induction on a run, one step at a time from its start. *)
Lemma run_ind (P : FakeMediator → list Event → Prop) m0 :
  P m0 [] →
  (∀ m tr tid m' events,
     P m tr → step1 m tid = Some (m', events) → P m' (tr ++ events)) →
  ∀ schedule m tr, run1 m0 schedule = Some (m, tr) → P m tr.
Proof.
  intros H0 Hstep schedule.
  induction schedule as [|tid schedule IH] using rev_ind; intros m tr Hrun.
  - simpl in Hrun. by simplify_eq.
  - rewrite run_snoc in Hrun.
    destruct (run1 m0 schedule) as [[m1 e1]|]; simpl in Hrun; [|done].
    destruct (step1 m1 tid) as [[m2 e2]|] eqn:Hs; simpl in Hrun; [|done].
    simplify_eq. eapply Hstep; eauto.
Qed.

(** The step that left an event in the record of a run, with the state
    before it and the state after it. *)
Lemma run_event_step m0 schedule m tr n e :
  run1 m0 schedule = Some (m, tr) →
  tr !! n = Some e →
  ∃ schedule1 schedule2 m1 tr1 m2 events,
    schedule = schedule1 ++ event_thread e :: schedule2
    ∧ run1 m0 schedule1 = Some (m1, tr1)
    ∧ step1 m1 (event_thread e) = Some (m2, events)
    ∧ run1 m0 (schedule1 ++ [event_thread e]) = Some (m2, tr1 ++ events)
    ∧ (length tr1 ≤ n)%nat
    ∧ events !! (n - length tr1)%nat = Some e
    ∧ tr1 ++ events = take (length tr1 + length events) tr.
Proof.
  revert m tr n e.
  induction schedule as [|tid schedule IH] using rev_ind; intros m tr n e Hrun Hn.
  { simpl in Hrun. by simplify_eq. }
  pose proof Hrun as Hrun'. rewrite run_snoc in Hrun'.
  destruct (run1 m0 schedule) as [[m1 tr1]|] eqn:Hrun1; simpl in Hrun'; [|done].
  destruct (step1 m1 tid) as [[m2 events]|] eqn:Hs; simpl in Hrun'; [|done].
  simplify_eq.
  destruct (decide (n < length tr1)%nat) as [Hlt|Hge].
  - rewrite lookup_app_l in Hn by done.
    destruct (IH _ _ _ _ eq_refl Hn)
      as (s1 & s2 & ma & tra & mb & ev & -> & Hra & Hsa & Hrb & Hle & Hev & Htake).
    exists s1, (s2 ++ [tid]), ma, tra, mb, ev.
    split_and!; try done.
    + by rewrite <- app_assoc.
    + rewrite take_app_le; [done|].
      rewrite <- (length_app tra ev), Htake, length_take. lia.
  - rewrite lookup_app_r in Hn by lia.
    assert (event_thread e = tid) as He.
    { apply step_inv in Hs as (s & s' & mm & _ & _ & Hh & _).
      pose proof (handle_events _ _ _ _ _ _ Hh) as Hmine.
      apply list_elem_of_lookup_2 in Hn. rewrite <- Hmine in Hn.
      by apply list_elem_of_filter in Hn as [? _]. }
    exists schedule, [], m1, tr1, m, events. rewrite He.
    split_and!; try done; [lia|].
    by rewrite <- length_app, firstn_all.
Qed.

(** A property of one session and of its own events holds throughout a run
    when the handler's steps keep it: the other threads touch neither. *)
Lemma thread_local (P : Session → list Event → Prop) tid m0 :
  (∀ s, _handler_pool m0 !! tid = Some s → P s []) →
  (∀ s m s' m' events t,
     P s t → handle tid s m = Some (s', m', events) → P s' (t ++ events)) →
  ∀ schedule m tr s,
    run1 m0 schedule = Some (m, tr) → _handler_pool m !! tid = Some s →
    P s (mine tid tr).
Proof.
  intros H0 Hstep schedule m tr s Hrun. revert s.
  refine (run_ind (λ m tr, ∀ s, _handler_pool m !! tid = Some s → P s (mine tid tr))
            m0 _ _ schedule m tr Hrun); [by auto|].
  clear -Hstep. intros m tr tid' m' events IH Hs s Hlook.
  apply step_inv in Hs as (s0 & s0' & mm & Hs0 & _ & Hh & ->).
  simpl in Hlook. rewrite (handle_pool _ _ _ _ _ _ Hh) in Hlook.
  unfold mine. rewrite filter_app. fold (mine tid tr) (mine tid events).
  destruct (decide (tid' = tid)) as [->|Hne].
  - rewrite list_lookup_insert_eq in Hlook by (by eapply lookup_lt_Some).
    simplify_eq. rewrite (handle_events _ _ _ _ _ _ Hh). eauto.
  - rewrite list_lookup_insert_ne in Hlook by done.
    rewrite (handle_events_other _ _ _ _ _ _ _ Hne Hh), app_nil_r. eauto.
Qed.

(** The pool keeps its threads, and only they leave events. *)
Lemma run_threads m0 schedule m tr :
  run1 m0 schedule = Some (m, tr) →
  length (_handler_pool m) = length (_handler_pool m0)
  ∧ ∀ n e, tr !! n = Some e → (event_thread e < length (_handler_pool m0))%nat.
Proof.
  refine (run_ind (λ m tr, _ ∧ _) m0 _ _ schedule m tr); [done|].
  clear. intros m tr tid m' events [IHl IHe] Hs.
  apply step_inv in Hs as (s & s' & mm & Hs & _ & Hh & ->).
  simpl. rewrite length_insert, (handle_pool _ _ _ _ _ _ Hh). split; [done|].
  intros n e Hn. split_lookup Hn; [by eauto|].
  apply lookup_lt_Some in Hs. rewrite <- IHl.
  pose proof (handle_events _ _ _ _ _ _ Hh) as Hmine.
  apply list_elem_of_lookup_2 in Hn. rewrite <- Hmine in Hn.
  apply list_elem_of_filter in Hn as [-> _]. done.
Qed.

(** ** Every handler follows a path *)

Lemma path_step tid address incoming s t m s' m' events :
  path1 tid address incoming s t →
  handle tid s m = Some (s', m', events) →
  path1 tid address incoming s' (t ++ events).
Proof.
  intros Hp Hh.
  destruct Hp; unfold responded, challenged in *; destruct_and?;
    handler_cases Hh; decoded;
    simpl; rewrite <- ?app_assoc, ?app_nil_r; simpl;
    by (econstructor; unfold responded, challenged; eauto).
Qed.

Lemma run_path connections schedule m tr tid address incoming :
  run1 (started connections) schedule = Some (m, tr) →
  connections !! tid = Some (address, incoming) →
  ∃ s, (_handler_pool m !! tid = Some s)
    ∧ path1 tid address incoming s (mine tid tr).
Proof.
  intros Hrun Hc.
  destruct (run_threads _ _ _ _ Hrun) as [Hlen _].
  destruct (lookup_lt_is_Some_2 (_handler_pool m) tid) as [s Hs].
  { rewrite Hlen. simpl. rewrite length_fmap. by eapply lookup_lt_Some. }
  exists s. split; [done|].
  eapply (thread_local (path1 tid address incoming)); [| |done..].
  - intros s0. simpl. rewrite list_lookup_fmap, Hc. simpl. intros [= <-]. constructor.
  - intros. by eapply path_step.
Qed.

(** The thread of an event, the path it is on, and the place of the event
    among its own. *)
Lemma event_path connections schedule m tr n e :
  run1 (started connections) schedule = Some (m, tr) →
  tr !! n = Some e →
  ∃ address incoming s,
    (connections !! event_thread e = Some (address, incoming))
    ∧ (_handler_pool m !! event_thread e = Some s)
    ∧ path1 (event_thread e) address incoming s (mine (event_thread e) tr)
    ∧ mine (event_thread e) tr !! rank (event_thread e) tr n = Some e.
Proof.
  intros Hrun Hn.
  destruct (run_threads _ _ _ _ Hrun) as [_ He]. specialize (He _ _ Hn).
  simpl in He. rewrite length_fmap in He.
  destruct (lookup_lt_is_Some_2 _ _ He) as [[address incoming] Hc].
  destruct (run_path _ _ _ _ _ _ _ Hrun Hc) as (s & Hs & Hp).
  exists address, incoming, s. split_and!; try done. by apply mine_lookup.
Qed.

(** ** The nonce of the challenge *)

Lemma handle_encrypts tid s m s' m' events :
  handle tid s m = Some (s', m', events) →
  (∀ k t key plaintext, events !! k = Some (EvEncrypt t key plaintext) →
     plaintext = "1337")
  ∧ (∀ k t c, events !! k = Some (EvSend t (WAdvertiseChallenge c)) →
       ∃ key, (events !! 0%nat = Some (EvEncrypt t key "1337")) ∧ (0 < k)%nat
         ∧ public_encrypt key "1337" = Some (encrypted_nonce c)).
Proof.
  intros H. handler_cases H; (split; [intros k t key pt Hk|intros k t c Hk]);
    concrete_lookup Hk; eauto with lia.
Qed.

(** C9: in every run, from any state of the mediator, the plaintext handed
    to [public_encrypt] is the string "1337", the decimal form of the
    constant [nonce]; and every AdvertiseChallenge that is sent carries the
    encryption of that string, computed just before. *)
Theorem challenge_nonce_is_the_constant_1337 m0 schedule m tr :
  run1 m0 schedule = Some (m, tr) →
  to_string nonce = "1337"
  ∧ (∀ n tid key plaintext,
       tr !! n = Some (EvEncrypt tid key plaintext) → plaintext = "1337")
  ∧ (∀ n tid c,
       tr !! n = Some (EvSend tid (WAdvertiseChallenge c)) →
       ∃ k key, (k < n)%nat ∧ tr !! k = Some (EvEncrypt tid key "1337")
         ∧ public_encrypt key "1337" = Some (encrypted_nonce c)).
Proof.
  intros Hrun. split; [done|].
  refine (run_ind (λ m tr, _ ∧ _) m0 _ _ schedule m tr Hrun); clear.
  - split; intros; by simplify_list_eq.
  - intros m tr tid m' events [IH1 IH2] Hs.
    apply step_inv in Hs as (s & s' & mm & _ & _ & Hh & _).
    apply handle_encrypts in Hh as [H1 H2].
    split.
    + intros n t key pt Hn. split_lookup Hn; eauto.
    + intros n t c Hn. split_lookup Hn.
      * destruct (IH2 _ _ _ Hn) as (k & key & ? & Hk & ?).
        exists k, key. split_and!; [done| |done]. by apply lookup_app_l_Some.
      * destruct (H2 _ _ _ Hn) as (key & Hk & ? & ?).
        exists (length tr + 0)%nat, key. split_and!; [lia| |done].
        by rewrite lookup_app_r, Nat.add_0_r, Nat.sub_diag by lia.
Qed.

(** ** The disconnect barrier *)

Lemma handle_barrier tid s m s' m' events :
  handle tid s m = Some (s', m', events) →
  _completed_disconnects (barrier m') =
    foldl barrier_effect (_completed_disconnects (barrier m)) events
  ∧ ∀ k t a, events !! k = Some (EvWaitReturned t a) →
      k = 0%nat ∧ a ∈ _completed_disconnects (barrier m).
Proof.
  intros H. handler_cases H; (split; [done|intros k t a' Hk]);
    concrete_lookup Hk; done.
Qed.

Lemma replay_app tr events : replay (tr ++ events) = foldl barrier_effect (replay tr) events.
Proof. apply foldl_app. Qed.

(** The set of completed disconnects is what the recorded operations make
    of the empty set, and a wait returns on an address that is in it. *)
Lemma run_replay connections schedule m tr :
  run1 (started connections) schedule = Some (m, tr) →
  _completed_disconnects (barrier m) = replay tr
  ∧ ∀ n t a, tr !! n = Some (EvWaitReturned t a) → a ∈ replay (take n tr).
Proof.
  refine (run_ind (λ m tr, _ ∧ _) _ _ _ schedule m tr); [done|].
  clear. intros m tr tid m' events [IHc IHw] Hs.
  apply step_inv in Hs as (s & s' & mm & _ & _ & Hh & ->).
  apply handle_barrier in Hh as [Hc Hw]. simpl. split.
  - by rewrite Hc, IHc, replay_app.
  - intros n t a Hn. pose proof Hn as Hn'. split_lookup Hn.
    + rewrite take_app_le by (apply Nat.lt_le_incl; by eapply lookup_lt_Some). eauto.
    + destruct (Hw _ _ _ Hn) as [Hk Ha].
      assert (n = length tr) as -> by lia.
      by rewrite take_app_length, <- IHc.
Qed.

(** An address is in the replayed set exactly when its last barrier
    operation is a [mark_complete]. *)
Lemma replay_elem a tr :
  a ∈ replay tr ↔
  ∃ k j, tr !! k = Some (EvMarkComplete j a)
    ∧ ∀ l t, (k < l)%nat → tr !! l ≠ Some (EvWaitReturned t a).
Proof.
  induction tr as [|e tr IH] using rev_ind.
  - split; [set_solver|]. by intros (k & j & ? & _).
  - rewrite replay_app. simpl.
    assert (∀ l e', (tr ++ [e]) !! l = Some e' →
              (tr !! l = Some e' ∧ (l < length tr)%nat) ∨ (l = length tr ∧ e' = e))
      as Hsnoc.
    { intros l e' Hl. split_lookup Hl.
      - left. split; [done|]. by eapply lookup_lt_Some.
      - destruct (l - length tr)%nat eqn:?; simpl in Hl; [|done].
        right. split; [lia|congruence]. }
    split.
    + intros Ha.
      assert ((∃ j, e = EvMarkComplete j a)
              ∨ (a ∈ replay tr ∧ ∀ t, e ≠ EvWaitReturned t a)) as [[j ->]|[Hin Hne]].
      { destruct e; simpl in Ha; try (right; split; [done|congruence]).
        - right. split; [set_solver|]. intros t [= ->]. set_solver.
        - destruct (decide (address = a)) as [->|]; [by eauto|].
          right. split; [set_solver|done]. }
      * exists (length tr), j. split; [by apply list_lookup_middle|].
        intros l t Hl Hl'. apply lookup_lt_Some in Hl'.
        rewrite length_app in Hl'. simpl in Hl'. lia.
      * apply IH in Hin as (k & j & Hk & Hlast). exists k, j.
        split; [by apply lookup_app_l_Some|].
        intros l t Hl Hl'. apply Hsnoc in Hl' as [[Hl' _]|[_ He]].
        -- by eapply Hlast.
        -- by eapply Hne.
    + intros (k & j & Hk & Hlast). apply Hsnoc in Hk as [[Hk Hlt]|[-> <-]].
      * assert (a ∈ replay tr) as Hin.
        { apply IH. exists k, j. split; [done|]. intros l t Hl Hl'.
          eapply (Hlast l t Hl). by apply lookup_app_l_Some. }
        destruct e; simpl; try done; [|set_solver].
        assert (address ≠ a); [|set_solver].
        intros ->. eapply (Hlast (length tr) tid); [done|].
        by apply list_lookup_middle.
      * simpl. set_solver.
Qed.

(** C6: in a run of the mediator, a return of [_wait_for_disconnect] for an
    address comes after a [mark_complete] of that same address which no
    earlier return has consumed; and when no [mark_complete] of the address
    follows the return, the address is out of the completed set, so that
    whoever waits for it next goes to sleep instead of returning. *)
Theorem wait_for_consumes_the_completion_it_observed
    connections schedule m tr n tid a :
  run1 (started connections) schedule = Some (m, tr) →
  tr !! n = Some (EvWaitReturned tid a) →
  (∃ k j, (k < n)%nat ∧ tr !! k = Some (EvMarkComplete j a)
     ∧ ∀ l t, (k < l < n)%nat → tr !! l ≠ Some (EvWaitReturned t a))
  ∧ ((∀ l j, (n < l)%nat → tr !! l ≠ Some (EvMarkComplete j a)) →
       (a ∉ _completed_disconnects (barrier m))
       ∧ ∀ t, (_wait_for_disconnect t a (barrier m)).1 = false).
Proof.
  intros Hrun Hn. destruct (run_replay _ _ _ _ Hrun) as [Hc Hw].
  split.
  - apply Hw, replay_elem in Hn as (k & j & Hk & Hlast).
    pose proof (lookup_lt_Some _ _ _ Hk) as Hlt.
    rewrite length_take in Hlt.
    exists k, j. split_and!; [lia|by rewrite lookup_take_lt in Hk by lia|].
    intros l t [Hl1 Hl2] Hl. eapply (Hlast l t Hl1).
    by rewrite lookup_take_lt by lia.
  - intros Hnone.
    assert (a ∉ _completed_disconnects (barrier m)) as Hout.
    { rewrite Hc. intros (k & j & Hk & Hlast)%replay_elem.
      destruct (decide (n < k)%nat); [by eapply Hnone|].
      destruct (decide (k = n)) as [->|]; [congruence|].
      eapply (Hlast n tid); [lia|done]. }
    split; [done|]. intros t. unfold _wait_for_disconnect.
    by rewrite bool_decide_eq_false_2.
Qed.

(** The threads asleep on the condition variable are inside
    [_wait_for_disconnect]. *)
Lemma handle_cv tid s m s' m' events :
  handle tid s m = Some (s', m', events) →
  _disconnect_cv (barrier m') = _disconnect_cv (barrier m)
  ∨ (_disconnect_cv (barrier m') = {[tid]} ∪ _disconnect_cv (barrier m)
     ∧ location s' = AtWaitForDisconnect)
  ∨ _disconnect_cv (barrier m') = ∅.
Proof. intros H. handler_cases H; simpl; auto. Qed.

Lemma run_asleep connections schedule m tr tid :
  run1 (started connections) schedule = Some (m, tr) →
  tid ∈ _disconnect_cv (barrier m) →
  ∃ s, _handler_pool m !! tid = Some s ∧ location s = AtWaitForDisconnect.
Proof.
  intros Hrun. revert tid.
  refine (run_ind (λ m tr, ∀ tid, tid ∈ _disconnect_cv (barrier m) → _)
            _ _ _ schedule m tr Hrun); [set_solver|].
  clear. intros m tr t0 m' events IH Hs tid Hin.
  apply step_inv in Hs as (s & s' & mm & Hs & Hcv & Hh & ->).
  simpl in *. rewrite (handle_pool _ _ _ _ _ _ Hh).
  apply lookup_lt_Some in Hs.
  destruct (handle_cv _ _ _ _ _ _ Hh) as [Heq|[[Heq Hloc]|Heq]];
    rewrite Heq in Hin; [| |set_solver].
  - destruct (decide (tid = t0)) as [->|]; [done|].
    rewrite list_lookup_insert_ne by done. auto.
  - destruct (decide (tid = t0)) as [->|].
    + rewrite list_lookup_insert_eq by done. eauto.
    + rewrite list_lookup_insert_ne by done. apply IH. set_solver.
Qed.

(** C7: [_add_to_disconnects] twice for an address is [_add_to_disconnects]
    once; it leaves the address in the completed set and nobody asleep on
    the condition variable; and in a run of the mediator the handler that
    stands at its insertion, or at its notification, can always take that
    step, with this effect on the barrier. *)
Theorem mark_complete_is_idempotent_and_wakes_all
    connections schedule m tr tid s :
  run1 (started connections) schedule = Some (m, tr) →
  _handler_pool m !! tid = Some s →
  let a := session_address s in
  (∀ b, _add_to_disconnects a (_add_to_disconnects a b) = _add_to_disconnects a b
        ∧ a ∈ _completed_disconnects (_add_to_disconnects a b)
        ∧ _disconnect_cv (_add_to_disconnects a b) = ∅)
  ∧ (location s = AtInsertDisconnect →
       ∃ m1 m2 events,
         step1 m tid = Some (m1, [EvMarkComplete tid a])
         ∧ barrier m1 = insert_completed a (barrier m)
         ∧ step1 m1 tid = Some (m2, events)
         ∧ barrier m2 = _add_to_disconnects a (barrier m))
  ∧ (location s = AtNotifyDisconnect →
       ∃ m2 events,
         step1 m tid = Some (m2, events)
         ∧ barrier m2 = notify_all (barrier m)).
Proof.
  intros Hrun Hs a.
  assert (location s ≠ AtWaitForDisconnect → tid ∉ _disconnect_cv (barrier m)) as Hcv.
  { intros Hne Hin. destruct (run_asleep _ _ _ _ _ Hrun Hin) as (s1 & Hs1 & Hl).
    congruence. }
  split_and!.
  - intros b. unfold _add_to_disconnects, notify_all, insert_completed. simpl.
    split_and!; [|set_solver|done].
    f_equal. set_solver.
  - intros Hloc. rewrite Hloc in Hcv.
    eexists _, _, _. split_and!.
    + eapply step_intro; [done|by apply Hcv|].
      unfold _handle_connection. rewrite Hloc. done.
    + done.
    + eapply step_intro; simpl.
      * apply list_lookup_insert_eq. by eapply lookup_lt_Some.
      * by apply Hcv.
      * done.
    + done.
  - intros Hloc. rewrite Hloc in Hcv.
    eexists _, _. split.
    + eapply step_intro; [done|by apply Hcv|].
      unfold _handle_connection. rewrite Hloc. done.
    + done.
Qed.
(** ** The store of identifiers *)

Lemma handle_store tid s m s' m' events :
  handle tid s m = Some (s', m', events) →
  ((∃ key r, events = [EvPut tid key r]
      ∧ _key_to_identifier_store m' = <[key := r]> (_key_to_identifier_store m))
   ∨ (_key_to_identifier_store m' = _key_to_identifier_store m
      ∧ ∀ k t key r, events !! k ≠ Some (EvPut t key r)))
  ∧ (∀ k t key found, events !! k = Some (EvGet t key found) →
       events = [EvGet t key found] ∧ found = _key_to_identifier_store m !! key).
Proof.
  intros H. handler_cases H; (split; [|intros k t key found Hk; concrete_lookup Hk; done]);
    try (right; split; [done|]; intros k t key r Hk; concrete_lookup Hk; done);
    left; eauto.
Qed.

(** The store holds the keys that were put, and a lookup finds a key when
    it was put before. *)
Lemma run_store connections schedule m tr :
  run1 (started connections) schedule = Some (m, tr) →
  (∀ key, is_Some (_key_to_identifier_store m !! key) ↔
          ∃ k t r, tr !! k = Some (EvPut t key r))
  ∧ (∀ n t key found, tr !! n = Some (EvGet t key found) →
       (is_Some found ↔ ∃ k t' r, (k < n)%nat ∧ tr !! k = Some (EvPut t' key r))).
Proof.
  refine (run_ind (λ m tr, _ ∧ _) _ _ _ schedule m tr).
  { split; [|done]. intros key. simpl. rewrite lookup_empty. split.
    - by intros [? ?].
    - by intros (k & t & r & ?). }
  clear. intros m tr tid m' events [IHs IHg] Hs.
  apply step_inv in Hs as (s & s' & mm & _ & _ & Hh & ->).
  apply handle_store in Hh as (Hput & Hget). simpl. split.
  - intros key. destruct Hput as [(key0 & r0 & -> & ->)|[-> Hno]].
    + rewrite lookup_insert. case_decide as Hkey.
      * subst. split; [|by eauto]. intros _.
        exists (length tr), tid, r0. by apply list_lookup_middle.
      * rewrite IHs. split; intros (k & t & r & Hk).
        -- exists k, t, r. by apply lookup_app_l_Some.
        -- split_lookup Hk; [by eauto|]. by concrete_lookup Hk.
    + rewrite IHs. split; intros (k & t & r & Hk).
      * exists k, t, r. by apply lookup_app_l_Some.
      * split_lookup Hk; [by eauto|]. by apply Hno in Hk.
  - intros n t key found Hn. split_lookup Hn.
    + rewrite (IHg _ _ _ _ Hn). pose proof (lookup_lt_Some _ _ _ Hn).
      split; intros (k & t' & r & Hk & Hk').
      * exists k, t', r. split; [done|]. by apply lookup_app_l_Some.
      * exists k, t', r. split; [done|]. by rewrite lookup_app_l in Hk' by lia.
    + destruct (Hget _ _ _ _ Hn) as [-> ->].
      assert (n = length tr) as ->.
      { apply lookup_lt_Some in Hn. simpl in Hn. lia. }
      rewrite IHs. split; intros (k & t' & r & Hk).
      * exists k, t', r. split; [by eapply lookup_lt_Some|].
        by apply lookup_app_l_Some.
      * destruct Hk as [Hlt Hk]. rewrite lookup_app_l in Hk by done. eauto.
Qed.

(** A record that is in the store, or that an [await] gave, was put. *)
Lemma handle_await tid s m s' m' events k t key timeout found :
  handle tid s m = Some (s', m', events) →
  events !! k = Some (EvAwait t key timeout found) →
  found = _key_to_identifier_store m !! key.
Proof. intros H Hk. handler_cases H; concrete_lookup Hk; done. Qed.

Lemma run_store_value connections schedule m tr :
  run1 (started connections) schedule = Some (m, tr) →
  (∀ key r, _key_to_identifier_store m !! key = Some r →
     ∃ k t, tr !! k = Some (EvPut t key r))
  ∧ (∀ n t key timeout p,
       tr !! n = Some (EvAwait t key timeout (Some p)) →
       ∃ k t', (k < n)%nat ∧ tr !! k = Some (EvPut t' key p)).
Proof.
  refine (run_ind (λ m tr, _ ∧ _) _ _ _ schedule m tr); [done|].
  clear. intros m tr tid m' events [IHs IHa] Hs.
  apply step_inv in Hs as (s & s' & mm & _ & _ & Hh & ->).
  pose proof (handle_store _ _ _ _ _ _ Hh) as [Hput _]. simpl. split.
  - intros key r Hkey. destruct Hput as [(key0 & r0 & -> & Hst)|[Hst _]];
      rewrite Hst in Hkey.
    + rewrite lookup_insert in Hkey. case_decide; simplify_eq.
      * exists (length tr), tid. by apply list_lookup_middle.
      * destruct (IHs _ _ Hkey) as (k & t & Hk). exists k, t.
        by apply lookup_app_l_Some.
    + destruct (IHs _ _ Hkey) as (k & t & Hk). exists k, t.
      by apply lookup_app_l_Some.
  - intros n t key timeout p Hn. split_lookup Hn.
    + destruct (IHa _ _ _ _ _ Hn) as (k & t' & Hlt & Hk). exists k, t'.
      split; [done|]. by apply lookup_app_l_Some.
    + apply (handle_await _ _ _ _ _ _ _ _ _ _ _ Hh) in Hn.
      destruct (IHs _ _ (eq_sym Hn)) as (k & t' & Hk). exists k, t'.
      split; [|by apply lookup_app_l_Some].
      apply lookup_lt_Some in Hk. lia.
Qed.

Lemma get_path tid address incoming s t k key found :
  path1 tid address incoming s t →
  t !! k = Some (EvGet tid key found) →
  k = 4%nat ∧ ∃ a rest, incoming = WAdvertise a :: rest ∧ key = their_key a.
Proof.
  intros Hp Hk.
  on_path Hp t; unfold responded, challenged in *; destruct_and?;
    concrete_lookup Hk; eauto.
Qed.

Lemma put_path tid address incoming s t k key r :
  path1 tid address incoming s t →
  t !! k = Some (EvPut tid key r) →
  k = 5%nat ∧ ∃ a rest, incoming = WAdvertise a :: rest ∧ key = our_key a.
Proof.
  intros Hp Hk.
  on_path Hp t; unfold responded, challenged in *; destruct_and?;
    concrete_lookup Hk; eauto.
Qed.

Lemma put_path_record tid address incoming s t k key r :
  path1 tid address incoming s t →
  t !! k = Some (EvPut tid key r) →
  ∃ a rest, incoming = WAdvertise a :: rest ∧ key = our_key a
    ∧ r = {| socket_address := address; identifier_version := version a |}.
Proof.
  intros Hp Hk.
  on_path Hp t; unfold responded, challenged, registration in *; destruct_and?;
    concrete_lookup Hk; eauto.
Qed.

(** ** The responder's path *)

Lemma responder_path tid address incoming s t kg key found kr :
  path1 tid address incoming s t →
  t !! kg = Some (EvGet tid key (Some found)) →
  t !! kr = Some (EvReturn tid) →
  kg = 4%nat ∧ kr = 10%nat
  ∧ t !! 6%nat = Some (EvSend tid (WPeerDisconnect {| disconnect_port := port address |}))
  ∧ t !! 7%nat = Some (EvMarkComplete tid address)
  ∧ t !! 8%nat = Some (EvNotifyDisconnect tid).
Proof.
  intros Hp Hg Hr. on_path Hp t; concrete_lookup Hg; concrete_lookup Hr; done.
Qed.

(** What the two steps of [_add_to_disconnects] do to the barrier. *)
Lemma handle_signal tid s m s' m' events k :
  handle tid s m = Some (s', m', events) →
  (∀ t a, events !! k = Some (EvMarkComplete t a) →
     events = [EvMarkComplete t a]
     ∧ _completed_disconnects (barrier m')
       = {[a]} ∪ _completed_disconnects (barrier m))
  ∧ (∀ t, events !! k = Some (EvNotifyDisconnect t) →
       _disconnect_cv (barrier m') = ∅).
Proof.
  intros H.
  split; [intros t a Hk|intros t Hk]; handler_cases H; concrete_lookup Hk; done.
Qed.

(** C10: in a run of the mediator, whatever message type [quit_after] was
    given (PeerDisconnect included), a handler that found its peer in the
    store, the Responder, returns only after it has sent PeerDisconnect,
    then inserted its own address into the completed set, then notified
    the condition variable, in this order, and the barrier has been
    signalled by then: in the state of the run right after the insertion
    the address of the Responder is in [_completed_disconnects], and in
    the state right after the step of the notification no thread is left
    asleep on [_disconnect_cv]. *)
Theorem responder_marks_complete_before_it_returns
    connections schedule m tr tid g key found n :
  run1 (started connections) schedule = Some (m, tr) →
  tr !! g = Some (EvGet tid key (Some found)) →
  tr !! n = Some (EvReturn tid) →
  ∃ address incoming i j l,
    (connections !! tid = Some (address, incoming))
    ∧ (g < i < j)%nat ∧ (j < l < n)%nat
    ∧ tr !! i = Some (EvSend tid (WPeerDisconnect {| disconnect_port := port address |}))
    ∧ tr !! j = Some (EvMarkComplete tid address)
    ∧ tr !! l = Some (EvNotifyDisconnect tid)
    ∧ (∃ inserted m1,
         inserted `prefix_of` schedule
         ∧ run1 (started connections) inserted = Some (m1, take (S j) tr)
         ∧ address ∈ _completed_disconnects (barrier m1))
    ∧ (∃ notified m2 q,
         notified `prefix_of` schedule ∧ (l < q)%nat
         ∧ run1 (started connections) notified = Some (m2, take q tr)
         ∧ _disconnect_cv (barrier m2) = ∅).
Proof.
  intros Hrun Hg Hn.
  destruct (event_path _ _ _ _ _ _ Hrun Hn) as (address & incoming & s & Hc & _ & Hp & Hkn).
  simpl in *. pose proof (mine_lookup tid _ _ _ Hg eq_refl) as Hkg.
  destruct (responder_path _ _ _ _ _ _ _ _ _ Hp Hkg Hkn) as (Hrg & Hrn & H6 & H7 & H8).
  destruct (mine_before _ _ _ _ n H8) as (l & ? & Hl & Hrl); [lia|].
  destruct (mine_before _ _ _ _ l H7) as (j & ? & Hj & Hrj); [lia|].
  destruct (mine_before _ _ _ _ j H6) as (i & ? & Hi & Hri); [lia|].
  assert (g < i)%nat by (apply (rank_lt tid tr); lia).
  exists address, incoming, i, j, l. split_and!; try (done || lia).
  - destruct (run_event_step _ _ _ _ _ _ Hrun Hj)
      as (s1 & s2 & m1 & tr1 & m2 & events & -> & _ & Hs & Hr & Hle & Hev & Htake).
    simpl in *.
    apply step_inv in Hs as (s0 & s0' & mm & _ & _ & Hh & ->).
    destruct (handle_signal _ _ _ _ _ _ (j - length tr1)%nat Hh) as [Hmark _].
    destruct (Hmark _ _ Hev) as [-> Hin].
    assert (j = length tr1) as Hlen.
    { destruct (j - length tr1)%nat eqn:?; simpl in Hev; [lia|done]. }
    eexists (s1 ++ [tid]), _. split_and!.
    + exists s2. by rewrite <- app_assoc.
    + rewrite Hr. do 2 f_equal. rewrite Htake. simpl. f_equal. lia.
    + simpl. rewrite Hin. set_solver.
  - destruct (run_event_step _ _ _ _ _ _ Hrun Hl)
      as (s1 & s2 & m1 & tr1 & m2 & events & -> & _ & Hs & Hr & Hle & Hev & Htake).
    simpl in *.
    apply step_inv in Hs as (s0 & s0' & mm & _ & _ & Hh & ->).
    destruct (handle_signal _ _ _ _ _ _ (l - length tr1)%nat Hh) as [_ Hnotify].
    pose proof (Hnotify _ Hev) as Hcv.
    apply lookup_lt_Some in Hev.
    eexists (s1 ++ [tid]), _, (length tr1 + length events)%nat. split_and!.
    + exists s2. by rewrite <- app_assoc.
    + lia.
    + by rewrite Hr, Htake.
    + done.
Qed.

(** ** The order between the two sessions of a rendezvous *)


Lemma mark_complete_path tid address incoming s t k a :
  path1 tid address incoming s t →
  t !! k = Some (EvMarkComplete tid a) →
  ∃ adv found,
    k = 7%nat ∧ a = address
    ∧ t !! 4%nat = Some (EvGet tid (their_key adv) (Some found))
    ∧ t !! 6%nat = Some (EvSend tid (WPeerDisconnect {| disconnect_port := port address |})).
Proof.
  intros Hp Hk. on_path Hp t; concrete_lookup Hk; eauto 10.
Qed.

(** ** An advertisement of an old protocol version *)

Lemma append_empty_r (s : string) : s +:+ "" = s.
Proof. induction s as [|c s IH]; [done|]. rewrite <- IH at 2. reflexivity. Qed.

Lemma quit_requested_false t :
  _quit_after ≠ Some t → quit_requested _quit_after t = false.
Proof. intros H. unfold quit_requested. by apply bool_decide_eq_false_2. Qed.

Lemma old_version_path tid address a rest s t :
  path1 tid address (WAdvertise a :: rest) s t →
  quit_requested _quit_after TypeAdvertise = false →
  (version a <? kVersion) = true →
  let advertise_abort := WAdvertiseAbort {| reason := abort_reason kVersion |} in
  (∀ k w, t !! k = Some (EvSend tid w) →
     k = 1%nat ∧ w = advertise_abort ∧ location s = Returned)
  ∧ (location s = AtReceiveAdvertise ∧ inbox s = WAdvertise a :: rest
     ∨ location s = AtSendAdvertiseAbort
     ∨ location s = Returned ∧ outbox s = [advertise_abort]
       ∧ socket_held s = false
       ∧ t !! 1%nat = Some (EvSend tid advertise_abort)).
Proof.
  intros Hp Hq Hv. simpl.
  on_path Hp t; unfold responded, challenged, _protocol_version in *;
    destruct_and?; simplify_eq; try congruence;
    (split; [intros k w Hk; concrete_lookup Hk; done|]); auto 10.
Qed.

(** C4, amended: unless [quit_after] was given Advertise, a session whose
    Advertise carries a version below the mediator's has one message sent
    to it in a run and no other, the AdvertiseAbort whose reason is
    "Required protocol version: " followed by the mediator's version; its
    handler can take a step until it has returned, and it returns with that
    message sent and the socket released. *)
Theorem old_version_is_answered_by_one_abort
    connections schedule m tr tid address a rest :
  connections !! tid = Some (address, WAdvertise a :: rest) →
  version a < kVersion →
  _quit_after ≠ Some TypeAdvertise →
  run1 (started connections) schedule = Some (m, tr) →
  let advertise_abort := WAdvertiseAbort {| reason := abort_reason kVersion |} in
  abort_reason kVersion = "Required protocol version: " +:+ to_string kVersion
  ∧ contains (to_string kVersion) (abort_reason kVersion)
  ∧ ∃ s, (_handler_pool m !! tid = Some s)
    ∧ (∀ n w, tr !! n = Some (EvSend tid w) → w = advertise_abort)
    ∧ (∀ n n' w w', tr !! n = Some (EvSend tid w) →
         tr !! n' = Some (EvSend tid w') → n = n')
    ∧ (location s = Returned ∨ is_Some (step1 m tid))
    ∧ (location s = Returned →
         outbox s = [advertise_abort] ∧ socket_held s = false
         ∧ step1 m tid = None
         ∧ ∃ n, tr !! n = Some (EvSend tid advertise_abort)).
Proof.
  intros Hc Hv Hq Hrun advertise_abort. split; [done|]. split.
  { exists "Required protocol version: ", "". by rewrite append_empty_r. }
  destruct (run_path _ _ _ _ _ _ _ Hrun Hc) as (s & Hs & Hp).
  apply quit_requested_false in Hq. apply Z.ltb_lt in Hv.
  destruct (old_version_path _ _ _ _ _ _ Hp Hq Hv) as [Hsend Hloc].
  assert (tid ∉ _disconnect_cv (barrier m)) as Hcv.
  { intros Hin. destruct (run_asleep _ _ _ _ _ Hrun Hin) as (s1 & Hs1 & Hl).
    simplify_eq. destruct Hloc as [[? ?]|[?|[? ?]]]; congruence. }
  exists s. split_and!; [done|..].
  - intros n w Hn. apply (mine_lookup tid) in Hn; [|done].
    by destruct (Hsend _ _ Hn) as (_ & -> & _).
  - intros n n' w w' Hn Hn'.
    pose proof (mine_lookup tid _ _ _ Hn eq_refl) as Hk.
    pose proof (mine_lookup tid _ _ _ Hn' eq_refl) as Hk'.
    destruct (Hsend _ _ Hk) as (Hr & _). destruct (Hsend _ _ Hk') as (Hr' & _).
    eapply (rank_inj tid tr); [done..|congruence].
  - destruct Hloc as [[Hl Hin]|[Hl|[Hl _]]]; [right|right|by left].
    + unfold step. rewrite Hs. simpl. rewrite bool_decide_eq_false_2 by done.
      unfold _handle_connection. rewrite Hl, Hin. simpl.
      destruct (QUIT_IF_REQUESTED _ _ _ _ _ _ _) as [[??]?]. by eexists.
    + unfold step. rewrite Hs. simpl. rewrite bool_decide_eq_false_2 by done.
      unfold _handle_connection. rewrite Hl. simpl.
      destruct (quit_requested _ TypeAdvertiseAbort); by eexists.
  - intros Hl. destruct Hloc as [[Hl' _]|[Hl'|(_ & Hout & Hheld & Hk)]];
      [congruence..|].
    split_and!; [done..| |].
    + unfold step. rewrite Hs. simpl. rewrite bool_decide_eq_false_2 by done.
      unfold _handle_connection. by rewrite Hl.
    + destruct (mine_lookup_inv _ _ _ _ Hk) as (n & Hn & _). eauto.
Qed.

(** ** A peer that never comes *)

Lemma handle_timeout tid s m s' m' events :
  handle tid s m = Some (s', m', events) →
  ∀ k t key timeout, events !! k = Some (EvAwait t key timeout None) →
    events !! S k = Some (EvReturn t).
Proof.
  intros H k t key timeout Hk. handler_cases H; concrete_lookup Hk; done.
Qed.

Lemma run_timeout m0 schedule m tr n t key timeout :
  run1 m0 schedule = Some (m, tr) →
  tr !! n = Some (EvAwait t key timeout None) →
  tr !! S n = Some (EvReturn t).
Proof.
  intros Hrun. revert n t key timeout.
  refine (run_ind (λ m tr, ∀ n t key timeout, _ → _) m0 _ _ schedule m tr Hrun);
    [done|].
  clear. intros m tr tid m' events IH Hs n t key timeout Hn.
  apply step_inv in Hs as (s & s' & mm & _ & _ & Hh & _).
  split_lookup Hn.
  - apply lookup_app_l_Some. eauto.
  - rewrite lookup_app_r by lia.
    replace (S n - length tr)%nat with (S (n - length tr)) by lia.
    by eapply handle_timeout.
Qed.

Lemma timed_out_path tid address incoming s t k key timeout :
  path1 tid address incoming s t →
  t !! k = Some (EvAwait tid key timeout None) →
  ∃ c, k = 6%nat ∧ timeout = 2000 ∧ location s = Returned
    ∧ socket_held s = false
    ∧ outbox s = [WAdvertiseChallenge {| encrypted_nonce := c |}]
    ∧ ∀ j w, t !! j = Some (EvSend tid w) →
        j = 2%nat ∧ w = WAdvertiseChallenge {| encrypted_nonce := c |}.
Proof.
  intros Hp Hk. on_path Hp t; concrete_lookup Hk.
  eexists. split_and!; try done.
  intros j w Hj. concrete_lookup Hj. done.
Qed.

Lemma awaiting_path tid address incoming s t :
  path1 tid address incoming s t → location s = AtAwait →
  ∃ a, advertise s = Some a ∧ socket_held s = true.
Proof. intros Hp Hl. on_path Hp t; simplify_eq; eauto. Qed.

(** C5: in a run of the mediator, the handler that stands at its [await]
    while the key it waits for is not in the store takes the timeout: the
    [await] of 2000 ms gives nothing and the handler returns, releasing the
    socket, with nothing sent; and a handler whose [await] gave nothing has
    returned at once, has sent the AdvertiseChallenge before and no message
    besides, and never moves again. *)
Theorem await_timeout_ends_the_session_silently
    connections schedule m tr tid s :
  run1 (started connections) schedule = Some (m, tr) →
  _handler_pool m !! tid = Some s →
  (location s = AtAwait →
     ∃ a, advertise s = Some a
       ∧ (_key_to_identifier_store m !! their_key a = None →
          ∃ m' s',
            step1 m tid =
              Some (m', [EvAwait tid (their_key a) 2000 None; EvReturn tid])
            ∧ _handler_pool m' !! tid = Some s'
            ∧ location s' = Returned ∧ socket_held s' = false
            ∧ outbox s' = outbox s
            ∧ _sent_messages m' = _sent_messages m))
  ∧ (∀ n key timeout,
       tr !! n = Some (EvAwait tid key timeout None) →
       ∃ c, timeout = 2000
         ∧ tr !! S n = Some (EvReturn tid)
         ∧ location s = Returned ∧ socket_held s = false
         ∧ outbox s = [WAdvertiseChallenge {| encrypted_nonce := c |}]
         ∧ step1 m tid = None
         ∧ ∀ k w, tr !! k = Some (EvSend tid w) →
             (k < n)%nat ∧ w = WAdvertiseChallenge {| encrypted_nonce := c |}).
Proof.
  intros Hrun Hs.
  destruct (run_threads _ _ _ _ Hrun) as [Hlen _].
  pose proof (lookup_lt_Some _ _ _ Hs) as Hlt. rewrite Hlen in Hlt.
  simpl in Hlt. rewrite length_fmap in Hlt.
  destruct (lookup_lt_is_Some_2 _ _ Hlt) as [[address incoming] Hc].
  destruct (run_path _ _ _ _ _ _ _ Hrun Hc) as (s1 & Hs1 & Hp). simplify_eq.
  split.
  - intros Hl. destruct (awaiting_path _ _ _ _ _ Hp Hl) as (a & Ha & Hheld).
    exists a. split; [done|]. intros Hnone.
    assert (tid ∉ _disconnect_cv (barrier m)) as Hcv.
    { intros Hin. destruct (run_asleep _ _ _ _ _ Hrun Hin) as (s1 & Hs1 & Hl').
      simplify_eq. congruence. }
    eexists _, _. split_and!.
    + eapply step_intro; [done..|].
      unfold _handle_connection, KeyToIdentifierStore.await.
      rewrite Hl, Ha. simpl. rewrite Hnone. done.
    + simpl. apply list_lookup_insert_eq. by eapply lookup_lt_Some.
    + done.
    + done.
    + done.
    + done.
  - intros n key timeout Hn.
    pose proof (mine_lookup tid _ _ _ Hn eq_refl) as Hk.
    destruct (timed_out_path _ _ _ _ _ _ _ _ Hp Hk) as (c & Hr & -> & Hl & Hh & Ho & Hsend).
    exists c. split_and!; try done.
    + by eapply run_timeout.
    + unfold step. rewrite Hs. simpl. case_bool_decide; [done|].
      unfold _handle_connection. by rewrite Hl.
    + intros k w Hkw. pose proof (mine_lookup tid _ _ _ Hkw eq_refl) as Hkw'.
      destruct (Hsend _ _ Hkw') as [Hrk ->]. split; [|done].
      apply (rank_lt tid tr). lia.
Qed.
(** ** Who becomes the Client and who the Peer *)

(** The lookup of one of two sessions that name each other finds a record
    exactly when the other one has registered before. *)
Lemma lookup_finds_the_other connections schedule m tr ta tb
    addressA advA restA addressB advB restB n key found :
  connections !! ta = Some (addressA, WAdvertise advA :: restA) →
  connections !! tb = Some (addressB, WAdvertise advB :: restB) →
  their_key advB = our_key advA →
  (∀ t address a rest,
     connections !! t = Some (address, WAdvertise a :: rest) →
     our_key a = our_key advA → t = ta ∨ t = tb) →
  run1 (started connections) schedule = Some (m, tr) →
  tr !! n = Some (EvGet tb key found) →
  key = their_key advB
  ∧ (is_Some found ↔
     ∃ k r, (k < n)%nat ∧ tr !! k = Some (EvPut ta (our_key advA) r)).
Proof.
  intros Ha Hb Hkey Hothers Hrun Hn.
  destruct (event_path _ _ _ _ _ _ Hrun Hn) as (ad & inc & s & Hc & _ & Hp & Hkn).
  simpl in *. simplify_eq.
  destruct (get_path _ _ _ _ _ _ _ _ Hp Hkn) as (Hrn & a & rest & ? & ->).
  simplify_eq. split; [done|].
  destruct (run_store _ _ _ _ Hrun) as [_ Hget]. rewrite (Hget _ _ _ _ Hn).
  split.
  - intros (k & t' & r & Hlt & Hk).
    destruct (event_path _ _ _ _ _ _ Hrun Hk) as (ad' & inc' & s' & Hc' & _ & Hp' & Hkk).
    simpl in *.
    destruct (put_path _ _ _ _ _ _ _ _ Hp' Hkk) as (Hrk & a' & rest' & -> & Hk').
    rewrite Hkey in Hk'.
    destruct (Hothers _ _ _ _ Hc' (eq_sym Hk')) as [-> | ->].
    + rewrite <- Hkey. eauto.
    + pose proof (rank_mono tb tr k n). lia.
  - intros (k & r & Hlt & Hk). rewrite Hkey. eauto.
Qed.

(** The branch a handler is in follows what its lookup found. *)
Lemma branch_path tid address incoming s t k key found :
  path1 tid address incoming s t →
  t !! k = Some (EvGet tid key found) →
  (branch (location s) = Some (role_of_lookup found) ∨ location s = Returned)
  ∧ ∀ j e, (k < j)%nat → t !! j = Some e → on_branch (role_of_lookup found) e.
Proof.
  intros Hp Hk.
  on_path Hp t; concrete_lookup Hk;
    (split; [by eauto|]);
    intros j e Hlt Hj; concrete_lookup Hj; simpl; done || lia.
Qed.

(** The lookup of a handler comes before its registration. *)
Lemma lookup_before_registration connections schedule m tr t i j key1 f key2 r2 :
  run1 (started connections) schedule = Some (m, tr) →
  tr !! i = Some (EvGet t key1 f) → tr !! j = Some (EvPut t key2 r2) →
  (i < j)%nat.
Proof.
  intros Hrun Hi Hj.
  destruct (event_path _ _ _ _ _ _ Hrun Hi) as (ad & inc & s & Hc & _ & Hp & Hki).
  pose proof (mine_lookup t _ _ _ Hj eq_refl) as Hkj. simpl in *.
  destruct (get_path _ _ _ _ _ _ _ _ Hp Hki) as [Hri _].
  destruct (put_path _ _ _ _ _ _ _ _ Hp Hkj) as [Hrj _].
  apply (rank_lt t tr). lia.
Qed.

(** A handler that has registered has looked its peer up before. *)
Lemma registration_after_lookup connections schedule m tr t j key r :
  run1 (started connections) schedule = Some (m, tr) →
  tr !! j = Some (EvPut t key r) →
  ∃ i key' found, (i < j)%nat ∧ tr !! i = Some (EvGet t key' found).
Proof.
  intros Hrun Hj.
  destruct (event_path _ _ _ _ _ _ Hrun Hj) as (ad & inc & s & Hc & _ & Hp & Hkj).
  simpl in *.
  assert (∃ key' found, mine t tr !! 4%nat = Some (EvGet t key' found)
                        ∧ rank t tr j = 5%nat) as (key' & found & H4 & Hr).
  { clear -Hp Hkj. on_path Hp t0; concrete_lookup Hkj; eauto. }
  destruct (mine_before _ _ _ _ j H4) as (i & ? & Hi & _); [lia|].
  by exists i, key', found.
Qed.

(** C3, amended: of two sessions that name each other, with no third
    session under one of their keys, the one whose lookup in the store
    comes after the registration of the other finds it and takes the branch
    of the Peer (the Responder), and a lookup that comes before it finds
    nothing and makes a Client (an Initiator): the order at the store
    decides, whatever the messages carry besides the keys.  A handler whose
    lookup has found a record stands in the branch of the Responder until
    it returns, and all it does after the lookup is of that branch; a
    handler whose lookup found nothing stands in the branch of the
    Initiator, likewise.  The two are never both the Responder; when the
    registration of one comes before the lookup of the other, the first is
    the Initiator and the second the Responder; nothing keeps both from
    being the Initiator, when both lookups come before both
    registrations. *)
Theorem role_follows_the_order_at_the_store connections schedule m tr ta tb
    addressA advA restA addressB advB restB :
  connections !! ta = Some (addressA, WAdvertise advA :: restA) →
  connections !! tb = Some (addressB, WAdvertise advB :: restB) →
  their_key advA = our_key advB →
  their_key advB = our_key advA →
  (∀ t address a rest,
     connections !! t = Some (address, WAdvertise a :: rest) →
     our_key a = our_key advA ∨ our_key a = our_key advB → t = ta ∨ t = tb) →
  run1 (started connections) schedule = Some (m, tr) →
  (∀ n key found, tr !! n = Some (EvGet ta key found) →
     key = our_key advB
     ∧ (is_Some found ↔
        ∃ k r, (k < n)%nat ∧ tr !! k = Some (EvPut tb (our_key advB) r)))
  ∧ (∀ n key found, tr !! n = Some (EvGet tb key found) →
       key = our_key advA
       ∧ (is_Some found ↔
          ∃ k r, (k < n)%nat ∧ tr !! k = Some (EvPut ta (our_key advA) r)))
  ∧ (∀ x n key found, tr !! n = Some (EvGet x key found) →
       ∃ s, (_handler_pool m !! x = Some s)
         ∧ (branch (location s) = Some (role_of_lookup found)
            ∨ location s = Returned)
         ∧ ∀ k e, (n < k)%nat → tr !! k = Some e → event_thread e = x →
             on_branch (role_of_lookup found) e)
  ∧ (∀ n n' key key' found found',
       tr !! n = Some (EvGet ta key (Some found)) →
       tr !! n' = Some (EvGet tb key' (Some found')) → False)
  ∧ (∀ p key r g key' found,
       tr !! p = Some (EvPut ta key r) → tr !! g = Some (EvGet tb key' found) →
       (p < g)%nat →
       role_of_lookup found = Responder
       ∧ ∃ i keya, (i < p)%nat ∧ tr !! i = Some (EvGet ta keya None))
  ∧ (∀ p key r g key' found,
       tr !! p = Some (EvPut tb key r) → tr !! g = Some (EvGet ta key' found) →
       (p < g)%nat →
       role_of_lookup found = Responder
       ∧ ∃ i keyb, (i < p)%nat ∧ tr !! i = Some (EvGet tb keyb None)).
Proof.
  intros Ha Hb Hab Hba Hothers Hrun.
  assert (∀ n key found, tr !! n = Some (EvGet ta key found) →
     key = our_key advB
     ∧ (is_Some found ↔
        ∃ k r, (k < n)%nat ∧ tr !! k = Some (EvPut tb (our_key advB) r))) as HA.
  { intros n key found Hn.
    destruct (lookup_finds_the_other connections schedule m tr tb ta _ _ _ _ _ _ n key found
                Hb Ha Hab) as [-> Hiff]; [|done..].
    intros t ad a rest Hc Hk. destruct (Hothers _ _ _ _ Hc); auto. }
  assert (∀ n key found, tr !! n = Some (EvGet tb key found) →
       key = our_key advA
       ∧ (is_Some found ↔
          ∃ k r, (k < n)%nat ∧ tr !! k = Some (EvPut ta (our_key advA) r))) as HB.
  { intros n key found Hn.
    destruct (lookup_finds_the_other connections schedule m tr ta tb _ _ _ _ _ _ n key found
                Ha Hb Hba) as [-> Hiff]; [|done..].
    intros t ad a rest Hc Hk. destruct (Hothers _ _ _ _ Hc); auto. }
  assert (∀ n n' key key' found found',
       tr !! n = Some (EvGet ta key (Some found)) →
       tr !! n' = Some (EvGet tb key' (Some found')) → False) as Hboth.
  { intros n n' key key' found found' Hn Hn'.
    destruct (HA _ _ _ Hn) as [_ [HfoundA _]].
    destruct HfoundA as (k & r & Hlt & Hk); [done|].
    destruct (HB _ _ _ Hn') as [_ [HfoundB _]].
    destruct HfoundB as (k' & r' & Hlt' & Hk'); [done|].
    pose proof (lookup_before_registration _ _ _ _ _ _ _ _ _ _ _ Hrun Hn Hk').
    pose proof (lookup_before_registration _ _ _ _ _ _ _ _ _ _ _ Hrun Hn' Hk).
    lia. }
  assert (∀ x y advx,
            (∀ n key found, tr !! n = Some (EvGet y key found) →
               key = our_key advx
               ∧ (is_Some found ↔
                  ∃ k r, (k < n)%nat ∧ tr !! k = Some (EvPut x (our_key advx) r))) →
            (∀ n n' key key' found found',
               tr !! n = Some (EvGet x key (Some found)) →
               tr !! n' = Some (EvGet y key' (Some found')) → False) →
            (∀ k key r, tr !! k = Some (EvPut x key r) → key = our_key advx) →
            ∀ p key r g key' found,
              tr !! p = Some (EvPut x key r) →
              tr !! g = Some (EvGet y key' found) →
              (p < g)%nat →
              role_of_lookup found = Responder
              ∧ ∃ i keyx, (i < p)%nat ∧ tr !! i = Some (EvGet x keyx None))
    as Hordered.
  { intros x y advx Hy Hnot Hkeys p key r g key' found Hp Hg Hlt.
    destruct (Hy _ _ _ Hg) as [_ [_ Hfound]].
    destruct Hfound as [found0 ->].
    { exists p, r. split; [done|]. by rewrite <- (Hkeys _ _ _ Hp). }
    split; [done|].
    destruct (registration_after_lookup _ _ _ _ _ _ _ _ Hrun Hp)
      as (i & keyx & [foundx|] & Hi & Hget).
    - exfalso. by eapply Hnot.
    - by exists i, keyx. }
  split_and!; [done|done| |done|..].
  - intros x n key found Hn.
    destruct (event_path _ _ _ _ _ _ Hrun Hn) as (ad & inc & s & Hc & Hs & Hp & Hk).
    simpl in *.
    destruct (branch_path _ _ _ _ _ _ _ _ Hp Hk) as [Hbranch Hlater].
    exists s. split_and!; [done..|].
    intros k e Hlt Hke He.
    pose proof (mine_lookup _ _ _ _ Hke He) as Hle.
    eapply Hlater; [|done].
    by eapply (rank_lt_strict x tr n k).
  - eapply (Hordered ta tb advA); [done|done|].
    intros k key r Hk.
    destruct (event_path _ _ _ _ _ _ Hrun Hk) as (ad & inc & s & Hc & _ & Hp & Hkk).
    simpl in *. simplify_eq.
    by destruct (put_path _ _ _ _ _ _ _ _ Hp Hkk) as (_ & a & rest & ? & ->);
      simplify_eq.
  - eapply (Hordered tb ta advB); [done| |].
    + intros n n' key key' found found' Hn Hn'. by eapply Hboth.
    + intros k key r Hk.
      destruct (event_path _ _ _ _ _ _ Hrun Hk) as (ad & inc & s & Hc & _ & Hp & Hkk).
      simpl in *. simplify_eq.
      by destruct (put_path _ _ _ _ _ _ _ _ Hp Hkk) as (_ & a & rest & ? & ->);
        simplify_eq.
Qed.
(** ** The proof of the peer is not looked at *)

Lemma handle_blank tid s m :
  handle tid (blank_session s) (blank_mediator m) = blank_outcome <$> handle tid s m.
Proof.
  destruct s as [ad inb outb held loc adv resp mp ap].
  unfold _handle_connection, blank_outcome, QUIT_IF_REQUESTED, notify_and_return,
    just_return, throw, _send_and_log, _wait_for_disconnect,
    KeyToIdentifierStore.await, KeyToIdentifierStore.get.
  destruct loc; simpl; try done.
  - destruct inb as [|[] inb]; simpl; try done.
    destruct (quit_requested _ _); simpl; unfold blank_mediator; simpl;
      by rewrite fmap_app.
  - by destruct (quit_requested _ _).
  - destruct adv as [a|]; simpl; [|done].
    destruct (public_encrypt _ _); simpl; [|done].
    by destruct (quit_requested _ _).
  - destruct inb as [|[] inb]; simpl; try done.
    destruct (quit_requested _ _); simpl; unfold blank_mediator; simpl;
      by rewrite fmap_app.
  - by destruct adv as [a|].
  - by destruct adv as [a|].
  - destruct adv as [a|]; simpl; [|done].
    by destruct (_ !! _).
  - destruct ap as [[p|]|]; simpl; try done.
    by case_bool_decide.
  - by destruct ap as [[p|]|].
  - by destruct adv as [a|].
Qed.

Lemma step_blank m tid :
  step1 (blank_mediator m) tid = blank_result <$> step1 m tid.
Proof.
  unfold step. simpl. rewrite list_lookup_fmap.
  destruct (_handler_pool m !! tid) as [s|]; simpl; [|done].
  case_bool_decide; [done|].
  rewrite handle_blank.
  destruct (handle tid s m) as [[[s' mm] events]|]; simpl; [|done].
  unfold blank_result, blank_mediator. simpl. by rewrite list_fmap_insert.
Qed.

Lemma run_blank m schedule :
  run1 (blank_mediator m) schedule = blank_result <$> run1 m schedule.
Proof.
  revert m. induction schedule as [|tid schedule IH]; intros m; simpl; [done|].
  rewrite step_blank.
  destruct (step1 m tid) as [[m1 e1]|]; simpl; [|done].
  rewrite IH. destruct (run1 m1 schedule) as [[m2 e2]|]; simpl; [|done].
  unfold blank_result. simpl. by rewrite fmap_app.
Qed.

(** C8: two mediators that differ at most in the payloads of the
    AdvertiseResponse messages their sessions receive (or have received) run
    alike under every schedule: both runs exist or none does, they produce
    the same events but for those payloads, in the same order, and they end
    with the same store, the same barrier, the same messages sent, and
    handlers at the same statements with the same outboxes. *)
Theorem the_proof_of_the_peer_changes_nothing m1 m2 schedule :
  same_but_for_the_proofs m1 m2 →
  match run1 m1 schedule, run1 m2 schedule with
  | Some (m1', tr1), Some (m2', tr2) =>
      same_but_for_the_proofs m1' m2'
      ∧ blank_event <$> tr1 = blank_event <$> tr2
      ∧ _key_to_identifier_store m1' = _key_to_identifier_store m2'
      ∧ barrier m1' = barrier m2'
      ∧ _sent_messages m1' = _sent_messages m2'
      ∧ outbox <$> _handler_pool m1' = outbox <$> _handler_pool m2'
      ∧ location <$> _handler_pool m1' = location <$> _handler_pool m2'
  | None, None => True
  | _, _ => False
  end.
Proof.
  unfold same_but_for_the_proofs. intros Heq.
  pose proof (run_blank m1 schedule) as H1.
  pose proof (run_blank m2 schedule) as H2.
  rewrite Heq, H2 in H1.
  destruct (run1 m1 schedule) as [[m1' tr1]|], (run1 m2 schedule) as [[m2' tr2]|];
    simpl in H1; try done.
  apply (inj Some), pair_equal_spec in H1 as [Hm Htr]. simpl in Hm, Htr.
  split_and!; try done.
  - by apply (f_equal _key_to_identifier_store) in Hm.
  - by apply (f_equal barrier) in Hm.
  - by apply (f_equal _sent_messages) in Hm.
  - apply (f_equal (λ m, outbox <$> _handler_pool m)) in Hm. simpl in Hm.
    by rewrite <- !list_fmap_compose in Hm.
  - apply (f_equal (λ m, location <$> _handler_pool m)) in Hm. simpl in Hm.
    by rewrite <- !list_fmap_compose in Hm.
Qed.
(** ** A rendezvous in which the second peer comes after the first has
       registered *)

Lemma run_cons m tid rest m1 events1 :
  step1 m tid = Some (m1, events1) →
  run1 m (tid :: rest) =
    '(m2, events2) ← run1 m1 rest; Some (m2, events1 ++ events2).
Proof. intros H. simpl. by rewrite H. Qed.

(** The first five steps of the first handler, taken before anything else:
    it is registered and stands at its [await]. *)
Lemma first_registers addressA advA rA restA addressB advB rB restB cA cB :
  valid_pair public_encrypt kVersion advA advB cA cB →
  handshake_not_cut _quit_after →
  ∃ m5,
    run1 (started (rendezvous addressA advA rA restA addressB advB rB restB))
      [0; 0; 0; 0; 0]%nat
    = Some (m5, client_events 0 addressA advA cA rA).
Proof.
  intros (Hab & Hba & Hne & HvA & HvB & HeA & HeB) (Hq1 & Hq2 & Hq3).
  apply quit_requested_false in Hq1, Hq2, Hq3.
  apply Z.ltb_ge in HvA.
  eexists. unfold started, rendezvous.
  erewrite run_cons.
  2:{ eapply step_intro; [reflexivity|set_solver|].
      unfold _handle_connection, QUIT_IF_REQUESTED, _protocol_version. simpl.
      rewrite Hq1, HvA. reflexivity. }
  erewrite run_cons.
  2:{ eapply step_intro; [reflexivity|set_solver|].
      unfold _handle_connection, QUIT_IF_REQUESTED. simpl.
      change (to_string nonce) with "1337".
      rewrite HeA. simpl. rewrite Hq2. reflexivity. }
  erewrite run_cons.
  2:{ eapply step_intro; [reflexivity|set_solver|].
      unfold _handle_connection, QUIT_IF_REQUESTED. simpl.
      rewrite Hq3. reflexivity. }
  erewrite run_cons.
  2:{ eapply step_intro; [reflexivity|set_solver|].
      unfold _handle_connection, KeyToIdentifierStore.get. simpl.
      rewrite lookup_empty. reflexivity. }
  erewrite run_cons.
  2:{ eapply step_intro; [reflexivity|set_solver|].
      unfold _handle_connection. simpl. reflexivity. }
  simpl. reflexivity.
Qed.

(** Induction on a run that keeps the schedule in sight. *)
Lemma run_ind_schedule (P : list nat → FakeMediator → list Event → Prop) m0 :
  P [] m0 [] →
  (∀ schedule m tr tid m' events,
     run1 m0 schedule = Some (m, tr) → P schedule m tr →
     step1 m tid = Some (m', events) → P (schedule ++ [tid]) m' (tr ++ events)) →
  ∀ schedule m tr, run1 m0 schedule = Some (m, tr) → P schedule m tr.
Proof.
  intros H0 Hstep schedule.
  induction schedule as [|tid schedule IH] using rev_ind; intros m tr Hrun.
  - simpl in Hrun. by simplify_eq.
  - rewrite run_snoc in Hrun.
    destruct (run1 m0 schedule) as [[m1 e1]|] eqn:Hr; simpl in Hrun; [|done].
    destruct (step1 m1 tid) as [[m2 e2]|] eqn:Hs; simpl in Hrun; [|done].
    simplify_eq. eapply Hstep; eauto.
Qed.

(** What a step does to the barrier and to the statement of its handler. *)
Lemma handle_wakeup tid s m s' m' events :
  handle tid s m = Some (s', m', events) →
  (events = [] ∧ location s' = AtWaitForDisconnect ∧ s' = s
   ∧ _disconnect_cv (barrier m') = {[tid]} ∪ _disconnect_cv (barrier m)
   ∧ _completed_disconnects (barrier m') = _completed_disconnects (barrier m)
   ∧ ∃ p, awaited_peer s = Some (Some p)
       ∧ socket_address p ∉ _completed_disconnects (barrier m))
  ∨ (events ≠ [] ∧ location s = AtNotifyDisconnect
     ∧ _disconnect_cv (barrier m') = ∅)
  ∨ (events ≠ [] ∧ location s' = AtNotifyDisconnect
     ∧ _disconnect_cv (barrier m') = _disconnect_cv (barrier m))
  ∨ (events ≠ [] ∧ location s ≠ AtNotifyDisconnect
     ∧ location s' ≠ AtNotifyDisconnect
     ∧ _disconnect_cv (barrier m') = _disconnect_cv (barrier m)
     ∧ _completed_disconnects (barrier m') ⊆ _completed_disconnects (barrier m)).
Proof.
  intros H. handler_cases H; simpl;
    try (by right; right; right; split_and!; [done|congruence|done|done|set_solver]);
    try (by right; right; left);
    try (by right; left).
  left. split_and!; try done.
  destruct (awaited_peer s') as [[p|]|]; simplify_eq/=. eauto.
Qed.

(** No wake-up is lost: when the address a sleeping handler waits for is in
    the completed set, some handler stands between its insertion and its
    notification. *)
Lemma run_no_lost_wakeup connections schedule m tr tid :
  run1 (started connections) schedule = Some (m, tr) →
  tid ∈ _disconnect_cv (barrier m) →
  ∃ s p, _handler_pool m !! tid = Some s
    ∧ location s = AtWaitForDisconnect
    ∧ awaited_peer s = Some (Some p)
    ∧ (socket_address p ∈ _completed_disconnects (barrier m) →
       ∃ t' s', _handler_pool m !! t' = Some s' ∧ location s' = AtNotifyDisconnect).
Proof.
  intros Hrun. revert tid.
  refine (run_ind (λ m tr, ∀ tid, tid ∈ _disconnect_cv (barrier m) → _)
            _ _ _ schedule m tr Hrun); [set_solver|].
  clear. intros m tr t0 m' events IH Hs tid Hin.
  apply step_inv in Hs as (s0 & s0' & mm & Hs0 & Hcv & Hh & ->).
  simpl in *. rewrite (handle_pool _ _ _ _ _ _ Hh).
  pose proof (lookup_lt_Some _ _ _ Hs0) as Hlt.
  destruct (handle_wakeup _ _ _ _ _ _ Hh)
    as [(_ & Hl' & Hap & Hcv' & Hcd & p & Hp & Hnot)
       |[(_ & Hl & Hcv')|[(_ & Hl' & Hcv')|(_ & Hl & Hl' & Hcv' & Hcd)]]];
    rewrite Hcv' in Hin; [| set_solver | |].
  - destruct (decide (tid = t0)) as [->|Hne].
    + exists s0', p. rewrite list_lookup_insert_eq by done.
      subst s0'. split_and!; [done|done|congruence|]. rewrite Hcd. done.
    + destruct (IH tid) as (s & q & Hs & Hl & Hq & Hw); [set_solver|].
      exists s, q. rewrite list_lookup_insert_ne by done.
      split_and!; [done..|]. rewrite Hcd. intros Hc.
      destruct (Hw Hc) as (t' & s' & Hs' & Hls').
      destruct (decide (t' = t0)) as [->|].
      * simplify_eq. congruence.
      * exists t', s'. by rewrite list_lookup_insert_ne.
  - destruct (decide (tid = t0)) as [->|Hne]; [done|].
    destruct (IH tid Hin) as (s & q & Hs & Hl & Hq & Hw).
    exists s, q. rewrite list_lookup_insert_ne by done.
    split_and!; [done..|]. intros _.
    exists t0, s0'. by rewrite list_lookup_insert_eq.
  - destruct (decide (tid = t0)) as [->|Hne]; [done|].
    destruct (IH tid Hin) as (s & q & Hs & Hlo & Hq & Hw).
    exists s, q. rewrite list_lookup_insert_ne by done.
    split_and!; [done..|]. intros Hc.
    destruct Hw as (t' & s' & Hs' & Hls'); [set_solver|].
    destruct (decide (t' = t0)) as [->|]; [congruence|].
    exists t', s'. by rewrite list_lookup_insert_ne.
Qed.

(** Every run ends: a schedule is no longer than this bound in the number
    of connections and of events. *)
Lemma run_bounded connections schedule m tr :
  run1 (started connections) schedule = Some (m, tr) →
  (length schedule ≤ (length connections + 1) * length tr + length connections)%nat.
Proof.
  intros Hrun.
  assert (∀ m tr schedule, run1 (started connections) schedule = Some (m, tr) →
            (size (_disconnect_cv (barrier m)) ≤ length connections)%nat) as Hsize.
  { clear. intros m tr schedule Hrun.
    rewrite <- (size_set_seq (C:=gset nat) 0 (length connections)).
    apply subseteq_size. intros t Ht. apply elem_of_set_seq.
    destruct (run_asleep _ _ _ _ _ Hrun Ht) as (s & Hs & _).
    apply lookup_lt_Some in Hs.
    destruct (run_threads _ _ _ _ Hrun) as [Hlen _]. rewrite Hlen in Hs.
    simpl in Hs. rewrite length_fmap in Hs. lia. }
  enough (length schedule
          ≤ (length connections + 1) * length tr + size (_disconnect_cv (barrier m)))%nat
    as Hb.
  { pose proof (Hsize _ _ _ Hrun). lia. }
  revert schedule m tr Hrun.
  refine (run_ind_schedule (λ schedule m tr, _) _ _ _); [simpl; lia|].
  intros schedule m tr t0 m' events Hrun IH Hs.
  pose proof (Hsize _ _ _ Hrun) as Hle.
  apply step_inv in Hs as (s0 & s0' & mm & Hs0 & Hcv & Hh & ->).
  simpl. rewrite !length_app. simpl.
  destruct (handle_wakeup _ _ _ _ _ _ Hh)
    as [(-> & _ & _ & Hcv' & _)
       |[(Hev & _ & Hcv')|[(Hev & _ & Hcv')|(Hev & _ & _ & Hcv' & _)]]];
    rewrite Hcv'.
  - rewrite size_union by set_solver. rewrite size_singleton. simpl. lia.
  - rewrite size_empty. destruct events; [done|]. simpl. nia.
  - destruct events; [done|]. simpl. nia.
  - destruct events; [done|]. simpl. nia.
Qed.

(** A handler on a path that has not ended, and is not waiting for a
    message that does not come, can take its step if it is not asleep; the
    step is a timeout only at [await], with the key absent. *)
Lemma handle_moves tid address incoming s t m :
  path1 tid address incoming s t →
  location s ≠ Returned → location s ≠ Terminated →
  (location s = AtReceiveAdvertise ∨ location s = AtReceiveAdvertiseResponse →
   inbox s ≠ []) →
  ∃ s' m' events,
    handle tid s m = Some (s', m', events)
    ∧ ∀ k key timeout, events !! k = Some (EvAwait tid key timeout None) →
        location s = AtAwait
        ∧ ∃ a, advertise s = Some a ∧ key = their_key a
               ∧ _key_to_identifier_store m !! key = None.
Proof.
  intros Hp Hr Ht Hin.
  destruct Hp; simpl in *; try done;
    unfold _handle_connection, QUIT_IF_REQUESTED, notify_and_return, just_return,
      throw, _send_and_log, _wait_for_disconnect, KeyToIdentifierStore.await;
    simpl;
    repeat (case_match; simpl);
    try (by (eexists _, _, _; split; [reflexivity|];
             intros k key timeout Hk; concrete_lookup Hk; eauto)).
  all: by destruct Hin; auto.
Qed.

Lemma path_length tid address incoming s t :
  path1 tid address incoming s t → (length t ≤ 11)%nat.
Proof. intros Hp. on_path Hp t; lia. Qed.


Section Rendezvous.

Variables (addressA addressB : SocketAddress) (advA advB : Advertise).
Variables (rA rB : AdvertiseResponse) (restA restB : list WireMessage).
Variables (cA cB : string).
Variables (schedule : list nat) (m : FakeMediator) (tr : list Event).

Hypothesis Hvalid : valid_pair public_encrypt kVersion advA advB cA cB.
Hypothesis Hcut : handshake_not_cut _quit_after.
Hypothesis Hrun :
  run1 (started (rendezvous addressA advA rA restA addressB advB rB restB))
    schedule = Some (m, tr).
Hypothesis Hno : ∀ n key timeout, tr !! n ≠ Some (EvAwait 0 key timeout None).
Hypothesis Horder :
  ∀ g key found, tr !! g = Some (EvGet 1 key found) →
    ∃ p key' r, (p < g)%nat ∧ tr !! p = Some (EvPut 0 key' r).

Local Abbreviation connections :=
  (rendezvous addressA advA rA restA addressB advB rB restB).
Local Abbreviation recordA :=
  {| socket_address := addressA; identifier_version := version advA |}.
Local Abbreviation recordB :=
  {| socket_address := addressB; identifier_version := version advB |}.










End Rendezvous.

End Properties.

(** * The rest of the mediator *)

Local Open Scope Z_scope.

Section Coverage.

Variable public_encrypt : string → string → option string.
Variable kVersion : Z.
Variable _quit_after : option MessageType.

Local Abbreviation handle := (_handle_connection public_encrypt kVersion _quit_after).
Local Abbreviation step1 := (step public_encrypt kVersion _quit_after).
Local Abbreviation run1 := (run public_encrypt kVersion _quit_after).
Local Abbreviation path1 := (path public_encrypt kVersion _quit_after).

(** ** What a handler reads *)

Lemma received_path tid address incoming s t :
  path1 tid address incoming s t →
  location s ≠ Terminated →
  incoming = omap received_message t ++ inbox s
  ∧ (omap received_message t = []
     ∨ (∃ a, omap received_message t = [WAdvertise a])
     ∨ ∃ a r, omap received_message t = [WAdvertise a; WAdvertiseResponse r]).
Proof.
  intros Hp Hl.
  destruct Hp; unfold responded, challenged in *; destruct_and?; subst;
    unfold quit_events, peer_events, client_events, handshake_events,
      challenge_events; simpl in *; try done;
    (split; [done|]); eauto 10.
Qed.

(** X2: a handler reads at most two messages off its socket, an Advertise
    and then an AdvertiseResponse, in the order in which its peer sent
    them, and nothing else: as long as no message failed to decode, what
    the peer sent is what the handler has received so far, followed by what
    is still unread on the socket, also when the handler has returned. *)
Theorem a_handler_reads_at_most_two_messages
    connections schedule m tr tid address incoming :
  run1 (started connections) schedule = Some (m, tr) →
  connections !! tid = Some (address, incoming) →
  ∃ s, (_handler_pool m !! tid = Some s)
    ∧ (location s ≠ Terminated →
       incoming = omap received_message (mine tid tr) ++ inbox s
       ∧ (omap received_message (mine tid tr) = []
          ∨ (∃ a, omap received_message (mine tid tr) = [WAdvertise a])
          ∨ ∃ a r, omap received_message (mine tid tr)
                   = [WAdvertise a; WAdvertiseResponse r])).
Proof.
  intros Hrun Hc.
  destruct (run_path _ _ _ _ _ _ _ _ _ _ Hrun Hc) as (s & Hs & Hp).
  exists s. split; [done|]. intros Hl. exact (received_path _ _ _ _ _ Hp Hl).
Qed.
(** ** The hook and the notifications of the shutdown *)

(** A handler that has returned leaves no further event. *)
Lemma return_path tid address incoming s t k :
  path1 tid address incoming s t →
  t !! k = Some (EvReturn tid) → length t = S k.
Proof.
  intros Hp Hk. on_path Hp t; concrete_lookup Hk; done.
Qed.

Lemma run_after_return connections schedule m tr n tid :
  run1 (started connections) schedule = Some (m, tr) →
  tr !! n = Some (EvReturn tid) →
  ∀ k e, (n < k)%nat → tr !! k = Some e → event_thread e ≠ tid.
Proof.
  intros Hrun Hn k e Hnk Hk He.
  destruct (event_path _ _ _ _ _ _ _ _ _ Hrun Hn) as (address & incoming & s & _ & _ & Hp & Hr).
  simpl in *.
  pose proof (return_path _ _ _ _ _ _ Hp Hr) as Hlen.
  pose proof (mine_lookup tid _ _ _ Hk He) as Hke.
  apply lookup_lt_Some in Hke.
  pose proof (rank_lt_strict tid tr n k _ Hn eq_refl Hnk). lia.
Qed.

(** What a handler does after the message that the hook names. *)
Lemma quit_path tid address incoming s t k w :
  path1 tid address incoming s t →
  t !! k = Some (EvSend tid w) ∨ t !! k = Some (EvReceive tid w) →
  _quit_after = Some (message_type w) →
  message_type w ≠ TypePeerDisconnect →
  (∀ j e, (k < j)%nat → t !! j = Some e →
     j = S k ∧ e = EvNotifyShutdown tid ∨ j = S (S k) ∧ e = EvReturn tid)
  ∧ (∀ j, t !! j = Some (EvReturn tid) →
       j = S (S k) ∧ t !! S k = Some (EvNotifyShutdown tid)).
Proof.
  intros Hp Hk Hq Hne.
  on_path Hp t; unfold responded, challenged in *; destruct_and?;
    destruct Hk as [Hk|Hk]; concrete_lookup Hk;
    unfold quit_requested in *; simpl in *;
    repeat case_bool_decide; simplify_eq; try done;
    (split; [intros j e Hj He|intros j He]; concrete_lookup He;
     first [lia | done | by auto]).
Qed.

(** X3: with [quit_after] set to the type of a message other than
    PeerDisconnect, the handler that sends or receives a message of that
    type does nothing more than notify [_shutdown_cv] and return: its later
    events in the record are that notification and that return and no
    other; it notifies at most once; and when it has returned, it has
    notified between the message and the return. *)
Theorem quit_after_ends_the_session_at_the_message
    connections schedule m tr message_type0 previous tid n w :
  _quit_after = quit_after message_type0 previous →
  message_type0 ≠ TypePeerDisconnect →
  run1 (started connections) schedule = Some (m, tr) →
  tr !! n = Some (EvSend tid w) ∨ tr !! n = Some (EvReceive tid w) →
  message_type w = message_type0 →
  (∀ k e, (n < k)%nat → tr !! k = Some e → event_thread e = tid →
     e = EvNotifyShutdown tid ∨ e = EvReturn tid)
  ∧ (∀ q q', tr !! q = Some (EvNotifyShutdown tid) →
       tr !! q' = Some (EvNotifyShutdown tid) → q = q')
  ∧ (∀ r, tr !! r = Some (EvReturn tid) →
       ∃ q, (n < q < r)%nat ∧ tr !! q = Some (EvNotifyShutdown tid)).
Proof.
  unfold quit_after. intros Hq Hne Hrun Hn Hw. subst message_type0.
  assert (∃ e0, tr !! n = Some e0 ∧ event_thread e0 = tid
                ∧ (e0 = EvSend tid w ∨ e0 = EvReceive tid w))
    as (e0 & Hn0 & Ht0 & He0).
  { destruct Hn as [Hn|Hn]; eexists; (split; [exact Hn|]); auto. }
  destruct (event_path _ _ _ _ _ _ _ _ _ Hrun Hn0)
    as (address & incoming & s & _ & _ & Hp & Hk).
  rewrite Ht0 in Hp, Hk.
  assert (mine tid tr !! rank tid tr n = Some (EvSend tid w)
          ∨ mine tid tr !! rank tid tr n = Some (EvReceive tid w)) as Hk'.
  { destruct He0 as [->| ->]; auto. }
  destruct (quit_path _ _ _ _ _ _ _ Hp Hk' Hq Hne) as [Hlater Hret].
  assert (∀ q, tr !! q = Some (EvNotifyShutdown tid) →
            (n < q)%nat ∧ rank tid tr q = S (rank tid tr n)) as Hnotified.
  { intros q Hq'. pose proof (mine_lookup tid _ _ _ Hq' eq_refl) as Hmq.
    destruct (Nat.lt_trichotomy q n) as [Hlt|[->|Hlt]].
    - pose proof (rank_lt_strict tid tr q n _ Hq' eq_refl Hlt) as Hr.
      exfalso. clear -Hp Hk' Hmq Hr Hq Hne.
      revert Hk' Hmq Hr. generalize (rank tid tr n) (rank tid tr q).
      intros k j Hk Hj Hlt.
      on_path Hp t; unfold responded, challenged in *; destruct_and?;
        destruct Hk as [Hk|Hk]; concrete_lookup Hk; concrete_lookup Hj; lia.
    - destruct He0 as [->| ->]; congruence.
    - split; [done|].
      pose proof (rank_lt_strict tid tr n q _ Hn0 Ht0 Hlt) as Hr.
      destruct (Hlater _ _ Hr Hmq) as [[? _]|[_ ?]]; done. }
  split_and!.
  - intros k e Hnk Hke He.
    pose proof (mine_lookup tid _ _ _ Hke He) as Hmk.
    pose proof (rank_lt_strict tid tr n k _ Hn0 Ht0 Hnk) as Hr.
    destruct (Hlater _ _ Hr Hmk) as [[_ ?]|[_ ?]]; auto.
  - intros q q' H1 H2.
    destruct (Hnotified _ H1) as [_ Hr1]. destruct (Hnotified _ H2) as [_ Hr2].
    eapply (rank_inj tid tr); [done..|]. by rewrite Hr1, Hr2.
  - intros r Hr.
    pose proof (mine_lookup tid _ _ _ Hr eq_refl) as Hmr.
    destruct (Hret _ Hmr) as [Hrank Hnot].
    destruct (mine_before tid tr _ _ r Hnot) as (q & Hqr & Hq' & _); [lia|].
    exists q. destruct (Hnotified _ Hq') as [? _]. split; [lia|done].
Qed.

Lemma handle_hook q q' tid s m :
  ¬ cuts_the_handshake q → ¬ cuts_the_handshake q' →
  _handle_connection public_encrypt kVersion q tid s m
  = _handle_connection public_encrypt kVersion q' tid s m.
Proof.
  unfold cuts_the_handshake. intros Hq Hq'.
  assert (∀ t, t ≠ TypePeerIdentification → t ≠ TypePeerDisconnect →
            quit_requested q t = quit_requested q' t) as Hsame.
  { intros t ? ?. unfold quit_requested.
    rewrite !bool_decide_eq_false_2; [done|..]; destruct t; naive_solver. }
  unfold _handle_connection, QUIT_IF_REQUESTED.
  destruct (location s); try done.
  - destruct (inbox s) as [|raw rest]; [done|].
    destruct (decode_Advertise raw); [|done]. by rewrite Hsame.
  - by rewrite Hsame.
  - destruct (advertise s) as [a|]; [|done]. simpl.
    destruct (public_encrypt _ _); [|done]. simpl. by rewrite Hsame.
  - destruct (inbox s) as [|raw rest]; [done|].
    destruct (decode_AdvertiseResponse raw); [|done]. by rewrite Hsame.
Qed.

(** X4: only four settings of [quit_after] change what the mediator does.
    Two settings that are both none of Advertise, AdvertiseAbort,
    AdvertiseChallenge and AdvertiseResponse give the same run under every
    schedule: after PeerIdentification and after PeerDisconnect the handler
    notifies [_shutdown_cv] and returns whether the hook asks for it or
    not. *)
Theorem quit_after_the_last_message_changes_nothing q q' m0 schedule :
  ¬ cuts_the_handshake q → ¬ cuts_the_handshake q' →
  run public_encrypt kVersion q m0 schedule
  = run public_encrypt kVersion q' m0 schedule.
Proof.
  intros Hq Hq'. revert m0.
  induction schedule as [|tid schedule IH]; intros m0; simpl; [done|].
  assert (step public_encrypt kVersion q m0 tid
          = step public_encrypt kVersion q' m0 tid) as ->.
  { unfold step. destruct (_handler_pool m0 !! tid) as [s|]; simpl; [|done].
    case_bool_decide; [done|]. by rewrite (handle_hook q q'). }
  destruct (step _ _ q' m0 tid) as [[m1 e1]|]; simpl; [|done].
  by rewrite IH.
Qed.

(** Before a return, and after a notification. *)
Lemma returned_path tid address incoming s t k :
  path1 tid address incoming s t →
  t !! k = Some (EvReturn tid) →
  ∃ j, k = S j
    ∧ (t !! j = Some (EvNotifyShutdown tid)
       ∨ (∃ key, t !! j = Some (EvAwait tid key 2000 None))
       ∨ (t !! j = Some (EvSend tid (WAdvertiseAbort
                           {| reason := abort_reason kVersion |}))
          ∧ _quit_after ≠ Some TypeAdvertiseAbort)).
Proof.
  intros Hp Hk.
  on_path Hp t; unfold responded, challenged in *; destruct_and?;
    concrete_lookup Hk; unfold quit_requested in *;
    repeat case_bool_decide; simplify_eq;
    eexists; (split; [reflexivity|]); simpl; eauto 10.
Qed.

Lemma notified_path tid address incoming s t k :
  path1 tid address incoming s t →
  t !! k = Some (EvNotifyShutdown tid) →
  (∀ j e, (k < j)%nat → t !! j = Some e → e = EvReturn tid)
  ∧ (∀ j, t !! j = Some (EvNotifyShutdown tid) → j = k).
Proof.
  intros Hp Hk.
  on_path Hp t; concrete_lookup Hk;
    (split; [intros j e Hj He|intros j He]; concrete_lookup He;
     first [lia | done]).
Qed.

(** X5: a handler returns right after it has notified [_shutdown_cv],
    except on the two bare returns of the function: when its [await] timed
    out, and after it sent the AdvertiseAbort with [quit_after] not set to
    that type.  Right after: the handler does nothing between the two.  A
    handler notifies [_shutdown_cv] at most once, and after it has notified
    it does nothing but return. *)
Theorem shutdown_is_notified_by_every_return_but_the_bare_ones
    connections schedule m tr :
  run1 (started connections) schedule = Some (m, tr) →
  (∀ n tid, tr !! n = Some (EvReturn tid) →
     ∃ k, (k < n)%nat
       ∧ (tr !! k = Some (EvNotifyShutdown tid)
          ∨ (∃ key, tr !! k = Some (EvAwait tid key 2000 None))
          ∨ (tr !! k = Some (EvSend tid (WAdvertiseAbort
                               {| reason := abort_reason kVersion |}))
             ∧ _quit_after ≠ Some TypeAdvertiseAbort))
       ∧ ∀ j e, (k < j < n)%nat → tr !! j = Some e → event_thread e ≠ tid)
  ∧ (∀ n tid, tr !! n = Some (EvNotifyShutdown tid) →
       (∀ k e, (n < k)%nat → tr !! k = Some e → event_thread e = tid →
          e = EvReturn tid)
       ∧ ∀ n', tr !! n' = Some (EvNotifyShutdown tid) → n' = n).
Proof.
  intros Hrun. split.
  - intros n tid Hn.
    destruct (event_path _ _ _ _ _ _ _ _ _ Hrun Hn)
      as (address & incoming & s & _ & _ & Hp & Hk).
    simpl in *.
    destruct (returned_path _ _ _ _ _ _ Hp Hk) as (j & Hj & Hbefore).
    assert (∃ e, mine tid tr !! j = Some e ∧ event_thread e = tid
                 ∧ (e = EvNotifyShutdown tid
                    ∨ (∃ key, e = EvAwait tid key 2000 None)
                    ∨ (e = EvSend tid (WAdvertiseAbort
                                         {| reason := abort_reason kVersion |})
                       ∧ _quit_after ≠ Some TypeAdvertiseAbort)))
      as (e & He & Ht & Hcase).
    { destruct Hbefore as [H|[[key H]|[H ?]]]; eexists; (split; [exact H|]);
        (split; [done|]); eauto 10. }
    destruct (mine_before tid tr _ _ n He) as (k & Hkn & Hke & Hrk); [lia|].
    exists k. split; [done|]. split.
    + destruct Hcase as [->|[[key ->]|[-> ?]]]; eauto 10.
    + intros i e' [Hki Hin] Hi Ht'.
      pose proof (rank_lt_strict tid tr k i _ Hke Ht Hki).
      pose proof (rank_lt_strict tid tr i n _ Hi Ht' Hin). lia.
  - intros n tid Hn.
    destruct (event_path _ _ _ _ _ _ _ _ _ Hrun Hn)
      as (address & incoming & s & _ & _ & Hp & Hk).
    simpl in *.
    destruct (notified_path _ _ _ _ _ _ Hp Hk) as [Hlater Honce]. split.
    + intros k e Hnk Hke Ht.
      pose proof (mine_lookup tid _ _ _ Hke Ht) as Hmk.
      pose proof (rank_lt_strict tid tr n k _ Hn eq_refl Hnk) as Hr.
      by eapply Hlater.
    + intros n' Hn'.
      pose proof (mine_lookup tid _ _ _ Hn' eq_refl) as Hm.
      eapply (rank_inj tid tr); [done..|]. by apply Honce.
Qed.

(** ** The call that waits for the shutdown *)

Lemma handle_notify tid s m s' m' events :
  handle tid s m = Some (s', m', events) →
  ((∃ k, events !! k = Some (EvNotifyDisconnect tid))
   ∧ _disconnect_cv (barrier m') = ∅)
  ∨ ((∀ k t, events !! k ≠ Some (EvNotifyDisconnect t))
     ∧ (_disconnect_cv (barrier m') = _disconnect_cv (barrier m)
        ∨ _disconnect_cv (barrier m') = {[tid]} ∪ _disconnect_cv (barrier m))).
Proof.
  intros H.
  handler_cases H; simpl;
    try (left; split; [by exists 0%nat|done]);
    right; (split; [intros k t Hk; concrete_lookup Hk|]); eauto.
Qed.

(** X6: a thread that is not a handler and calls [await_shutdown] sleeps on
    [_disconnect_cv]: whatever the handlers do afterwards, it is still
    asleep exactly when no handler has gone through the notification of
    [_add_to_disconnects] since the call.  The notifications of
    [_shutdown_cv] do not wake it up, nor does a disconnect that was
    completed before the call. *)
Theorem await_shutdown_returns_at_a_disconnect_only m0 caller schedule m tr :
  (length (_handler_pool m0) ≤ caller)%nat →
  run1 (await_shutdown caller m0) schedule = Some (m, tr) →
  (caller ∈ _disconnect_cv (barrier m)
   ↔ ∀ n tid, tr !! n ≠ Some (EvNotifyDisconnect tid)).
Proof.
  intros Hcaller Hrun.
  cut (length (_handler_pool m) = length (_handler_pool m0)
       ∧ (caller ∈ _disconnect_cv (barrier m)
          ↔ ∀ n tid, tr !! n ≠ Some (EvNotifyDisconnect tid))); [by intros []|].
  refine (run_ind _ _ _ (λ m tr, _ ∧ _) _ _ _ schedule m tr Hrun).
  { split; [done|]. simpl. split; [by intros _ n tid|set_solver]. }
  clear -Hcaller. intros m tr tid m' events [IHl IH] Hs.
  apply step_inv in Hs as (s & s' & mm & Hs & _ & Hh & ->).
  simpl. rewrite length_insert, (handle_pool _ _ _ _ _ _ _ _ _ Hh).
  split; [done|].
  assert (tid ≠ caller) as Hne.
  { apply lookup_lt_Some in Hs. lia. }
  destruct (handle_notify _ _ _ _ _ _ Hh) as [[[k Hk] ->]|[Hno Hcv]].
  - split; [set_solver|]. intros Hnone. exfalso.
    eapply (Hnone (length tr + k)%nat tid).
    rewrite lookup_app_r by lia.
    by replace (length tr + k - length tr)%nat with k by lia.
  - assert (caller ∈ _disconnect_cv (barrier mm)
            ↔ caller ∈ _disconnect_cv (barrier m)) as ->.
    { destruct Hcv as [->| ->]; set_solver. }
    rewrite IH. split.
    + intros Hnone n t Hn. split_lookup Hn; [by eapply Hnone|by eapply Hno].
    + intros Hnone n t Hn. eapply (Hnone n t). by apply lookup_app_l_Some.
Qed.

(** ** The store of identifiers during a run *)

Lemma registrations_app tr events :
  registrations (tr ++ events) = foldl store_effect (registrations tr) events.
Proof. unfold registrations. by rewrite foldl_app. Qed.

Lemma handle_registrations tid s m s' m' events :
  handle tid s m = Some (s', m', events) →
  _key_to_identifier_store m' = foldl store_effect (_key_to_identifier_store m) events.
Proof. intros H. handler_cases H; done. Qed.

Lemma registrations_lookup key r tr :
  registrations tr !! key = Some r ↔
  ∃ k t, tr !! k = Some (EvPut t key r)
    ∧ ∀ l t' r', (k < l)%nat → tr !! l ≠ Some (EvPut t' key r').
Proof.
  induction tr as [|e tr IH] using rev_ind.
  - split; [done|]. by intros (k & t & ? & _).
  - rewrite registrations_app. simpl.
    assert (∀ l e', (tr ++ [e]) !! l = Some e' →
              (tr !! l = Some e' ∧ (l < length tr)%nat) ∨ (l = length tr ∧ e' = e))
      as Hsnoc.
    { intros l e' Hl. split_lookup Hl.
      - left. split; [done|]. by eapply lookup_lt_Some.
      - destruct (l - length tr)%nat eqn:?; simpl in Hl; [|done].
        right. split; [lia|congruence]. }
    assert ((∃ t r', e = EvPut t key r')
            ∨ (∀ t r', e ≠ EvPut t key r')) as [(t & r' & ->)|Hother].
    { destruct e; try (right; congruence).
      destruct (decide (key0 = key)) as [->|]; [left; eauto|right; congruence]. }
    + simpl. unfold KeyToIdentifierStore.put. rewrite lookup_insert_eq. split.
      * intros [= ->]. exists (length tr), t.
        split; [by apply list_lookup_middle|].
        intros l t' r' Hl Hl'. apply lookup_lt_Some in Hl'.
        rewrite length_app in Hl'. simpl in Hl'. lia.
      * intros (k & t' & Hk & Hlast).
        apply Hsnoc in Hk as [[Hk Hlt]|[_ Heq]]; [|congruence].
        exfalso. eapply (Hlast (length tr) t r'); [done|].
        by apply list_lookup_middle.
    + assert (store_effect (registrations tr) e !! key = registrations tr !! key)
        as ->.
      { destruct e; simpl; try done. unfold KeyToIdentifierStore.put.
        apply lookup_insert_ne. intros ->. by eapply Hother. }
      rewrite IH. split.
      * intros (k & t & Hk & Hlast). exists k, t.
        split; [by apply lookup_app_l_Some|].
        intros l t' r' Hl Hl'. apply Hsnoc in Hl' as [[Hl' _]|[_ He]].
        -- by eapply Hlast.
        -- by eapply Hother.
      * intros (k & t & Hk & Hlast).
        apply Hsnoc in Hk as [[Hk Hlt]|[_ Heq]]; [|by edestruct Hother].
        exists k, t. split; [done|]. intros l t' r' Hl Hl'.
        eapply (Hlast l t' r' Hl). by apply lookup_app_l_Some.
Qed.

Lemma registrations_kept key tr n :
  is_Some (registrations (take n tr) !! key) → is_Some (registrations tr !! key).
Proof.
  rewrite <- (take_drop n tr) at 2. rewrite registrations_app.
  generalize (registrations (take n tr)). 
  induction (drop n tr) as [|e l IH]; intros st Hst; simpl; [done|].
  apply IH. destruct e; simpl; try done. unfold KeyToIdentifierStore.put.
  destruct (decide (key0 = key)) as [->|].
  - by rewrite lookup_insert_eq.
  - by rewrite lookup_insert_ne.
Qed.

Lemma run_registrations connections schedule m tr :
  run1 (started connections) schedule = Some (m, tr) →
  _key_to_identifier_store m = registrations tr
  ∧ (∀ n t key found, tr !! n = Some (EvGet t key found) →
       found = registrations (take n tr) !! key)
  ∧ (∀ n t key timeout found, tr !! n = Some (EvAwait t key timeout found) →
       found = registrations (take n tr) !! key).
Proof.
  intros Hrun.
  refine (run_ind _ _ _ (λ m tr, _ ∧ _ ∧ _) _ _ _ schedule m tr Hrun).
  { split_and!; done. }
  clear. intros m tr tid m' events (IHst & IHget & IHawait) Hs.
  apply step_inv in Hs as (s & s' & mm & _ & _ & Hh & ->). simpl.
  assert (∀ n e, (tr ++ events) !! n = Some e →
            (tr !! n = Some e ∧ take n (tr ++ events) = take n tr)
            ∨ (∃ k, events !! k = Some e ∧ n = (length tr + k)%nat))
    as Hsplit.
  { intros n e Hn. split_lookup Hn.
    - left. split; [done|]. apply lookup_lt_Some in Hn.
      rewrite take_app_le by lia. done.
    - right. exists (n - length tr)%nat. split; [done|lia]. }
  split_and!.
  - by rewrite registrations_app, (handle_registrations _ _ _ _ _ _ Hh), IHst.
  - intros n t key found Hn. apply Hsplit in Hn as [[Hn ->]|(k & Hk & ->)].
    + by eapply IHget.
    + destruct (handle_store _ _ _ _ _ _ _ _ _ Hh) as [_ Hg].
      destruct (Hg _ _ _ _ Hk) as [-> ->].
      concrete_lookup Hk.
      by rewrite Nat.add_0_r, take_app_length, IHst.
  - intros n t key timeout found Hn.
    apply Hsplit in Hn as [[Hn ->]|(k & Hk & ->)].
    + by eapply IHawait.
    + pose proof (handle_await _ _ _ _ _ _ _ _ _ _ _ _ _ _ Hh Hk) as ->.
      assert (k = 0%nat) as ->.
      { clear -Hh Hk. handler_cases Hh; concrete_lookup Hk; done. }
      by rewrite Nat.add_0_r, take_app_length, IHst.
Qed.

(** X7: the store of identifiers is what the registrations of the run make
    of the empty store: under each key it holds the record of the last
    registration under that key, and a key once registered is never
    removed, also when the handler that registered it has returned.  What
    a [get] or an [await] finds is what the registrations before it
    left under the key. *)
Theorem the_store_holds_the_last_registration_of_each_key
    connections schedule m tr :
  run1 (started connections) schedule = Some (m, tr) →
  _key_to_identifier_store m = registrations tr
  ∧ (∀ key r, _key_to_identifier_store m !! key = Some r ↔
       ∃ k t, tr !! k = Some (EvPut t key r)
         ∧ ∀ l t' r', (k < l)%nat → tr !! l ≠ Some (EvPut t' key r'))
  ∧ (∀ n key, is_Some (registrations (take n tr) !! key) →
       is_Some (_key_to_identifier_store m !! key))
  ∧ (∀ n t key found, tr !! n = Some (EvGet t key found) →
       found = registrations (take n tr) !! key)
  ∧ (∀ n t key timeout found, tr !! n = Some (EvAwait t key timeout found) →
       found = registrations (take n tr) !! key).
Proof.
  intros Hrun.
  destruct (run_registrations _ _ _ _ Hrun) as (Hst & Hget & Hawait).
  split_and!; try done.
  - intros key r. rewrite Hst. apply registrations_lookup.
  - intros n key. rewrite Hst. apply registrations_kept.
Qed.

Lemma registration_path tid address incoming s t k key record :
  path1 tid address incoming s t →
  t !! k = Some (EvPut tid key record) →
  ∃ a r rest found,
    incoming = WAdvertise a :: WAdvertiseResponse r :: rest
    ∧ k = 5%nat ∧ key = our_key a
    ∧ record = {| socket_address := address; identifier_version := version a |}
    ∧ kVersion ≤ version a
    ∧ t !! 3%nat = Some (EvReceive tid (WAdvertiseResponse r))
    ∧ t !! 4%nat = Some (EvGet tid (their_key a) found).
Proof.
  intros Hp Hk.
  on_path Hp t; unfold responded, challenged, _protocol_version in *;
    destruct_and?; concrete_lookup Hk;
    eexists _, _, _, _; split_and!; try done; lia.
Qed.

(** X8: every registration in the store is made by a handler for its own
    session: under the own key of the Advertise it received, with the
    address of its socket and the advertised version, which is not below
    the required one.  The handler has received an AdvertiseResponse and
    has looked up the target key before; it registers once. *)
Theorem a_session_registers_itself_once_after_its_response
    connections schedule m tr n tid key record :
  run1 (started connections) schedule = Some (m, tr) →
  tr !! n = Some (EvPut tid key record) →
  ∃ address a r rest found i g,
    (connections !! tid
       = Some (address, WAdvertise a :: WAdvertiseResponse r :: rest))
    ∧ key = our_key a
    ∧ record = {| socket_address := address; identifier_version := version a |}
    ∧ kVersion ≤ version a
    ∧ (i < g < n)%nat
    ∧ tr !! i = Some (EvReceive tid (WAdvertiseResponse r))
    ∧ tr !! g = Some (EvGet tid (their_key a) found)
    ∧ ∀ n' key' record', tr !! n' = Some (EvPut tid key' record') → n' = n.
Proof.
  intros Hrun Hn.
  destruct (event_path _ _ _ _ _ _ _ _ _ Hrun Hn)
    as (address & incoming & s & Hc & _ & Hp & Hr).
  simpl in *.
  destruct (registration_path _ _ _ _ _ _ _ _ Hp Hr)
    as (a & r & rest & found & -> & Hk & -> & -> & Hv & H3 & H4).
  destruct (mine_before _ _ _ _ n H4) as (g & ? & Hg & Hrg); [lia|].
  destruct (mine_before _ _ _ _ g H3) as (i & ? & Hi & Hri); [lia|].
  exists address, a, r, rest, found, i, g. split_and!; try done; try lia.
  intros n' key' record' Hn'.
  pose proof (mine_lookup tid _ _ _ Hn' eq_refl) as Hr'.
  destruct (registration_path _ _ _ _ _ _ _ _ Hp Hr')
    as (? & ? & ? & ? & _ & Hk' & _).
  eapply (rank_inj tid tr); [done..|]. lia.
Qed.

(** ** The loop that accepts connections *)

Section AcceptLoop.

Variable peer : Z → SocketAddress * list WireMessage.

Local Abbreviation run_with_accepts1 :=
  (run_with_accepts public_encrypt kVersion _quit_after peer).

Lemma handle_emplace_back tid s m x :
  handle tid s (emplace_back x m)
  = (λ o : Session * FakeMediator * list Event,
       (o.1.1, emplace_back x o.1.2, o.2)) <$> handle tid s m.
Proof.
  destruct s as [ad inb outb held loc adv resp mp ap].
  unfold _handle_connection, QUIT_IF_REQUESTED, notify_and_return,
    just_return, throw, _send_and_log, _wait_for_disconnect,
    KeyToIdentifierStore.await, KeyToIdentifierStore.get.
  destruct loc; simpl; try done.
  - destruct inb as [|raw inb]; simpl; try done.
    destruct (decode_Advertise raw); simpl; [|done].
    by destruct (quit_requested _ _).
  - by destruct (quit_requested _ _).
  - destruct adv as [a|]; simpl; [|done].
    destruct (public_encrypt _ _); simpl; [|done].
    by destruct (quit_requested _ _).
  - destruct inb as [|raw inb]; simpl; try done.
    destruct (decode_AdvertiseResponse raw); simpl; [|done].
    by destruct (quit_requested _ _).
  - by destruct adv as [a|].
  - by destruct adv as [a|].
  - destruct adv as [a|]; simpl; [|done].
    by destruct (_ !! _).
  - destruct ap as [[p|]|]; simpl; try done.
    by case_bool_decide.
  - by destruct ap as [[p|]|].
  - by destruct adv as [a|].
Qed.

Lemma step_run_turn session_fd m tid m' events :
  step1 m tid = Some (m', events) →
  step1 (_run_turn peer session_fd m) tid
  = Some (_run_turn peer session_fd m', events).
Proof.
  intros Hs. unfold _run_turn. destruct (accept session_fd) as [fd|]; [|done].
  apply step_inv in Hs as (s & s' & mm & Hs & Hcv & Hh & ->).
  unfold step. simpl. rewrite lookup_app_l by (by eapply lookup_lt_Some).
  rewrite Hs. simpl. rewrite bool_decide_eq_false_2 by done.
  rewrite handle_emplace_back, Hh. simpl.
  unfold with_handler, emplace_back. simpl.
  rewrite (handle_pool _ _ _ _ _ _ _ _ _ Hh).
  by rewrite insert_app_l by (by eapply lookup_lt_Some).
Qed.

Lemma step_run session_fds m tid m' events :
  step1 m tid = Some (m', events) →
  step1 (_run peer session_fds m) tid = Some (_run peer session_fds m', events).
Proof.
  revert m m'. induction session_fds as [|fd fds IH]; intros m m' Hs; [done|].
  simpl. apply IH. by apply step_run_turn.
Qed.

Lemma run_started session_fds connections :
  _run peer session_fds (started connections)
  = started (connections ++ (peer <$> omap accept session_fds)).
Proof.
  revert connections.
  induction session_fds as [|fd fds IH]; intros connections; simpl.
  - by rewrite app_nil_r.
  - unfold _run in IH. unfold _run_turn.
    destruct (accept fd) as [fd'|]; simpl; [|by apply IH].
    rewrite cons_middle, app_assoc, <- IH. f_equal.
    unfold started, emplace_back. simpl. by rewrite fmap_app.
Qed.

(** X9: the loop of [_run] gives every connection that [accept] hands it
    to a new handler, in the order of the accepts, and skips the failed
    accepts.  Accepting while handlers are at work changes nothing for
    them: a run in which turns of the loop and steps of handlers alternate
    ends in the same state, with the same record, as the run in which the
    same connections were all accepted before the first handler moved. *)
Theorem the_accept_loop_may_run_before_the_handlers turns m tr :
  run_with_accepts1 (started []) turns = Some (m, tr) →
  _run peer (loop_turns turns) (started [])
    = started (peer <$> filter (λ fd, 0 ≤ fd) (loop_turns turns))
  ∧ run1 (started (peer <$> filter (λ fd, 0 ≤ fd) (loop_turns turns)))
      (handler_schedule turns) = Some (m, tr).
Proof.
  intros Hrun.
  assert (∀ fds : list Z, omap accept fds = filter (λ fd, 0 ≤ fd) fds) as Hfilter.
  { induction fds as [|fd fds IH]; [done|]. simpl. unfold accept at 1.
    destruct (Z.ltb_spec fd 0).
    - rewrite filter_cons_False by lia. exact IH.
    - rewrite filter_cons_True by lia. f_equal. exact IH. }
  pose proof (run_started (loop_turns turns) []) as Hst.
  simpl in Hst. rewrite Hfilter in Hst. split; [done|]. rewrite <- Hst.
  revert m tr Hrun. generalize (started []). clear Hfilter Hst.
  induction turns as [|[fd|tid] turns IH]; intros m0 m tr Hrun; simpl in *.
  - done.
  - by apply IH.
  - destruct (step1 m0 tid) as [[m1 e1]|] eqn:Hs; simpl in Hrun; [|done].
    destruct (run_with_accepts1 m1 turns) as [[m2 e2]|] eqn:Hr;
      simpl in Hrun; [|done].
    simplify_eq. rewrite (step_run _ _ _ _ _ Hs). simpl.
    by rewrite (IH _ _ _ Hr).
Qed.

End AcceptLoop.

(** ** Where a handler can stop *)

(** X10: a handler that cannot take a step has ended, or is in [receive]
    with nothing to read on its socket, or is asleep in
    [_wait_for_disconnect]; in the last case, when the address it waits for
    is in the set of completed disconnects already, the handler that
    inserted it stands before its notification and can take that step.
    No other statement of the function blocks for ever: [await] ends by
    its timeout, and a send is taken not to block. *)
Theorem a_handler_stops_only_at_a_receive_or_at_the_barrier
    connections schedule m tr tid s :
  run1 (started connections) schedule = Some (m, tr) →
  _handler_pool m !! tid = Some s →
  step1 m tid = None →
  (location s = Returned ∨ location s = Terminated)
  ∨ ((location s = AtReceiveAdvertise ∨ location s = AtReceiveAdvertiseResponse)
     ∧ inbox s = [])
  ∨ (location s = AtWaitForDisconnect
     ∧ tid ∈ _disconnect_cv (barrier m)
     ∧ ∃ p, awaited_peer s = Some (Some p)
         ∧ (socket_address p ∈ _completed_disconnects (barrier m) →
            ∃ t' s', (_handler_pool m !! t' = Some s')
              ∧ location s' = AtNotifyDisconnect
              ∧ is_Some (step1 m t'))).
Proof.
  intros Hrun Hs Hnone.
  destruct (decide (tid ∈ _disconnect_cv (barrier m))) as [Hcv|Hcv].
  - right. right.
    destruct (run_no_lost_wakeup _ _ _ _ _ _ _ _ Hrun Hcv)
      as (s0 & p & Hs0 & Hloc & Hp & Hwake).
    simplify_eq. split_and!; [done..|]. exists p. split; [done|].
    intros Hin. destruct (Hwake Hin) as (t' & s' & Hs' & Hloc').
    exists t', s'. split_and!; [done..|].
    unfold step. rewrite Hs'. simpl.
    rewrite bool_decide_eq_false_2.
    + unfold _handle_connection. rewrite Hloc'. by eexists.
    + intros Hcv'.
      destruct (run_asleep _ _ _ _ _ _ _ _ Hrun Hcv') as (s1 & Hs1 & Hloc1).
      simplify_eq. congruence.
  - destruct (run_threads _ _ _ _ _ _ _ Hrun) as [Hlen _].
    simpl in Hlen. rewrite length_fmap in Hlen.
    destruct (lookup_lt_is_Some_2 connections tid) as [[address incoming] Hc].
    { rewrite <- Hlen. by eapply lookup_lt_Some. }
    destruct (run_path _ _ _ _ _ _ _ _ _ _ Hrun Hc) as (s0 & Hs0 & Hp).
    simplify_eq.
    destruct (decide (location s = Returned)); [by auto|].
    destruct (decide (location s = Terminated)); [by auto|].
    destruct (decide ((location s = AtReceiveAdvertise
                       ∨ location s = AtReceiveAdvertiseResponse)
                      ∧ inbox s = [])) as [|Hmove]; [by auto|].
    exfalso.
    destruct (handle_moves _ _ _ _ _ _ _ _ m Hp) as (s' & m' & events & Hh & _);
      [done|done|naive_solver|].
    unfold step in Hnone. rewrite Hs in Hnone. simpl in Hnone.
    rewrite bool_decide_eq_false_2 in Hnone by done.
    by rewrite Hh in Hnone.
Qed.

(** ** What a peer is sent *)

Lemma outbox_path tid address incoming s t :
  path1 tid address incoming s t →
  (outbox s = []
   ∨ (∃ a rest, incoming = WAdvertise a :: rest
        ∧ version a < kVersion
        ∧ outbox s = [WAdvertiseAbort {| reason := abort_reason kVersion |}]
        ∧ location s = Returned)
   ∨ (∃ a rest c, incoming = WAdvertise a :: rest
        ∧ kVersion ≤ version a
        ∧ public_encrypt (our_key a) "1337" = Some c
        ∧ (outbox s = [WAdvertiseChallenge {| encrypted_nonce := c |}]
           ∨ (∃ p, outbox s = [WAdvertiseChallenge {| encrypted_nonce := c |};
                               WPeerIdentification
                                 {| peer_version := identifier_version p;
                                    peer_ip := ip (socket_address p);
                                    peer_port := port (socket_address p) |}]
                ∧ location s = Returned)
           ∨ outbox s = [WAdvertiseChallenge {| encrypted_nonce := c |};
                         WPeerDisconnect {| disconnect_port := port address |}])))
  ∧ (socket_held s = false ↔ location s = Returned ∨ location s = Terminated).
Proof.
  intros Hp.
  on_path Hp t; unfold responded, challenged, _protocol_version in *;
    destruct_and?;
    (split; [|split; [try done; by eauto|naive_solver]]);
    try (by left);
    try (right; left; eexists _, _; split_and!; [done|lia|done|done]);
    right; right; eexists _, _, _; (split_and!; [done|lia|done|]); eauto 10.
Qed.

(** X11: on its socket a peer is sent nothing, or the AdvertiseAbort alone
    (its version was below the required one), or the AdvertiseChallenge
    (its version was not below, and the challenge is the encryption under
    its own key) followed by at most one of PeerIdentification and
    PeerDisconnect, never by both.  The handler holds the socket exactly
    as long as it has not ended. *)
Theorem a_peer_is_sent_at_most_two_messages
    connections schedule m tr tid address incoming :
  run1 (started connections) schedule = Some (m, tr) →
  connections !! tid = Some (address, incoming) →
  ∃ s, (_handler_pool m !! tid = Some s)
    ∧ (outbox s = []
       ∨ (∃ a rest, incoming = WAdvertise a :: rest
            ∧ version a < kVersion
            ∧ outbox s = [WAdvertiseAbort {| reason := abort_reason kVersion |}]
            ∧ location s = Returned)
       ∨ (∃ a rest c, incoming = WAdvertise a :: rest
            ∧ kVersion ≤ version a
            ∧ public_encrypt (our_key a) "1337" = Some c
            ∧ (outbox s = [WAdvertiseChallenge {| encrypted_nonce := c |}]
               ∨ (∃ p, outbox s = [WAdvertiseChallenge {| encrypted_nonce := c |};
                                   WPeerIdentification
                                     {| peer_version := identifier_version p;
                                        peer_ip := ip (socket_address p);
                                        peer_port := port (socket_address p) |}]
                    ∧ location s = Returned)
               ∨ outbox s = [WAdvertiseChallenge {| encrypted_nonce := c |};
                             WPeerDisconnect {| disconnect_port := port address |}])))
    ∧ (socket_held s = false ↔ location s = Returned ∨ location s = Terminated).
Proof.
  intros Hrun Hc.
  destruct (run_path _ _ _ _ _ _ _ _ _ _ Hrun Hc) as (s & Hs & Hp).
  exists s. split; [done|]. by eapply outbox_path.
Qed.

(** ** Every run ends *)

Lemma events_bound (bound N : nat) (tr : list Event) :
  (∀ n e, tr !! n = Some e → (event_thread e < N)%nat) →
  (∀ tid, (length (mine tid tr) ≤ bound)%nat) →
  (length tr ≤ bound * N)%nat.
Proof.
  revert tr. induction N as [|N IH]; intros tr Hthread Hmine.
  - destruct tr as [|e tr]; [simpl; lia|].
    specialize (Hthread 0%nat e eq_refl). lia.
  - pose proof (filter_app_complement (λ e, event_thread e = N) tr) as Hperm.
    apply Permutation_length in Hperm. rewrite length_app in Hperm.
    fold (mine N tr) in Hperm.
    specialize (Hmine N) as HN.
    assert (length (filter (λ e, ¬ event_thread e = N) tr) ≤ bound * N)%nat.
    { apply IH.
      - intros n e Hn. apply list_elem_of_lookup_2, list_elem_of_filter in Hn as [Hne Hin].
        apply list_elem_of_lookup in Hin as [n' Hn'].
        specialize (Hthread _ _ Hn'). lia.
      - intros tid.
        assert (mine tid (filter (λ e, ¬ event_thread e = N) tr)
                = filter (λ e, ¬ event_thread e = N) (mine tid tr)) as ->.
        { unfold mine. rewrite !list_filter_filter.
          apply list_filter_iff. naive_solver. }
        etrans; [apply length_filter|apply Hmine]. }
    lia.
Qed.

(** X12: the mediator never runs on for ever.  In every run a handler
    leaves at most eleven events; with [n] connections the record has at
    most [11 * n] events and the run at most [(n + 1) * 11 * n + n] steps,
    the passes of [_wait_for_disconnect] that sent a handler to sleep
    included. *)
Theorem every_run_is_bounded connections schedule m tr :
  run1 (started connections) schedule = Some (m, tr) →
  let n := length connections in
  (∀ tid, length (mine tid tr) ≤ 11)%nat
  ∧ (length tr ≤ 11 * n)%nat
  ∧ (length schedule ≤ (n + 1) * (11 * n) + n)%nat.
Proof.
  intros Hrun n.
  destruct (run_threads _ _ _ _ _ _ _ Hrun) as [_ Hthread].
  simpl in Hthread. rewrite length_fmap in Hthread.
  assert (∀ tid, length (mine tid tr) ≤ 11)%nat as Hmine.
  { intros tid.
    destruct (connections !! tid) as [[address incoming]|] eqn:Hc.
    - destruct (run_path _ _ _ _ _ _ _ _ _ _ Hrun Hc) as (s & _ & Hp).
      by eapply path_length.
    - destruct (mine tid tr) as [|e t] eqn:Hm; [simpl; lia|].
      assert (e ∈ mine tid tr) as Hin by (rewrite Hm; left).
      apply list_elem_of_filter in Hin as [<- Hin].
      apply list_elem_of_lookup in Hin as [k Hk].
      apply Hthread in Hk. apply lookup_ge_None in Hc. lia. }
  pose proof (events_bound 11 n tr Hthread Hmine) as Htr.
  pose proof (run_bounded _ _ _ _ _ _ _ Hrun) as Hsched.
  fold n in Hsched. split_and!; [done..|]. nia.
Qed.

(** ** A session that names itself *)

Lemma await_path tid address incoming s t k key timeout found :
  path1 tid address incoming s t →
  t !! k = Some (EvAwait tid key timeout found) →
  ∃ a rest,
    incoming = WAdvertise a :: rest ∧ k = 6%nat ∧ key = their_key a
    ∧ t !! 5%nat = Some (EvPut tid (our_key a)
                           {| socket_address := address;
                              identifier_version := version a |})
    ∧ (∀ p e j, found = Some p → t !! j = Some e → (6 < j)%nat →
         t !! 7%nat = Some (EvWaitReturned tid (socket_address p)))
    ∧ ∀ key' found', t !! 4%nat ≠ Some (EvGet tid key' (Some found')).
Proof.
  intros Hp Hk.
  on_path Hp t; unfold responded, challenged in *; destruct_and?;
    concrete_lookup Hk; eexists _, _; split_and!; try done;
    intros p0 e j [= <-] Hj Hlt;
    first [done | apply lookup_lt_Some in Hj; simpl in Hj; lia].
Qed.

Lemma registrations_found key r tr n u t :
  tr !! u = Some (EvPut t key r) → (u < n)%nat →
  is_Some (registrations (take n tr) !! key).
Proof.
  intros Hu Hlt.
  apply (registrations_kept key (take n tr) (S u)).
  rewrite take_take, Nat.min_l by lia.
  rewrite (take_S_r _ _ _ Hu), registrations_app. simpl.
  unfold KeyToIdentifierStore.put. by rewrite lookup_insert_eq.
Qed.

Lemma awaited_location tid address incoming s t key timeout p :
  path1 tid address incoming s t →
  t !! 6%nat = Some (EvAwait tid key timeout (Some p)) →
  length t = 7%nat →
  location s = AtWaitForDisconnect ∧ socket_held s = true.
Proof.
  intros Hp H6 Hlen. on_path Hp t; concrete_lookup H6; done.
Qed.

(** A handler that leaves no event after its [await] found a record is
    still in [_wait_for_disconnect]. *)
Lemma stays_at_the_barrier connections schedule m tr tid n key timeout p :
  run1 (started connections) schedule = Some (m, tr) →
  tr !! n = Some (EvAwait tid key timeout (Some p)) →
  (∀ k e, (n < k)%nat → tr !! k = Some e → event_thread e ≠ tid) →
  ∃ s, (_handler_pool m !! tid = Some s)
    ∧ location s = AtWaitForDisconnect ∧ socket_held s = true.
Proof.
  intros Hrun Hn Hafter.
  destruct (event_path _ _ _ _ _ _ _ _ _ Hrun Hn)
    as (address & incoming & s & _ & Hs & Hp & Hr).
  simpl in *.
  destruct (await_path _ _ _ _ _ _ _ _ _ Hp Hr) as (a & rest & _ & Hk & _).
  rewrite Hk in Hr.
  exists s. split; [done|]. eapply awaited_location; [done..|].
  pose proof (lookup_lt_Some _ _ _ Hr) as Hlt.
  destruct (decide (length (mine tid tr) = 7%nat)) as [|Hne]; [done|].
  destruct (lookup_lt_is_Some_2 (mine tid tr) 7%nat) as [e He]; [lia|].
  destruct (mine_lookup_inv _ _ _ _ He) as (i & Hi & Hri & Hti).
  exfalso. eapply (Hafter i e); [|done..].
  eapply (rank_lt tid tr). rewrite Hk, Hri. lia.
Qed.

(** X13: a session that names its own key as the key of its peer, when no
    other session advertises that key and no two connections share an
    address: its [await] never times out, it finds the record the session
    itself has just registered, and the handler then waits in
    [_wait_for_disconnect] for its own address, which nobody completes.
    After the [await] the handler leaves no event: it sends no
    PeerIdentification and never returns, but stays in
    [_wait_for_disconnect] with its socket. *)
Theorem a_session_that_names_itself_waits_for_itself
    connections schedule m tr tid address a rest :
  connections !! tid = Some (address, WAdvertise a :: rest) →
  their_key a = our_key a →
  NoDup (connections.*1) →
  (∀ j address' a' rest',
     connections !! j = Some (address', WAdvertise a' :: rest') →
     our_key a' = our_key a → j = tid) →
  run1 (started connections) schedule = Some (m, tr) →
  ∀ n key timeout found,
    tr !! n = Some (EvAwait tid key timeout found) →
    found = Some {| socket_address := address; identifier_version := version a |}
    ∧ (∀ k e, (n < k)%nat → tr !! k = Some e → event_thread e ≠ tid)
    ∧ ∃ s, (_handler_pool m !! tid = Some s)
        ∧ location s = AtWaitForDisconnect ∧ socket_held s = true.
Proof.
  intros Hc Hself Hnodup Hunique Hrun n key timeout found Hn.
  cut (found = Some {| socket_address := address;
                       identifier_version := version a |}
       ∧ ∀ k e, (n < k)%nat → tr !! k = Some e → event_thread e ≠ tid).
  { intros [-> Hafter]. split_and!; [done..|]. by eapply stays_at_the_barrier. }
  destruct (event_path _ _ _ _ _ _ _ _ _ Hrun Hn)
    as (address0 & incoming & s & Hc0 & _ & Hp & Hr).
  simpl in *. simplify_eq.
  destruct (await_path _ _ _ _ _ _ _ _ _ Hp Hr)
    as (a0 & rest0 & Hinc & Hk & -> & H5 & Hnext & Hclient).
  simplify_eq.
  destruct (mine_before _ _ _ _ n H5) as (u & Hun & Hu & _); [lia|].
  destruct (run_registrations _ _ _ _ Hrun) as (_ & _ & Hawait).
  pose proof (Hawait _ _ _ _ _ Hn) as Hfound.
  assert (is_Some (registrations (take n tr) !! their_key a0)) as [p Hp0].
  { eapply registrations_found; [|done]. rewrite Hself. exact Hu. }
  rewrite Hp0 in Hfound. subst found.
  destruct (run_store_value _ _ _ _ _ _ _ Hrun) as [_ Hvalue].
  destruct (Hvalue _ _ _ _ _ Hn) as (u' & t' & _ & Hu').
  destruct (event_path _ _ _ _ _ _ _ _ _ Hrun Hu')
    as (address' & incoming' & s' & Hc' & _ & Hp' & Hr').
  simpl in *.
  destruct (put_path_record _ _ _ _ _ _ _ _ _ _ _ Hp' Hr')
    as (a' & rest' & -> & Hkey & Hrecord).
  assert (t' = tid) as -> by (eapply Hunique; [done|congruence]).
  simplify_eq. split; [done|].
  intros k e Hnk Hke0 He.
  pose proof (mine_lookup _ _ _ _ Hke0 He) as Hke.
  pose proof (rank_lt_strict _ tr n k _ Hn eq_refl Hnk) as Hrank.
  simpl in Hrank. rewrite Hk in Hrank.
  pose proof (Hnext _ _ _ eq_refl Hke Hrank) as H7. simpl in H7.
  destruct (mine_lookup_inv _ _ _ _ H7) as (l & Hl & _ & _).
  destruct (run_replay _ _ _ _ _ _ _ Hrun) as [_ Hret].
  apply Hret, replay_elem in Hl as (k' & j & Hk' & _).
  pose proof (lookup_lt_Some _ _ _ Hk') as Hkl. rewrite length_take in Hkl.
  rewrite lookup_take_lt in Hk' by lia.
  destruct (event_path _ _ _ _ _ _ _ _ _ Hrun Hk')
    as (addressj & incomingj & sj & Hcj & _ & Hpj & Hrj).
  simpl in *.
  destruct (mark_complete_path _ _ _ _ _ _ _ _ _ _ Hpj Hrj)
    as (adv & found' & _ & Ha & H4 & _).
  subst addressj.
  assert (j = tid) as ->.
  { eapply (NoDup_lookup _ _ _ _ Hnodup).
    - by rewrite list_lookup_fmap, Hcj.
    - by rewrite list_lookup_fmap, Hc. }
  by eapply Hclient.
Qed.

(** X16: an Initiator is never let through the barrier on account of
    another Initiator.  When no two connections share an address and the
    record that the [await] of a handler found has the address of a session
    whose own lookup found nothing, the handler leaves no event after the
    [await]: it is sent no PeerIdentification and never returns, but
    stays in [_wait_for_disconnect] with its socket.  Two sessions that
    both looked the other up before either had registered wait for each
    other in this way. *)
Theorem an_initiator_is_not_woken_by_an_initiator
    connections schedule m tr tid n key timeout p j incoming g key' :
  NoDup (connections.*1) →
  run1 (started connections) schedule = Some (m, tr) →
  tr !! n = Some (EvAwait tid key timeout (Some p)) →
  connections !! j = Some (socket_address p, incoming) →
  tr !! g = Some (EvGet j key' None) →
  (∀ k e, (n < k)%nat → tr !! k = Some e → event_thread e ≠ tid)
  ∧ ∃ s, (_handler_pool m !! tid = Some s)
      ∧ location s = AtWaitForDisconnect ∧ socket_held s = true.
Proof.
  intros Hnodup Hrun Hn Hj Hg.
  cut (∀ k e, (n < k)%nat → tr !! k = Some e → event_thread e ≠ tid).
  { intros Hafter. split; [done|]. by eapply stays_at_the_barrier. }
  intros k e Hnk Hke0 He.
  destruct (event_path _ _ _ _ _ _ _ _ _ Hrun Hn)
    as (address & incoming0 & s & Hc & _ & Hp & Hr).
  simpl in *.
  destruct (await_path _ _ _ _ _ _ _ _ _ Hp Hr)
    as (a & rest & _ & Hk & _ & _ & Hnext & _).
  pose proof (mine_lookup _ _ _ _ Hke0 He) as Hke.
  pose proof (rank_lt_strict _ tr n k _ Hn eq_refl Hnk) as Hrank.
  simpl in Hrank. rewrite Hk in Hrank.
  pose proof (Hnext _ _ _ eq_refl Hke Hrank) as H7.
  destruct (mine_lookup_inv _ _ _ _ H7) as (l & Hl & _ & _).
  destruct (run_replay _ _ _ _ _ _ _ Hrun) as [_ Hret].
  apply Hret, replay_elem in Hl as (k' & j' & Hk' & _).
  pose proof (lookup_lt_Some _ _ _ Hk') as Hkl. rewrite length_take in Hkl.
  rewrite lookup_take_lt in Hk' by lia.
  destruct (event_path _ _ _ _ _ _ _ _ _ Hrun Hk')
    as (addressj & incomingj & sj & Hcj & _ & Hpj & Hrj).
  simpl in *.
  destruct (mark_complete_path _ _ _ _ _ _ _ _ _ _ Hpj Hrj)
    as (adv & found' & _ & Ha & H4 & _).
  subst addressj.
  assert (j' = j) as ->.
  { eapply (NoDup_lookup _ _ _ _ Hnodup).
    - by rewrite list_lookup_fmap, Hcj.
    - by rewrite list_lookup_fmap, Hj. }
  pose proof (mine_lookup j _ _ _ Hg eq_refl) as Hgj.
  destruct (get_path _ _ _ _ _ _ _ _ _ _ _ Hpj Hgj) as [Hg4 _].
  rewrite Hg4 in Hgj. congruence.
Qed.

(** ** The order of the handshake *)

Lemma order_path tid address incoming s t :
  path1 tid address incoming s t →
  (∀ k w, t !! k = Some (EvSend tid w) →
     (0 < k)%nat ∧ ∃ a, t !! 0%nat = Some (EvReceive tid (WAdvertise a)))
  ∧ (∀ k r, t !! k = Some (EvReceive tid (WAdvertiseResponse r)) →
       k = 3%nat
       ∧ ∃ c, t !! 2%nat = Some (EvSend tid (WAdvertiseChallenge c)))
  ∧ (∀ k e, t !! k = Some e →
       (∃ key found, e = EvGet tid key found)
       ∨ (∃ key record, e = EvPut tid key record)
       ∨ (∃ key timeout found, e = EvAwait tid key timeout found)
       ∨ (∃ a, e = EvWaitReturned tid a)
       ∨ (∃ a, e = EvMarkComplete tid a) →
       (3 < k)%nat
       ∧ ∃ r, t !! 3%nat = Some (EvReceive tid (WAdvertiseResponse r))).
Proof.
  intros Hp. split_and!.
  - intros k w Hk. on_path Hp t; concrete_lookup Hk; (split; [lia|by eauto]).
  - intros k r Hk. on_path Hp t; concrete_lookup Hk; (split; [lia|by eauto]).
  - intros k e Hk He.
    on_path Hp t; concrete_lookup Hk;
      try (exfalso; clear -He; naive_solver);
      (split; [lia|by eauto]).
Qed.

(** X17: a handler goes through the handshake in the order of the
    function.  It sends nothing before it has received the Advertise; it
    reads the AdvertiseResponse only after it has sent the
    AdvertiseChallenge; and it touches neither the store of identifiers
    nor the set of completed disconnects before it has received the
    AdvertiseResponse. *)
Theorem a_session_goes_through_the_handshake_in_order
    connections schedule m tr :
  run1 (started connections) schedule = Some (m, tr) →
  (∀ n tid w, tr !! n = Some (EvSend tid w) →
     ∃ i a, (i < n)%nat ∧ tr !! i = Some (EvReceive tid (WAdvertise a)))
  ∧ (∀ n tid r, tr !! n = Some (EvReceive tid (WAdvertiseResponse r)) →
       ∃ i c, (i < n)%nat
         ∧ tr !! i = Some (EvSend tid (WAdvertiseChallenge c)))
  ∧ (∀ n tid e, tr !! n = Some e →
       (∃ key found, e = EvGet tid key found)
       ∨ (∃ key record, e = EvPut tid key record)
       ∨ (∃ key timeout found, e = EvAwait tid key timeout found)
       ∨ (∃ a, e = EvWaitReturned tid a)
       ∨ (∃ a, e = EvMarkComplete tid a) →
       ∃ i r, (i < n)%nat
         ∧ tr !! i = Some (EvReceive tid (WAdvertiseResponse r))).
Proof.
  intros Hrun. split_and!.
  - intros n tid w Hn.
    destruct (event_path _ _ _ _ _ _ _ _ _ Hrun Hn)
      as (address & incoming & s & _ & _ & Hp & Hr).
    simpl in *.
    destruct (order_path _ _ _ _ _ Hp) as (Hsend & _ & _).
    destruct (Hsend _ _ Hr) as (Hlt & a & H0).
    destruct (mine_before _ _ _ _ n H0) as (i & ? & Hi & _); [lia|].
    by exists i, a.
  - intros n tid r Hn.
    destruct (event_path _ _ _ _ _ _ _ _ _ Hrun Hn)
      as (address & incoming & s & _ & _ & Hp & Hr).
    simpl in *.
    destruct (order_path _ _ _ _ _ Hp) as (_ & Hresponse & _).
    destruct (Hresponse _ _ Hr) as (Hk & c & H2).
    destruct (mine_before _ _ _ _ n H2) as (i & ? & Hi & _); [lia|].
    by exists i, c.
  - intros n tid e Hn He.
    assert (event_thread e = tid) as Ht by (clear -He; naive_solver).
    destruct (event_path _ _ _ _ _ _ _ _ _ Hrun Hn)
      as (address & incoming & s & _ & _ & Hp & Hr).
    rewrite Ht in Hp, Hr.
    destruct (order_path _ _ _ _ _ Hp) as (_ & _ & Hshared).
    destruct (Hshared _ _ Hr He) as (Hk & r & H3).
    destruct (mine_before _ _ _ _ n H3) as (i & ? & Hi & _); [lia|].
    by exists i, r.
Qed.

End Coverage.

(** * The listening socket *)

Section Descriptors.

Import LocalListeningSocket.

Lemma open_descriptors_app calls others :
  open_descriptors (calls ++ others)
  = foldl descriptor_effect (open_descriptors calls) others.
Proof. unfold open_descriptors. by rewrite foldl_app. Qed.

Lemma open_descriptors_snoc calls c :
  open_descriptors (calls ++ [c]) = descriptor_effect (open_descriptors calls) c.
Proof. by rewrite open_descriptors_app. Qed.

Lemma descriptor_kept fd calls others i :
  0 ≤ fd →
  others !! i = Some (sys_socket, fd) →
  (∀ j r, (i < j)%nat → others !! j ≠ Some (sys_close fd, r)) →
  fd ∈ open_descriptors (calls ++ others).
Proof.
  intros Hfd. revert i.
  induction others as [|c others IH] using rev_ind; intros i Hi Hlast; [done|].
  rewrite app_assoc, open_descriptors_snoc.
  destruct (decide (i = length others)) as [->|Hne].
  - rewrite list_lookup_middle in Hi by done. simplify_eq. simpl.
    rewrite (proj2 (Z.ltb_ge _ _) Hfd). set_solver.
  - assert (i < length others)%nat as Hlt.
    { apply lookup_lt_Some in Hi. rewrite length_app in Hi. simpl in Hi. lia. }
    rewrite lookup_app_l in Hi by done.
    assert (fd ∈ open_descriptors (calls ++ others)) as Hin.
    { eapply IH; [done|]. intros j r Hj Hj'. eapply (Hlast j r Hj).
      by apply lookup_app_l_Some. }
    destruct c as [[] r]; simpl; try done.
    + case_match; set_solver.
    + case_match; set_solver.
    + assert (sockfd ≠ fd); [|set_solver].
      intros ->. eapply (Hlast (length others) r); [done|].
      by apply list_lookup_middle.
Qed.

End Descriptors.

Section ListeningSocket.

Import LocalListeningSocket.

Variable local_ip : string.
Variable inet_addr : string → Z.
Variable htons : Z → Z.
Variable ntohs : Z → Z.
Variable kernel : list (Syscall * Z) → Syscall → Z.
Variable sockname : list (Syscall * Z) → Z → Z.

Local Abbreviation construct :=
  (LocalListeningSocket local_ip inet_addr htons ntohs kernel sockname).

(** X14: what the construction of a listening socket leaves behind.  It
    throws "Failed to open socket" when [socket] fails, and no descriptor
    is opened; it throws "ERROR on binding" when [bind] fails, and the
    descriptor that [socket] gave stays open with no object to close it;
    otherwise it gives an object whose descriptor is the one more that is
    open, whatever [listen] returned.  The address of the object has the
    port that was asked for, also when that is 0, and for the constructor
    without a port the port that [getsockname] names. *)
Theorem a_failed_bind_leaves_the_descriptor_open requested calls :
  let sockfd := kernel calls sys_socket in
  let bind :=
    sys_bind sockfd (inet_addr local_ip)
      (htons (default INADDR_ANY requested mod 65536)) in
  let bound := kernel (calls ++ [(sys_socket, sockfd)]) bind in
  match construct requested calls with
  | (Value this, calls') =>
      0 ≤ sockfd ∧ 0 ≤ bound
      ∧ _sockfd this = sockfd
      ∧ open_descriptors calls' = {[sockfd]} ∪ open_descriptors calls
      ∧ get_socket_address local_ip this =
          {| ip := local_ip;
             port := match requested with
                     | Some asked => asked
                     | None =>
                         ntohs (sockname (calls ++ [(sys_socket, sockfd);
                                                    (bind, bound)]) sockfd)
                     end |}
  | (Exception what, calls') =>
      (what = "Failed to open socket" ∧ sockfd < 0
       ∧ open_descriptors calls' = open_descriptors calls)
      ∨ (what = "ERROR on binding" ∧ 0 ≤ sockfd ∧ bound < 0
         ∧ open_descriptors calls' = {[sockfd]} ∪ open_descriptors calls)
  end.
Proof.
  intros sockfd bind bound.
  unfold LocalListeningSocket, create_socket_fd, port_from_socket, call,
    get_socket_address.
  fold sockfd.
  assert (∀ fds, descriptor_effect fds (sys_socket, sockfd)
                 = if sockfd <? 0 then fds else {[sockfd]} ∪ fds) as Hsocket
    by done.
  destruct requested as [asked|]; simpl;
    change (kernel (calls ++ [(sys_socket, sockfd)]) (sys_bind _ _ _)) with bound;
    destruct (Z.ltb_spec sockfd 0) as [Hs|Hs]; simpl;
    try (left; split_and!; [done..|];
         rewrite open_descriptors_snoc, Hsocket;
         by destruct (Z.ltb_spec sockfd 0); [|lia]);
    destruct (Z.ltb_spec bound 0) as [Hb|Hb]; simpl;
    try right; split_and!; try done;
    try (by rewrite !open_descriptors_snoc, Hsocket);
    by rewrite <- app_assoc.
Qed.

End ListeningSocket.

Section Closing.

Import LocalListeningSocket.

Variable kernel : list (Syscall * Z) → Syscall → Z.

Local Abbreviation close1 := (close kernel).
Local Abbreviation destructor1 := (destructor kernel).

(** X15: [close] does not remember that it was called, and the destructor
    calls it.  After [close] the descriptor of the object is not open; when
    the object is destroyed later, the descriptor is closed a second time:
    if in between a call to [socket] has given the same number to another
    socket, which was not closed since, it is that socket that the
    destructor closes. *)
Theorem the_destructor_closes_the_number_a_second_time this calls others i :
  0 ≤ _sockfd this →
  others !! i = Some (sys_socket, _sockfd this) →
  (∀ j r, (i < j)%nat → others !! j ≠ Some (sys_close (_sockfd this), r)) →
  (_sockfd this ∉ open_descriptors (close1 this calls))
  ∧ (_sockfd this ∈ open_descriptors (close1 this calls ++ others))
  ∧ (_sockfd this ∉ open_descriptors (destructor1 this (close1 this calls ++ others)))
  ∧ ∃ r r',
      destructor1 this (close1 this calls ++ others)
      = calls ++ [(sys_close (_sockfd this), r)] ++ others
          ++ [(sys_close (_sockfd this), r')].
Proof.
  intros Hfd Hi Hlast. unfold destructor, close, call. simpl. split_and!.
  - rewrite open_descriptors_snoc. simpl. set_solver.
  - by eapply descriptor_kept.
  - rewrite open_descriptors_snoc. simpl. set_solver.
  - eexists _, _. by rewrite <- !app_assoc.
Qed.

End Closing.

(** ** The theorems at work on the concrete rendezvous *)

Import Scenario.

Local Open Scope nat_scope.

Ltac run_it := vm_compute; reflexivity.



Lemma role_follows_the_order_at_the_store_witness :
  ∃ m tr found,
    run encrypt 1 None (started connections) in_time = Some (m, tr)
    ∧ tr !! 10 = Some (EvGet 1 "ka" (Some found))
    ∧ (∃ k r, k < 10 ∧ tr !! k = Some (EvPut 0 "ka" r))
    ∧ ∀ k e, 10 < k → tr !! k = Some e → event_thread e = 1 →
        on_branch Responder e.
Proof.
  unshelve epose proof
    (role_follows_the_order_at_the_store
       encrypt 1 None connections in_time _ _ 0 1
       addressA advA [WAdvertiseResponse proof]
       addressB advB [WAdvertiseResponse proof]
       eq_refl eq_refl eq_refl eq_refl _ _) as H;
    [shelve|shelve|
     intros [|[|t]] address a rest Ht _; auto; discriminate Ht|run_it|].
  destruct H as (_ & HB & Hbranch & _).
  eexists _, _, _. split; [run_it|]. split; [run_it|]. split.
  - destruct (HB 10 "ka" _ eq_refl) as [_ [Hfound _]]. by apply Hfound.
  - destruct (Hbranch 1 10 "ka" _ eq_refl) as (s & _ & _ & Hafter).
    exact Hafter.
Defined.

Lemma old_version_is_answered_by_one_abort_witness :
  ∃ m tr s,
    run encrypt 1 None (started old_connection) [0; 0] = Some (m, tr)
    ∧ _handler_pool m !! 0 = Some s
    ∧ outbox s = [WAdvertiseAbort {| reason := "Required protocol version: 1" |}]
    ∧ socket_held s = false.
Proof.
  eexists _, _, _. split; [run_it|]. split; [run_it|].
  destruct (old_version_is_answered_by_one_abort
              encrypt 1 None old_connection [0; 0] _ _ 0 addressA old []
              eq_refl eq_refl ltac:(discriminate) ltac:(run_it))
    as (_ & _ & s & Hs & _ & _ & _ & Hreturned).
  vm_compute in Hs. injection Hs as <-.
  destruct (Hreturned eq_refl) as (Hout & Hheld & _). by split.
Defined.

Lemma await_timeout_ends_the_session_silently_witness :
  ∃ m tr s,
    run encrypt 1 None (started connections) [0; 0; 0; 0; 0; 0] = Some (m, tr)
    ∧ _handler_pool m !! 0 = Some s
    ∧ tr !! 6 = Some (EvAwait 0 "kb" 2000 None)
    ∧ tr !! 7 = Some (EvReturn 0)
    ∧ location s = Returned ∧ socket_held s = false
    ∧ outbox s = [WAdvertiseChallenge {| encrypted_nonce := "ka/1337" |}].
Proof.
  eexists _, _, _. split; [run_it|]. split; [run_it|]. split; [run_it|].
  destruct (await_timeout_ends_the_session_silently
              encrypt 1 None connections [0; 0; 0; 0; 0; 0] _ _ 0 _
              ltac:(run_it) ltac:(run_it)) as [_ Htimeout].
  destruct (Htimeout 6 "kb" 2000%Z eq_refl)
    as (c & _ & Hret & Hl & Hh & Ho & _ & _).
  split_and!; [done..|]. rewrite Ho. vm_compute in Ho. by injection Ho as <-.
Defined.

Lemma wait_for_consumes_the_completion_it_observed_witness :
  ∃ m tr,
    run encrypt 1 None (started connections) in_time = Some (m, tr)
    ∧ tr !! 18 = Some (EvWaitReturned 0 addressB)
    ∧ (∃ k j, k < 18 ∧ tr !! k = Some (EvMarkComplete j addressB))
    ∧ addressB ∉ _completed_disconnects (barrier m).
Proof.
  eexists _, _. split; [run_it|]. split; [run_it|].
  destruct (wait_for_consumes_the_completion_it_observed
              encrypt 1 None connections in_time _ _ 18 0 addressB
              ltac:(run_it) ltac:(run_it)) as [(k & j & Hk & Hmark & _) Hafter].
  split; [by eauto|]. apply Hafter.
  intros l j' Hl Hmark'. concrete_lookup Hmark'. lia.
Defined.

Lemma mark_complete_is_idempotent_and_wakes_all_witness :
  ∃ m tr s m1,
    run encrypt 1 None (started connections)
      [0; 0; 0; 0; 0; 1; 1; 1; 1; 1; 1] = Some (m, tr)
    ∧ _handler_pool m !! 1 = Some s
    ∧ location s = AtInsertDisconnect
    ∧ step encrypt 1 None m 1 = Some (m1, [EvMarkComplete 1 addressB])
    ∧ _add_to_disconnects addressB (_add_to_disconnects addressB (barrier m))
      = _add_to_disconnects addressB (barrier m).
Proof.
  eexists _, _, _.
  destruct (mark_complete_is_idempotent_and_wakes_all
              encrypt 1 None connections [0; 0; 0; 0; 0; 1; 1; 1; 1; 1; 1]
              _ _ 1 _ ltac:(run_it) ltac:(run_it))
    as (Hidem & Hinsert & _).
  destruct (Hinsert eq_refl) as (m1 & m2 & events & Hstep & _).
  exists m1. split_and!; [run_it|run_it|done|exact Hstep|].
  match goal with
  | |- _add_to_disconnects _ (_add_to_disconnects _ ?b) = _ =>
      destruct (Hidem b) as [Hb _]; exact Hb
  end.
Defined.

Lemma the_proof_of_the_peer_changes_nothing_witness :
  ∃ m1 tr1 m2 tr2,
    run encrypt 1 None (started connections) in_time = Some (m1, tr1)
    ∧ run encrypt 1 None (started connections_without_proof) in_time
      = Some (m2, tr2)
    ∧ _sent_messages m1 = _sent_messages m2
    ∧ outbox <$> _handler_pool m1 = outbox <$> _handler_pool m2.
Proof.
  assert (same_but_for_the_proofs (started connections)
            (started connections_without_proof)) as Hsame by reflexivity.
  pose proof (the_proof_of_the_peer_changes_nothing
                encrypt 1 None _ _ in_time Hsame) as H.
  destruct (run encrypt 1 None (started connections) in_time)
    as [[m1 tr1]|] eqn:H1; [|by vm_compute in H1].
  destruct (run encrypt 1 None (started connections_without_proof) in_time)
    as [[m2 tr2]|] eqn:H2; [|done].
  destruct H as (_ & _ & _ & _ & Hsent & Hout & _).
  by exists m1, tr1, m2, tr2.
Defined.

Lemma challenge_nonce_is_the_constant_1337_witness :
  ∃ m tr,
    run encrypt 1 None (started connections) in_time = Some (m, tr)
    ∧ tr !! 7 = Some (EvEncrypt 1 "kb" "1337")
    ∧ ∀ n tid key plaintext,
        tr !! n = Some (EvEncrypt tid key plaintext) → plaintext = "1337"%string.
Proof.
  eexists _, _. split; [run_it|]. split; [run_it|].
  by destruct (challenge_nonce_is_the_constant_1337
                 encrypt 1 None (started connections) in_time _ _
                 ltac:(run_it)) as (_ & Hplain & _).
Defined.

Lemma responder_marks_complete_before_it_returns_witness :
  ∃ m tr,
    run encrypt 1 (Some TypePeerDisconnect) (started connections) in_time
      = Some (m, tr)
    ∧ tr !! 17 = Some (EvReturn 1)
    ∧ ∃ i j inserted m1, i < j < 17
        ∧ tr !! i = Some (EvSend 1 (WPeerDisconnect {| disconnect_port := 5002 |}))
        ∧ tr !! j = Some (EvMarkComplete 1 addressB)
        ∧ inserted `prefix_of` in_time
        ∧ run encrypt 1 (Some TypePeerDisconnect) (started connections) inserted
          = Some (m1, take (S j) tr)
        ∧ addressB ∈ _completed_disconnects (barrier m1).
Proof.
  eexists _, _. split; [run_it|]. split; [run_it|].
  destruct (responder_marks_complete_before_it_returns
              encrypt 1 (Some TypePeerDisconnect) connections in_time _ _
              1 10 "ka" _ 17 ltac:(run_it) ltac:(run_it) ltac:(run_it))
    as (address & incoming & i & j & l & Hc & Hij & Hjl & Hi & Hj & _
        & (inserted & m1 & Hpre & Hrun & Hin) & _).
  injection Hc as <- <-. exists i, j, inserted, m1.
  split_and!; [lia|lia|done..].
Defined.

(** ** Where the code does otherwise *)



(** C3: both handlers look the other up before either has registered.
    Both take the branch of the Client (the Initiator), none is the Peer
    (the Responder); both end asleep in [_wait_for_disconnect] and no
    thread can move any more. *)
Lemma both_sessions_can_become_the_client :
  ∃ m tr sA sB,
    run encrypt 1 None (started connections) crossed = Some (m, tr)
    ∧ _handler_pool m = [sA; sB]
    ∧ maybe_peer sA = Some None ∧ maybe_peer sB = Some None
    ∧ tr !! 8 = Some (EvGet 0 "kb" None)
    ∧ tr !! 9 = Some (EvGet 1 "ka" None)
    ∧ location sA = AtWaitForDisconnect ∧ location sB = AtWaitForDisconnect
    ∧ (∀ tid, step encrypt 1 None m tid = None).
Proof.
  eexists _, _, _, _. split; [run_it|]. split; [run_it|].
  split_and!; [run_it|run_it|run_it|run_it|run_it|run_it|].
  intros [|[|tid]]; [run_it|run_it|]. apply step_outside. simpl. lia.
Qed.

(** C4: [quit_after] was given Advertise.  The handler returns as soon as
    it has received the Advertise of version 0, below the mediator's
    version 1: no AdvertiseAbort is sent, and the handler never moves
    again. *)
Lemma quit_after_advertise_sends_no_abort :
  ∃ m tr s,
    (version old < 1)%Z
    ∧ run encrypt 1 (Some TypeAdvertise) (started old_connection) [0]
      = Some (m, tr)
    ∧ _handler_pool m = [s]
    ∧ location s = Returned
    ∧ outbox s = [] ∧ _sent_messages m = []
    ∧ (∀ tid, step encrypt 1 (Some TypeAdvertise) m tid = None).
Proof.
  eexists _, _, _. split; [done|]. split; [run_it|]. split; [run_it|].
  split_and!; [run_it|run_it|run_it|].
  intros [|tid]; [run_it|]. apply step_outside. simpl. lia.
Qed.

(** ** The rest of the mediator on the concrete cases *)

Import Scenario Cases.

Local Open Scope nat_scope.

Lemma a_handler_reads_at_most_two_messages_witness :
  ∃ m tr s,
    run encrypt 1 None (started connections) [0] = Some (m, tr)
    ∧ _handler_pool m !! 0 = Some s
    ∧ inbox s = [WAdvertiseResponse proof]
    ∧ [WAdvertise advA; WAdvertiseResponse proof]
      = omap received_message (mine 0 tr) ++ inbox s.
Proof.
  eexists _, _, _. split; [run_it|]. split; [run_it|]. split; [run_it|].
  destruct (a_handler_reads_at_most_two_messages
              encrypt 1 None connections [0] _ _ 0 addressA
              [WAdvertise advA; WAdvertiseResponse proof]
              ltac:(run_it) eq_refl) as (s & Hs & Hread).
  vm_compute in Hs. injection Hs as <-.
  by destruct (Hread ltac:(discriminate)) as [Hincoming _].
Defined.

Lemma quit_after_ends_the_session_at_the_message_witness :
  ∃ m tr,
    run encrypt 1 (quit_after TypeAdvertiseChallenge None)
      (started connections) [0; 0] = Some (m, tr)
    ∧ tr !! 2 = Some (EvSend 0 (WAdvertiseChallenge {| encrypted_nonce := "ka/1337" |}))
    ∧ tr !! 4 = Some (EvReturn 0)
    ∧ ∃ q, 2 < q < 4 ∧ tr !! q = Some (EvNotifyShutdown 0).
Proof.
  eexists _, _. split; [run_it|]. split; [run_it|]. split; [run_it|].
  destruct (quit_after_ends_the_session_at_the_message
              encrypt 1 (quit_after TypeAdvertiseChallenge None)
              connections [0; 0] _ _ TypeAdvertiseChallenge None 0 2
              (WAdvertiseChallenge {| encrypted_nonce := "ka/1337" |})
              eq_refl ltac:(discriminate) ltac:(run_it)
              ltac:(left; run_it) eq_refl)
    as (_ & _ & Hreturn).
  exact (Hreturn 4 eq_refl).
Defined.

Lemma quit_after_the_last_message_changes_nothing_witness :
  run encrypt 1 (quit_after TypePeerDisconnect None) (started connections) in_time
  = run encrypt 1 None (started connections) in_time.
Proof.
  apply quit_after_the_last_message_changes_nothing;
    unfold cuts_the_handshake, quit_after; intros [|[|[|]]]; discriminate.
Defined.

Lemma shutdown_is_notified_by_every_return_but_the_bare_ones_witness :
  ∃ m tr,
    run encrypt 1 None (started connections) in_time = Some (m, tr)
    ∧ tr !! 17 = Some (EvReturn 1)
    ∧ ∃ k, k < 17
        ∧ (tr !! k = Some (EvNotifyShutdown 1)
           ∨ (∃ key, tr !! k = Some (EvAwait 1 key 2000 None))
           ∨ (tr !! k = Some (EvSend 1 (WAdvertiseAbort
                                {| reason := abort_reason 1 |}))
              ∧ None ≠ Some TypeAdvertiseAbort))
        ∧ ∀ j e, k < j < 17 → tr !! j = Some e → event_thread e ≠ 1.
Proof.
  eexists _, _. split; [run_it|]. split; [run_it|].
  destruct (shutdown_is_notified_by_every_return_but_the_bare_ones
              encrypt 1 None connections in_time _ _ ltac:(run_it))
    as [Hreturn _].
  exact (Hreturn 17 1 eq_refl).
Defined.

Lemma await_shutdown_returns_at_a_disconnect_only_witness :
  ∃ m tr,
    run encrypt 1 (quit_after TypeAdvertise None)
      (await_shutdown 2 (started connections)) [0] = Some (m, tr)
    ∧ tr = [EvReceive 0 (WAdvertise advA); EvNotifyShutdown 0; EvReturn 0]
    ∧ 2 ∈ _disconnect_cv (barrier m).
Proof.
  eexists _, _. split; [run_it|]. split; [run_it|].
  apply (await_shutdown_returns_at_a_disconnect_only
           encrypt 1 (quit_after TypeAdvertise None) (started connections) 2 [0]
           _ [EvReceive 0 (WAdvertise advA); EvNotifyShutdown 0; EvReturn 0]).
  - simpl. lia.
  - run_it.
  - intros n tid Hn. by concrete_lookup Hn.
Defined.

Lemma the_store_holds_the_last_registration_of_each_key_witness :
  ∃ m tr,
    run encrypt 1 None (started connections) in_time = Some (m, tr)
    ∧ _key_to_identifier_store m !! "kb"
      = Some {| socket_address := addressB; identifier_version := 1 |}
    ∧ _key_to_identifier_store m = registrations tr.
Proof.
  eexists _, _. split; [run_it|]. split; [run_it|].
  by destruct (the_store_holds_the_last_registration_of_each_key
                 encrypt 1 None connections in_time _ _ ltac:(run_it))
    as [Hstore _].
Defined.

Lemma a_session_registers_itself_once_after_its_response_witness :
  ∃ m tr,
    run encrypt 1 None (started connections) in_time = Some (m, tr)
    ∧ tr !! 5 = Some (EvPut 0 "ka" {| socket_address := addressA;
                                      identifier_version := 1 |})
    ∧ ∀ n key record, tr !! n = Some (EvPut 0 key record) → n = 5.
Proof.
  eexists _, _. split; [run_it|]. split; [run_it|].
  destruct (a_session_registers_itself_once_after_its_response
              encrypt 1 None connections in_time _ _ 5 0 "ka"
              {| socket_address := addressA; identifier_version := 1 |}
              ltac:(run_it) ltac:(run_it))
    as (address & a & r & rest & found & i & g & _ & _ & _ & _ & _ & _ & _ & Honce).
  exact Honce.
Defined.

Lemma the_accept_loop_may_run_before_the_handlers_witness :
  ∃ m tr,
    run_with_accepts encrypt 1 None behind (started []) accepts_in_between
      = Some (m, tr)
    ∧ loop_turns accepts_in_between = [4; -1; 5]%Z
    ∧ run encrypt 1 None (started connections)
        [0; 0; 0; 0; 0; 1; 1; 1; 1; 1; 1] = Some (m, tr).
Proof.
  eexists _, _. split; [run_it|]. split; [run_it|].
  by destruct (the_accept_loop_may_run_before_the_handlers
                 encrypt 1 None behind accepts_in_between _ _ ltac:(run_it))
    as [_ Hrun].
Defined.

Lemma a_handler_stops_only_at_a_receive_or_at_the_barrier_witness :
  ∃ m tr s,
    run encrypt 1 None (started connections) first_asleep = Some (m, tr)
    ∧ _handler_pool m !! 0 = Some s
    ∧ step encrypt 1 None m 0 = None
    ∧ location s = AtWaitForDisconnect
    ∧ 0 ∈ _disconnect_cv (barrier m).
Proof.
  eexists _, _, _. split; [run_it|]. split; [run_it|]. split; [run_it|].
  destruct (a_handler_stops_only_at_a_receive_or_at_the_barrier
              encrypt 1 None connections first_asleep _ _ 0 _
              ltac:(run_it) ltac:(run_it) ltac:(run_it))
    as [[H|H]|[[[H|H] _]|(Hl & Hcv & _)]];
    try (by vm_compute in H).
  by split.
Defined.

Lemma a_peer_is_sent_at_most_two_messages_witness :
  ∃ m tr s,
    run encrypt 1 None (started connections) in_time = Some (m, tr)
    ∧ _handler_pool m !! 1 = Some s
    ∧ outbox s = [WAdvertiseChallenge {| encrypted_nonce := "kb/1337" |};
                  WPeerDisconnect {| disconnect_port := 5002 |}]
    ∧ (socket_held s = false ↔ location s = Returned ∨ location s = Terminated).
Proof.
  eexists _, _, _. split; [run_it|]. split; [run_it|]. split; [run_it|].
  destruct (a_peer_is_sent_at_most_two_messages
              encrypt 1 None connections in_time _ _ 1 addressB
              [WAdvertise advB; WAdvertiseResponse proof]
              ltac:(run_it) eq_refl)
    as (s & Hs & _ & Hheld).
  vm_compute in Hs. injection Hs as <-. exact Hheld.
Defined.

Lemma every_run_is_bounded_witness :
  ∃ m tr,
    run encrypt 1 None (started connections) in_time = Some (m, tr)
    ∧ length tr ≤ 22 ∧ length in_time ≤ 68.
Proof.
  eexists _, _. split; [run_it|].
  destruct (every_run_is_bounded encrypt 1 None connections in_time _ _
              ltac:(run_it))
    as (_ & Htr & Hschedule).
  split; [exact Htr|exact Hschedule].
Defined.

Lemma a_session_that_names_itself_waits_for_itself_witness :
  ∃ m tr,
    run encrypt 1 None (started alone) [0; 0; 0; 0; 0; 0; 0] = Some (m, tr)
    ∧ tr !! 6 = Some (EvAwait 0 "ka" 2000
                        (Some {| socket_address := addressA;
                                 identifier_version := 1 |}))
    ∧ ∀ k e, 6 < k → tr !! k = Some e → event_thread e ≠ 0.
Proof.
  eexists _, _. split; [run_it|]. split; [run_it|].
  destruct (a_session_that_names_itself_waits_for_itself
              encrypt 1 None alone [0; 0; 0; 0; 0; 0; 0] _ _ 0 addressA own
              [WAdvertiseResponse proof]
              eq_refl eq_refl ltac:(apply NoDup_singleton)
              ltac:(by intros [|j] ? ? ? Hj _) ltac:(run_it)
              6 "ka" 2000%Z _ ltac:(run_it))
    as (_ & Hafter & _).
  exact Hafter.
Defined.

Lemma the_destructor_closes_the_number_a_second_time_witness :
  let this := {| LocalListeningSocket._sockfd := 3;
                 LocalListeningSocket._port := 0 |} in
  let others := [(LocalListeningSocket.sys_socket, 3%Z)] in
  3%Z ∈ LocalListeningSocket.open_descriptors
          (LocalListeningSocket.close always_3 this [] ++ others)
  ∧ 3%Z ∉ LocalListeningSocket.open_descriptors
            (LocalListeningSocket.destructor always_3 this
               (LocalListeningSocket.close always_3 this [] ++ others)).
Proof.
  intros this others.
  destruct (the_destructor_closes_the_number_a_second_time
              always_3 this [] others 0 ltac:(simpl; lia) eq_refl
              ltac:(by intros [|j] r Hj))
    as (_ & Hopen & Hclosed & _).
  by split.
Defined.

Lemma an_initiator_is_not_woken_by_an_initiator_witness :
  ∃ m tr,
    run encrypt 1 None (started connections) crossed = Some (m, tr)
    ∧ tr !! 12 = Some (EvAwait 0 "kb" 2000
                         (Some {| socket_address := addressB;
                                  identifier_version := 1 |}))
    ∧ ∀ k e, 12 < k → tr !! k = Some e → event_thread e ≠ 0.
Proof.
  eexists _, _. split; [run_it|]. split; [run_it|].
  eapply proj1, (an_initiator_is_not_woken_by_an_initiator
           encrypt 1 None connections crossed _ _ 0 12 "kb" 2000%Z
           {| socket_address := addressB; identifier_version := 1 |}
           1 [WAdvertise advB; WAdvertiseResponse proof] 9 "ka").
  - apply NoDup_cons. split; [|apply NoDup_singleton].
    intros Hin. apply list_elem_of_singleton in Hin. discriminate Hin.
  - run_it.
  - run_it.
  - reflexivity.
  - run_it.
Defined.

Lemma a_session_goes_through_the_handshake_in_order_witness :
  ∃ m tr,
    run encrypt 1 None (started connections) in_time = Some (m, tr)
    ∧ tr !! 9 = Some (EvReceive 1 (WAdvertiseResponse proof))
    ∧ ∃ i c, i < 9 ∧ tr !! i = Some (EvSend 1 (WAdvertiseChallenge c)).
Proof.
  eexists _, _. split; [run_it|]. split; [run_it|].
  destruct (a_session_goes_through_the_handshake_in_order
              encrypt 1 None connections in_time _ _ ltac:(run_it))
    as (_ & Hresponse & _).
  by apply (Hresponse 9 1 proof).
Defined.
